(** * TextFlow: region-based text flow (experimental-layouts)

    A shallow embedding of the flow engine of [js/intro.js] (which carries the
    library [js/text-flow.js]) and of its intro-page variant
    [js/text-flow-intro.js], with the properties the specification states
    about them.

    Conventions of the embedding.
    - A JavaScript string is the list of its UTF-16 code units.
    - A number is the rational it stands for ([Q]). Every sum, difference,
      product and quotient of the code is rounded as IEEE 754 binary64
      arithmetic rounds it, to the nearest double, ties to even
      ([roundDouble], [jsAdd], [jsSub], [jsMul], [jsDiv]). [NaN] and the
      infinities are modelled where a division by a zero line height makes
      them ([JsInt]); overflow beyond the largest double is not, pixel
      measurements being far below it.
    - The browser's layout is an oracle: [measureHeight] for
      [TextFlow.measureHeight] (a temporary container of the sandbox's width)
      and [rectHeight] for [measureP.getBoundingClientRect().height] inside
      [splitParagraph]; the two are distinct functions because the code
      measures in two different containers.
    - Block objects live in a store; [this.blocks] and the flow queue hold
      references into it, so that [block.text = restText] is a write to the
      store.

    Around the engine the file embeds the life of a [TextFlow] object
    ([loadContent], [scanRegions], [init], [attachResize], [destroy]), the
    page script of [js/intro.js], [debounce] with the timers of the window,
    the wheel handling of [js/stoic-drama.js], the overflow manager of
    [js/how-we-did-it.js] and the active-link test of the global navigation.
    There the document and the window are records of the parts the code
    touches, listeners are named by numbers, and time is counted in
    milliseconds. *)

From Stdlib Require Import QArith Qround Qminmax Lqa ZArith NArith List Lia Bool.
From Stdlib Require Import String Ascii Sorted Qabs Qpower.
From stdpp Require Import base list option.

(** ** Strings *)

Definition jsstring := list N.

(** ASCII literals for examples. *)
Definition utf16 (s : string) : jsstring :=
  List.map N_of_ascii (list_ascii_of_string s).

(** The characters matched by the regular expression class [\s]. *)
Definition isWhiteSpace (c : N) : bool :=
  ((9 <=? c) && (c <=? 13) || (c =? 32) || (c =? 160) || (c =? 0x1680)
   || (0x2000 <=? c) && (c <=? 0x200a)
   || (c =? 0x2028) || (c =? 0x2029) || (c =? 0x202f) || (c =? 0x205f)
   || (c =? 0x3000) || (c =? 0xfeff))%N.

(** [s.split(/\s+/)]: [cur] is the piece being read, [inSep] tells that the
    previous character belonged to a separator match. *)
Fixpoint splitRe (inSep : bool) (cur : jsstring) (s : jsstring) : list jsstring :=
  match s with
  | [] => [cur]
  | c :: s' =>
      if isWhiteSpace c then
        if inSep then splitRe true cur s' else cur :: splitRe true [] s'
      else splitRe false (cur ++ [c]) s'
  end.

Definition split_ws (s : jsstring) : list jsstring := splitRe false [] s.

(** [Boolean(w)] on a string. *)
Definition nonEmpty (w : jsstring) : bool :=
  match w with [] => false | _ :: _ => true end.

(** [text.split(/\s+/).filter(Boolean)] *)
Definition words (t : jsstring) : list jsstring := List.filter nonEmpty (split_ws t).

(** [ws.join(' ')] *)
Fixpoint join (ws : list jsstring) : jsstring :=
  match ws with
  | [] => []
  | w :: rest =>
      match rest with
      | [] => w
      | _ :: _ => w ++ 32%N :: join rest
      end
  end.

(** [ws.slice(0, n)] and [ws.slice(n)] *)
Definition slice0 {A} (n : nat) (ws : list A) : list A := firstn n ws.
Definition sliceFrom {A} (n : nat) (ws : list A) : list A := skipn n ws.

(** [a === b] on strings. *)
Definition strEq (a b : jsstring) : bool :=
  if list_eq_dec N.eq_dec a b then true else false.

(** ** Numbers *)

Definition Qleb (x y : Q) : bool := Qle_bool x y.
Definition Qltb (x y : Q) : bool := negb (Qle_bool y x).

(** The exponent of a positive number: [2 ^ ilog2 x <= x < 2 ^ (ilog2 x + 1)]. *)
Definition ilog2 (x : Q) : Z :=
  let e := (Z.log2 (Qnum x) - Z.log2 (Zpos (Qden x)))%Z in
  if Qle_bool (2 ^ e) x then e else (e - 1)%Z.

(** The nearest integer, the even one of two that are as near. *)
Definition roundHalfEven (t : Q) : Z :=
  let f := Qfloor t in
  match Qcompare (t - inject_Z f) (1 # 2) with
  | Lt => f
  | Gt => (f + 1)%Z
  | Eq => if Z.even f then f else (f + 1)%Z
  end.

(** The distance between the doubles around a positive number: 53 bits of
    significand, and the subnormal spacing below [2 ^ -1022]. *)
Definition ulp (x : Q) : Q := 2 ^ (Z.max (ilog2 x - 52) (-1074)).

Definition roundPositive (x : Q) : Q :=
  inject_Z (roundHalfEven (x / ulp x)) * ulp x.

(** The double nearest to a number, as a fraction in lowest terms. *)
Definition roundDouble (x : Q) : Q :=
  match Qcompare x 0 with
  | Eq => 0
  | Gt => Qred (roundPositive x)
  | Lt => Qred (- roundPositive (- x))
  end.

(** [a + b], [a - b], [a * b] and [a / b] on numbers. *)
Definition jsAdd (a b : Q) : Q := roundDouble (a + b).
Definition jsSub (a b : Q) : Q := roundDouble (a - b).
Definition jsMul (a b : Q) : Q := roundDouble (a * b).
Definition jsDiv (a b : Q) : Q := roundDouble (a / b).

Arguments jsAdd : simpl never.
Arguments jsSub : simpl never.
Arguments jsMul : simpl never.
Arguments jsDiv : simpl never.

(** [x || d] on a number: zero is falsy. *)
Definition orDefault (x d : Q) : Q := if Qeq_bool x 0 then d else x.

(** [parseFloat(s) || d]: [None] stands for [NaN]. *)
Definition parsedOr (x : option Q) (d : Q) : Q :=
  match x with Some v => orDefault v d | None => d end.

(** The result of a division whose divisor may be zero, and of
    [Math.floor] / [Math.ceil] applied to it. *)
Inductive JsInt := Fin (z : Z) | PosInf | NegInf | NaN.

(** [Math.floor(a / b)] *)
Definition floorDiv (a b : Q) : JsInt :=
  if Qeq_bool b 0 then
    if Qltb 0 a then PosInf else if Qltb a 0 then NegInf else NaN
  else Fin (Qfloor (jsDiv a b)).

(** [Math.ceil(a / b)] *)
Definition ceilDiv (a b : Q) : JsInt :=
  if Qeq_bool b 0 then
    if Qltb 0 a then PosInf else if Qltb a 0 then NegInf else NaN
  else Fin (Qceiling (jsDiv a b)).

(** [x < 1] *)
Definition ltOne (x : JsInt) : bool :=
  match x with
  | Fin z => (z <? 1)%Z
  | NegInf => true
  | PosInf | NaN => false
  end.

(** [x <= y] *)
Definition jsLe (x y : JsInt) : bool :=
  match x, y with
  | NaN, _ | _, NaN => false
  | NegInf, _ => true
  | _, PosInf => true
  | Fin a, Fin b => (a <=? b)%Z
  | _, _ => false
  end.

(** ** Content records and blocks *)

(** The values a field of the content JSON may hold, as far as the Block
    Builder looks at them. *)
Inductive JsVal :=
| JUndefined
| JNull
| JBool (b : bool)
| JNum (q : Q)
| JStr (s : jsstring).

(** [Boolean(v)] *)
Definition truthy (v : JsVal) : bool :=
  match v with
  | JUndefined | JNull => false
  | JBool b => b
  | JNum q => negb (Qeq_bool q 0)
  | JStr s => nonEmpty s
  end.

Inductive BlockType := heading | paragraph.

(** [b.id || `blk-${index}`] *)
Inductive BlockId := IdGiven (v : JsVal) | IdSynth (index : nat).

(** One record of [json.blocks]. [rtype = None] is any string other than
    ['heading'] and ['paragraph']; [rlevel] and [rtext] follow the content
    contract (an integer, a string). *)
Record RawBlock := {
  rid : JsVal;
  rtype : option BlockType;
  rlevel : option Z;
  rtext : option jsstring;
  rkeepWithNext : JsVal;
  rorphanProtection : JsVal
}.

(** A block object. [elText] is the [text] that the [elFactory] closure
    captured when the block was built; copies of the block share it. *)
Record Block := {
  id_ : BlockId;
  type : BlockType;
  level : option Z;
  text : jsstring;
  keepWithNext : bool;
  orphanProtection : Q;
  elText : jsstring
}.

Definition setText (b : Block) (t : jsstring) : Block :=
  {| id_ := id_ b; type := type b; level := level b; text := t;
     keepWithNext := keepWithNext b; orphanProtection := orphanProtection b;
     elText := elText b |}.

(** [TextFlow.buildBlocks] *)
Definition buildBlock (index : nat) (b : RawBlock) : option Block :=
  let id := if truthy (rid b) then IdGiven (rid b) else IdSynth index in
  let keepWithNext := truthy (rkeepWithNext b) in
  let orphanProtection :=
    match rorphanProtection b with JNum q => q | _ => 2%Q end in
  let text := match rtext b with Some s => s | None => [] end in
  match rtype b with
  | Some heading =>
      let level :=
        match rlevel b with
        | Some l => if (l =? 0)%Z then Some 2%Z else Some l
        | None => Some 2%Z
        end in
      Some {| id_ := id; type := heading; level := level; text := text;
              keepWithNext := keepWithNext;
              orphanProtection := orphanProtection; elText := text |}
  | Some paragraph =>
      Some {| id_ := id; type := paragraph; level := None; text := text;
              keepWithNext := keepWithNext;
              orphanProtection := orphanProtection; elText := text |}
  | None => None
  end.

Fixpoint buildBlocksFrom (index : nat) (raw : list RawBlock) : list Block :=
  match raw with
  | [] => []
  | b :: raw' =>
      match buildBlock index b with
      | Some blk => blk :: buildBlocksFrom (S index) raw'
      | None => buildBlocksFrom (S index) raw'
      end
  end.

Definition buildBlocks (raw : list RawBlock) : list Block := buildBlocksFrom 0 raw.

(** ** Elements *)

Inductive El :=
| EHeading (lvl : Z) (txt : jsstring)
| EParagraph (txt : jsstring).

(** [TextFlow.createHeading]: the level is clamped into 2..4. *)
Definition createHeading (level : option Z) (txt : jsstring) : El :=
  let l := match level with
           | Some l => if (l =? 0)%Z then 2%Z else l
           | None => 2%Z
           end in
  EHeading (Z.min (Z.max l 2) 4) txt.

Definition createParagraph (txt : jsstring) : El := EParagraph txt.

(** [block.elFactory(arg)]: a heading's factory takes no argument and uses
    the captured level and text; a paragraph's factory defaults its
    argument to the captured text. *)
Definition elFactory (b : Block) (arg : option jsstring) : El :=
  match type b with
  | heading => createHeading (level b) (elText b)
  | paragraph =>
      createParagraph (match arg with Some t => t | None => elText b end)
  end.

(** [block.type === 'paragraph' ? block.elFactory(block.text) : block.elFactory()] *)
Definition blockEl (b : Block) : El :=
  match type b with
  | paragraph => elFactory b (Some (text b))
  | heading => elFactory b None
  end.

Definition elTxt (e : El) : jsstring :=
  match e with EHeading _ t => t | EParagraph t => t end.

Definition isHeadingEl (e : El) : bool :=
  match e with EHeading _ _ => true | EParagraph _ => false end.

(** ** Computed style *)

(** What [getLineHeightPx] reads: [lineHeightPx] is [Some v] when the
    computed line-height ends in [px], [fontSize] is [parseFloat] of the
    computed font size. *)
Record ComputedStyle := {
  lineHeightPx : option Q;
  fontSize : option Q
}.

(** [TextFlow.getLineHeightPx] *)
Definition getLineHeightPx (cs : ComputedStyle) : Q :=
  match lineHeightPx cs with
  | Some v => v
  | None => jsMul (roundDouble (12 # 10)) (parsedOr (fontSize cs) 16)
  end.

(** ** The measurement oracle *)

(** [measureHeight w nodes] is [TextFlow.measureHeight(nodes)] while the
    sandbox is [w] pixels wide; [rectHeight w t] is
    [measureP.getBoundingClientRect().height] for a paragraph of text [t] in
    that sandbox; [paragraphStyle] is the computed style of a paragraph. *)
Record Oracle := {
  measureHeight : Q -> list El -> Q;
  rectHeight : Q -> jsstring -> Q;
  paragraphStyle : ComputedStyle
}.

(** ** Paragraph splitting: the result record *)

Record SplitResult := {
  fitsWords : nat;
  firstText : jsstring;
  restText : jsstring
}.

(** ** The flow loop common to both copies of [TextFlow.flow]

    js/intro.js and js/text-flow-intro.js carry the same [flow] up to three
    points, which are the parameters of this section: the keep-with-next
    block of the loop body (absent from text-flow-intro.js), the paragraph
    splitter, and how a region yields its metrics. *)

(** What one region received: the nodes appended by one placement and the
    height measured for them. *)
Record Placement := {
  nodes : list El;
  measured : Q
}.

Record Metrics := {
  availableHeight : Q;
  innerWidth : Q
}.

(** The branch one pass through the loop body takes. *)
Inductive Action :=
| NoSpace
| PlacePair (elA elB : El) (heightTogether : Q)
| AbandonPair
| PlaceSingle (el : El) (h : Q)
| AbandonHeading
| AbandonUnsplit
| PlaceFragment (fragEl : El) (fragHeight : Q) (rest : jsstring)
| AbandonFragment.

(** The variables of the [while] loop. [store] holds the block objects,
    [queue] the references of the pending ones. *)
Record LoopState := {
  store : list Block;
  queue : list nat;
  used : Q;
  placed : list Placement
}.

Inductive StepResult :=
| Continue (s : LoopState)
| Break.

Definition blockWeight (b : Block) : nat := S (length (words (text b))).

(** A bound on the number of passes through the loop body: every pass that
    continues either shifts the queue or shortens the head's word list. *)
Definition queueWeight (st : list Block) (q : list nat) : nat :=
  list_sum (List.map (fun l => match st !! l with
                               | Some b => blockWeight b
                               | None => 0%nat
                               end) q).

Section Engine.

Context {Region : Type}.
Variable useKeepWithNext : bool.
Variable split : Q -> Block -> Q -> option SplitResult.
Variable orc : Oracle.
(** [None]: the region has no content wrapper. *)
Variable regionMetrics : Region -> option Metrics.

(** The tests of the loop body, on the block at the queue head, the length
    of the queue and the block after the head. *)
Definition chooseAction (width availHeight usedHeight : Q)
    (block : Block) (qlen : nat) (next : option Block) : option Action :=
  let remaining := jsSub availHeight usedHeight in
  if Qleb remaining 0 then Some NoSpace
  else if useKeepWithNext && keepWithNext block && (2 <=? qlen)%nat then
    nb ← next;
    let elA := elFactory block (Some (text block)) in
    let elB := blockEl nb in
    let heightTogether := measureHeight orc width [elA; elB] in
    if Qleb heightTogether remaining
    then Some (PlacePair elA elB heightTogether)
    else Some AbandonPair
  else
    let el := blockEl block in
    let h := measureHeight orc width [el] in
    if Qleb h remaining then Some (PlaceSingle el h)
    else
      match type block with
      | heading => Some AbandonHeading
      | paragraph =>
          sp ← split width block remaining;
          if (fitsWords sp =? 0)%nat then Some AbandonUnsplit
          else
            let fragEl := elFactory block (Some (firstText sp)) in
            let fragHeight := measureHeight orc width [fragEl] in
            if Qleb fragHeight remaining
            then Some (PlaceFragment fragEl fragHeight (restText sp))
            else Some AbandonFragment
      end.

(** The writes of the branch taken; [None] is [break]. *)
Definition applyAction (a : Action) (s : LoopState) : option LoopState :=
  match a with
  | PlacePair elA elB heightTogether =>
      Some {| store := store s;
              queue := drop 2 (queue s);
              used := jsAdd (used s) heightTogether;
              placed := placed s ++ [{| nodes := [elA; elB];
                                        measured := heightTogether |}] |}
  | PlaceSingle el h =>
      Some {| store := store s;
              queue := drop 1 (queue s);
              used := jsAdd (used s) h;
              placed := placed s ++ [{| nodes := [el]; measured := h |}] |}
  | PlaceFragment fragEl fragHeight rest =>
      match queue s with
      | q0 :: _ =>
          Some {| store := alter (fun b => setText b rest) q0 (store s);
                  queue := queue s;
                  used := jsAdd (used s) fragHeight;
                  placed := placed s ++ [{| nodes := [fragEl];
                                            measured := fragHeight |}] |}
      | [] => None
      end
  | NoSpace | AbandonPair | AbandonHeading | AbandonUnsplit
  | AbandonFragment => None
  end.

(** One pass through the body of [while (queue.length > 0)]. *)
Definition iteration (width availHeight : Q) (s : LoopState)
    : option StepResult :=
  match queue s with
  | [] => None
  | q0 :: qrest =>
      block ← store s !! q0;
      let next := head qrest ≫= (fun q1 => store s !! q1) in
      a ← chooseAction width availHeight (used s) block
            (length (queue s)) next;
      Some (match applyAction a s with
            | Some s' => Continue s'
            | None => Break
            end)
  end.

Fixpoint regionLoop (fuel : nat) (width availHeight : Q) (s : LoopState)
    : option LoopState :=
  match queue s with
  | [] => Some s
  | _ :: _ =>
      match fuel with
      | 0%nat => None
      | S fuel' =>
          r ← iteration width availHeight s;
          match r with
          | Continue s' => regionLoop fuel' width availHeight s'
          | Break => Some s
          end
      end
  end.

(** Whether the [for] loop runs the [while] loop on a region. *)
Definition usable (region : Region) : option Metrics :=
  m ← regionMetrics region;
  if Qleb (availableHeight m) 0 || Qleb (innerWidth m) 0 then None
  else Some m.

(** The [for] loop over [this.regions]: the final store and queue, and
    what each region received. *)
Fixpoint flowRegions (regions : list Region) (st : list Block)
    (q : list nat) : option (list Block * list nat * list (list Placement)) :=
  match regions with
  | [] => Some (st, q, [])
  | region :: rest =>
      match usable region with
      | None =>
          '(st', q', out) ← flowRegions rest st q;
          Some (st', q', [] :: out)
      | Some m =>
          s ← regionLoop (queueWeight st q) (innerWidth m)
                (availableHeight m)
                {| store := st; queue := q; used := 0; placed := [] |};
          '(st', q', out) ← flowRegions rest (store s) (queue s);
          Some (st', q', placed s :: out)
      end
  end.

(** [this.blocks.map((b) => ({ ...b, text: b.text }))]: one new object per
    block, allocated at the end of the store. *)
Fixpoint copyBlocks (st : list Block) (refs : list nat)
    : option (list Block * list nat) :=
  match refs with
  | [] => Some (st, [])
  | l :: refs' =>
      b ← st !! l;
      '(st', q) ← copyBlocks (st ++ [setText b (text b)]) refs';
      Some (st', length st :: q)
  end.

(** The fields of a [TextFlow] instance that [flow] touches. [content] is
    what the content sink of each region holds, in region order. *)
Record Instance := {
  heap : list Block;
  blocks : list nat;
  regions : list Region;
  content : list (list Placement)
}.

(** [TextFlow.flow]. [clearRegions] empties every sink, so what a sink
    holds after the pass is what the pass appended. *)
Definition flowPass (tf : Instance) : option Instance :=
  if (length (blocks tf) =? 0)%nat || (length (regions tf) =? 0)%nat
  then Some tf
  else
    '(st, q) ← copyBlocks (heap tf) (blocks tf);
    '(st', _, out) ← flowRegions (regions tf) st q;
    Some {| heap := st'; blocks := blocks tf; regions := regions tf;
            content := out |}.

End Engine.

Arguments Instance : clear implicits.

(** ** js/intro.js (js/text-flow.js) *)

Module TextFlow.

Section Split.

Variable orc : Oracle.

(** The [while (lo <= hi)] loop of the binary search, one iteration per
    unit of [fuel]. *)
Fixpoint searchLoop (fuel : nat) (width availHeight : Q)
    (ws : list jsstring) (lo hi best : nat) : option nat :=
  if (hi <? lo)%nat then Some best
  else
    match fuel with
    | 0%nat => None
    | S fuel' =>
        let mid := ((lo + hi) / 2)%nat in
        let h := rectHeight orc width (join (slice0 mid ws)) in
        if Qleb h availHeight
        then searchLoop fuel' width availHeight ws (mid + 1)%nat hi mid
        else searchLoop fuel' width availHeight ws lo (mid - 1)%nat best
    end.

(** [Math.max(1, Number(block.orphanProtection || 2))] *)
Definition minLines (block : Block) : Q :=
  Qmax 1 (orDefault (orphanProtection block) 2).

(** [TextFlow.splitParagraph] *)
Definition splitParagraph (width : Q) (block : Block) (availHeight : Q)
    : option SplitResult :=
  let txt := text block in
  let ws := words txt in
  if (length ws =? 0)%nat then
    Some {| fitsWords := 0; firstText := []; restText := [] |}
  else
    let lineHeight := getLineHeightPx (paragraphStyle orc) in
    let minHeight := jsMul lineHeight (minLines block) in
    if Qltb availHeight minHeight then
      Some {| fitsWords := 0; firstText := []; restText := txt |}
    else
      best ← searchLoop (length ws) width availHeight ws 1 (length ws) 0;
      if (best =? 0)%nat then
        Some {| fitsWords := 0; firstText := []; restText := txt |}
      else
        let fragHeight := rectHeight orc width (join (slice0 best ws)) in
        if Qltb fragHeight minHeight then
          Some {| fitsWords := 0; firstText := []; restText := txt |}
        else
          Some {| fitsWords := best;
                  firstText := join (slice0 best ws);
                  restText := join (sliceFrom best ws) |}.

End Split.

(** [parseFloat] of the four paddings of a computed style. *)
Record Padding := {
  paddingTop : option Q;
  paddingBottom : option Q;
  paddingLeft : option Q;
  paddingRight : option Q
}.

(** A region: the computed style of its [.flow-content] wrapper ([None]
    when [querySelector] finds none) and its client box. *)
Record Region := {
  wrap : option Padding;
  clientWidth : Q;
  clientHeight : Q
}.

(** [TextFlow.getRegionMetrics(region, wrap)] *)
Definition getRegionMetrics (region : Region) (cs : Padding) : Metrics :=
  let padTop := parsedOr (paddingTop cs) 0 in
  let padBottom := parsedOr (paddingBottom cs) 0 in
  let padLeft := parsedOr (paddingLeft cs) 0 in
  let padRight := parsedOr (paddingRight cs) 0 in
  {| innerWidth := jsSub (jsSub (clientWidth region) padLeft) padRight;
     availableHeight := jsSub (jsSub (clientHeight region) padTop) padBottom |}.

Definition regionMetrics (region : Region) : option Metrics :=
  cs ← wrap region; Some (getRegionMetrics region cs).

(** [TextFlow.flow] *)
Definition flow (orc : Oracle)
    : Instance Region -> option (Instance Region) :=
  flowPass true (splitParagraph orc) orc regionMetrics.

End TextFlow.

(** ** js/text-flow-intro.js *)

Module TextFlowIntro.

Section Split.

Variable orc : Oracle.

(** The [for] loop over the words: [rest] are the words from index [i]
    on. *)
Fixpoint growLoop (width lineHeight : Q) (maxLines : JsInt)
    (rest : list jsstring) (i : nat)
    (currentText bestText : jsstring) (bestWordCount : nat)
    : jsstring * nat :=
  match rest with
  | [] => (bestText, bestWordCount)
  | w :: rest' =>
      let testText :=
        currentText ++ (if nonEmpty currentText then [32%N] else []) ++ w in
      let currentHeight := rectHeight orc width testText in
      let currentLines := ceilDiv currentHeight lineHeight in
      if jsLe currentLines maxLines
      then growLoop width lineHeight maxLines rest' (S i)
             testText testText (i + 1)%nat
      else (bestText, bestWordCount)
  end.

(** [TextFlow.splitParagraph] *)
Definition splitParagraph (width : Q) (block : Block) (availHeight : Q)
    : option SplitResult :=
  let txt := text block in
  let ws := words txt in
  if (length ws =? 0)%nat then
    Some {| fitsWords := 0; firstText := []; restText := [] |}
  else
    let lineHeight := getLineHeightPx (paragraphStyle orc) in
    let maxLines := floorDiv availHeight lineHeight in
    if ltOne maxLines then
      Some {| fitsWords := 0; firstText := []; restText := txt |}
    else
      let '(bestText, bestWordCount) :=
        growLoop width lineHeight maxLines ws 0 [] [] 0 in
      let '(bestText, bestWordCount) :=
        if (bestWordCount =? 0)%nat && (0 <? length ws)%nat then
          match ws with
          | w0 :: _ =>
              if Qleb (rectHeight orc width w0) availHeight
              then (w0, 1%nat) else (bestText, bestWordCount)
          | [] => (bestText, bestWordCount)
          end
        else (bestText, bestWordCount) in
      Some {| fitsWords := bestWordCount;
              firstText := bestText;
              restText := join (sliceFrom bestWordCount ws) |}.

End Split.

(** A region: its bounding rectangle and [parseFloat] of the paddings and
    side borders of its computed style. The content sink is the region
    itself. *)
Record Region := {
  rectWidth : Q;
  rectHeightPx : Q;
  paddingTop : option Q;
  paddingBottom : option Q;
  paddingLeft : option Q;
  paddingRight : option Q;
  borderLeftWidth : option Q;
  borderRightWidth : option Q
}.

(** [TextFlow.getRegionMetrics(region, wrap)]: the class defines it twice
    and the second definition is the one in force. *)
Definition getRegionMetrics (region : Region) : Metrics :=
  let paddingTop := parsedOr (paddingTop region) 0 in
  let paddingBottom := parsedOr (paddingBottom region) 0 in
  let availableHeight :=
    jsSub (jsSub (rectHeightPx region) paddingTop) paddingBottom in
  let paddingLeft := parsedOr (paddingLeft region) 0 in
  let paddingRight := parsedOr (paddingRight region) 0 in
  let borderLeft := parsedOr (borderLeftWidth region) 0 in
  let borderRight := parsedOr (borderRightWidth region) 0 in
  let innerWidth :=
    jsSub (jsSub (jsSub (jsSub (rectWidth region) paddingLeft) paddingRight)
             borderLeft) borderRight in
  {| availableHeight := availableHeight; innerWidth := innerWidth |}.

Definition regionMetrics (region : Region) : option Metrics :=
  Some (getRegionMetrics region).

(** [TextFlow.flow] *)
Definition flow (orc : Oracle)
    : Instance Region -> option (Instance Region) :=
  flowPass false (splitParagraph orc) orc regionMetrics.

End TextFlowIntro.

(** ** The life of a [TextFlow] object (js/intro.js)

    [loadContent], [scanRegions], [createSandbox], [attachResize], [init]
    and [destroy], on the fields of the object and the parts of the
    document and the window they touch. *)

Module Lifecycle.

(** What [res.json()] resolves to, as far as [validateContent] and
    [buildBlocks] look at it: [JsonOther] is a value that is no object
    ([null], a number, a string, a boolean); [blocksField] is [Some] when
    [json.blocks] is an array (of records, by the content contract);
    [titleField] is [None] when [json.title] is falsy. *)
Inductive Json :=
| JsonOther
| JsonObject (blocksField : option (list RawBlock))
    (titleField : option jsstring).

(** How [fetch(contentUrl)] and [res.json()] end. *)
Inductive Fetched :=
| NetworkError
| HttpError
| BadBody
| Body (json : Json).

(** [validateContent]: [false] when it throws. *)
Definition validateContent (json : Json) : bool :=
  match json with
  | JsonOther => false
  | JsonObject None _ => false
  | JsonObject (Some _) _ => true
  end.

(** [this.buildBlocks(json)] for whatever [json] is: [None] is the
    [TypeError] of reading [blocks] of [null] or calling [forEach] of
    [undefined]. *)
Definition buildBlocksOf (json : option Json) : option (list Block) :=
  match json with
  | Some (JsonObject (Some raw) _) => Some (buildBlocks raw)
  | _ => None
  end.

(** A node that [regionSelector] matches: three properties of its computed
    style, the number its [data-flow-order] holds ([None]: no such
    attribute, or an empty one), and its layout once it holds nothing but a
    fresh [.flow-content] wrapper. *)
Record RegionNode := {
  display : jsstring;
  visibility : jsstring;
  opacity : jsstring;
  flowOrder : option Q;
  wrapperStyle : TextFlow.Padding;
  nodeClientWidth : Q;
  nodeClientHeight : Q
}.

Inductive Sandbox := NoSandbox | Attached | Detached.

(** The fields of the object; [contentJson] is [this.content], and
    [resizeHandler] names a listener of the window. *)
Record Obj := {
  contentUrl : option jsstring;
  contentJson : option Json;
  inst : Instance TextFlow.Region;
  sandbox : Sandbox;
  resizeHandler : option nat
}.

(** The document and the window: the nodes [regionSelector] matches in
    document order, the number of failure notes appended, the title, and
    the listeners of [resize] in the order they were added. *)
Record Doc := {
  regionNodes : list RegionNode;
  failureNotes : nat;
  title : jsstring;
  resizeListeners : list nat;
  nextListener : nat
}.

Definition setInst (o : Obj) (i : Instance TextFlow.Region) : Obj :=
  {| contentUrl := contentUrl o; contentJson := contentJson o; inst := i;
     sandbox := sandbox o; resizeHandler := resizeHandler o |}.

(** [this.blocks = ...] with an array of new objects. *)
Definition setBlocks (o : Obj) (built : list Block) : Obj :=
  setInst o {| heap := heap (inst o) ++ built;
               blocks := seq (length (heap (inst o))) (length built);
               regions := regions (inst o);
               content := content (inst o) |}.

(** [!this.contentUrl] *)
Definition hasUrl (o : Obj) : bool :=
  match contentUrl o with
  | Some url => nonEmpty url
  | None => false
  end.

(** The [catch] of [loadContent]. *)
Definition noteFailure (d : Doc) : Doc :=
  {| regionNodes := regionNodes d; failureNotes := S (failureNotes d);
     title := title d; resizeListeners := resizeListeners d;
     nextListener := nextListener d |}.

(** [TextFlow.loadContent] *)
Definition loadContent (fetched : Fetched) (o : Obj) (d : Doc) : Obj * Doc :=
  if hasUrl o then
    match fetched with
    | Body json =>
        if validateContent json then
          match json with
          | JsonObject (Some raw) titleField =>
              let o' :=
                {| contentUrl := contentUrl o; contentJson := Some json;
                   inst := inst o; sandbox := sandbox o;
                   resizeHandler := resizeHandler o |} in
              (setBlocks o' (buildBlocks raw),
               {| regionNodes := regionNodes d;
                  failureNotes := failureNotes d;
                  title := match titleField with
                           | Some ttl =>
                               ttl ++ [32%N; 8212%N; 32%N]
                                   ++ utf16 "EXPERI-MENTAL"
                           | None => title d
                           end;
                  resizeListeners := resizeListeners d;
                  nextListener := nextListener d |})
          | _ => (o, noteFailure d)
          end
        else (o, noteFailure d)
    | NetworkError | HttpError | BadBody => (o, noteFailure d)
    end
  else (o, d).

(** The filter of [scanRegions]. *)
Definition isVisible (el : RegionNode) : bool :=
  negb (strEq (display el) (utf16 "none"))
  && negb (strEq (visibility el) (utf16 "hidden"))
  && negb (strEq (opacity el) (utf16 "0")).

(** [Number(el.getAttribute('data-flow-order') || '0')] *)
Definition orderOf (el : RegionNode) : Q :=
  match flowOrder el with
  | Some q => q
  | None => 0
  end.

(** [.sort((a, b) => a.order - b.order)]. The sort of an array is stable,
    so that on orders that are numbers its result is the one of inserting
    the nodes one after the other, each behind the nodes whose order is
    not greater. *)
Fixpoint insertByOrder (el : RegionNode) (sorted : list RegionNode)
    : list RegionNode :=
  match sorted with
  | [] => [el]
  | el' :: rest =>
      if Qltb (orderOf el) (orderOf el') then el :: el' :: rest
      else el' :: insertByOrder el rest
  end.

Definition sortByOrder (els : list RegionNode) : list RegionNode :=
  fold_left (fun sorted el => insertByOrder el sorted) els [].

(** A scanned node as [flow] sees it. *)
Definition asRegion (el : RegionNode) : TextFlow.Region :=
  {| TextFlow.wrap := Some (wrapperStyle el);
     TextFlow.clientWidth := nodeClientWidth el;
     TextFlow.clientHeight := nodeClientHeight el |}.

(** [TextFlow.scanRegions]: every region is emptied and given a wrapper. *)
Definition scanRegions (o : Obj) (d : Doc) : Obj :=
  let ordered := sortByOrder (List.filter isVisible (regionNodes d)) in
  setInst o {| heap := heap (inst o);
               blocks := blocks (inst o);
               regions := List.map asRegion ordered;
               content := List.map (fun _ => []) ordered |}.

(** [TextFlow.createSandbox] *)
Definition createSandbox (o : Obj) : Obj :=
  match sandbox o with
  | NoSandbox =>
      {| contentUrl := contentUrl o; contentJson := contentJson o;
         inst := inst o; sandbox := Attached;
         resizeHandler := resizeHandler o |}
  | Attached | Detached => o
  end.

(** [this.flow()] *)
Definition flow (orc : Oracle) (o : Obj) : option Obj :=
  i ← TextFlow.flow orc (inst o); Some (setInst o i).

(** [TextFlow.attachResize]: the handler is a new function each time. *)
Definition attachResize (o : Obj) (d : Doc) : Obj * Doc :=
  ({| contentUrl := contentUrl o; contentJson := contentJson o;
      inst := inst o; sandbox := sandbox o;
      resizeHandler := Some (nextListener d) |},
   {| regionNodes := regionNodes d; failureNotes := failureNotes d;
      title := title d;
      resizeListeners := resizeListeners d ++ [nextListener d];
      nextListener := S (nextListener d) |}).

(** [TextFlow.init]; [waitForFonts] changes nothing. *)
Definition init (orc : Oracle) (fetched : Fetched) (o : Obj) (d : Doc)
    : option (Obj * Doc) :=
  let '(o1, d1) := loadContent fetched o d in
  let o2 := scanRegions o1 d1 in
  let o3 := createSandbox o2 in
  o4 ← flow orc o3;
  Some (attachResize o4 d1).

(** [TextFlow.destroy]: neither [this.resizeHandler] nor [this.sandbox] is
    reset. *)
Definition destroy (o : Obj) (d : Doc) : Obj * Doc :=
  ({| contentUrl := contentUrl o; contentJson := contentJson o;
      inst := inst o;
      sandbox := match sandbox o with
                 | Attached => Detached
                 | s => s
                 end;
      resizeHandler := resizeHandler o |},
   match resizeHandler o with
   | Some h =>
       {| regionNodes := regionNodes d; failureNotes := failureNotes d;
          title := title d;
          resizeListeners :=
            List.filter (fun l => negb (l =? h)%nat) (resizeListeners d);
          nextListener := nextListener d |}
   | None => d
   end).

End Lifecycle.

(** ** The page script of js/intro.js *)

Module IntroPage.

(** The object [flow] of the script, the document, the markup last
    assigned to [innerHTML] of [#traditional-container] ([None]: there is
    no such element), and whether the listener
    [debounced(initLayout, 200)] has been added. *)
Record Page := {
  flowObj : Lifecycle.Obj;
  doc : Lifecycle.Doc;
  traditional : option jsstring;
  resizeListening : bool
}.

(** How an [async] function ends: its promise is fulfilled, or rejected
    with what was thrown. *)
Inductive Ended :=
| Fulfilled (p : Page)
| Rejected (p : Page).

(** [window.innerWidth > 1280] *)
Definition shouldUseTextFlow (width : Z) : bool := (1280 <? width)%Z.

Definition clearTraditional (p : Page) : Page :=
  {| flowObj := flowObj p; doc := doc p;
     traditional := match traditional p with
                    | Some _ => Some []
                    | None => None
                    end;
     resizeListening := resizeListening p |}.

(** [Math.min(Math.max(Number(block.level || 2), 2), 4)] as the template
    literal writes it: one decimal digit. *)
Definition levelDigit (level : option Z) : jsstring :=
  let l := match level with
           | Some l => if (l =? 0)%Z then 2%Z else l
           | None => 2%Z
           end in
  [Z.to_N (48 + Z.min (Z.max l 2) 4)].

(** [renderBlockToHtml]: the markup, with [block.text] put into it as it
    is; 34 is the double quote. *)
Definition renderBlockToHtml (block : Block) : jsstring :=
  match type block with
  | heading =>
      let level := levelDigit (level block) in
      utf16 "<h" ++ level ++ utf16 " class=" ++ [34%N]
      ++ utf16 "flow-heading flow-h" ++ level ++ [34%N] ++ utf16 ">"
      ++ text block ++ utf16 "</h" ++ level ++ utf16 ">"
  | paragraph =>
      utf16 "<p class=" ++ [34%N] ++ utf16 "flow-p" ++ [34%N] ++ utf16 ">"
      ++ text block ++ utf16 "</p>"
  end.

(** [blocks.map(renderBlockToHtml).join('')] becomes the [innerHTML] of
    the container. *)
Definition renderTraditionalLayout (bs : list Block) (p : Page) : Page :=
  {| flowObj := flowObj p; doc := doc p;
     traditional := match traditional p with
                    | Some _ => Some (concat (List.map renderBlockToHtml bs))
                    | None => None
                    end;
     resizeListening := resizeListening p |}.

(** The blocks [flow.blocks] refers to. *)
Definition blocksOf (o : Lifecycle.Obj) : option (list Block) :=
  mapM (fun l => heap (Lifecycle.inst o) !! l) (blocks (Lifecycle.inst o)).

(** [initLayout]; [None] when [flow] of the object gives no result. *)
Definition initLayout (orc : Oracle) (width : Z)
    (fetched : Lifecycle.Fetched) (p : Page) : option Ended :=
  let p := clearTraditional p in
  if shouldUseTextFlow width then
    '(o, d) ← Lifecycle.init orc fetched (flowObj p) (doc p);
    Some (Fulfilled {| flowObj := o; doc := d; traditional := traditional p;
                       resizeListening := resizeListening p |})
  else
    match Lifecycle.contentJson (flowObj p) with
    | None =>
        let '(o, d) := Lifecycle.loadContent fetched (flowObj p) (doc p) in
        let p1 := {| flowObj := o; doc := d; traditional := traditional p;
                     resizeListening := resizeListening p |} in
        match Lifecycle.buildBlocksOf (Lifecycle.contentJson o) with
        | Some built =>
            let p2 := {| flowObj := Lifecycle.setBlocks o built; doc := d;
                         traditional := traditional p;
                         resizeListening := resizeListening p |} in
            Some (Fulfilled (renderTraditionalLayout built p2))
        | None => Some (Rejected p1)
        end
    | Some _ =>
        bs ← blocksOf (flowObj p);
        Some (Fulfilled (renderTraditionalLayout bs p))
    end.

(** The handler of [DOMContentLoaded]: [await initLayout()], then the
    listener of [resize] is added. *)
Definition onLoad (orc : Oracle) (width : Z)
    (fetched : Lifecycle.Fetched) (p : Page) : option Ended :=
  r ← initLayout orc width fetched p;
  Some (match r with
        | Fulfilled p' =>
            Fulfilled {| flowObj := flowObj p'; doc := doc p';
                         traditional := traditional p';
                         resizeListening := true |}
        | Rejected p' => Rejected p'
        end).

End IntroPage.

(** ** js/stoic-drama.js *)

Module StoicDrama.

(** The window: its inner width, the number of [wheel] listeners (each
    call of [initHorizontalScroll] above 768 pixels adds a new function,
    and no listener is ever removed), and the horizontal amounts handed to
    [window.scrollBy] so far. *)
Record Window := {
  innerWidth : Z;
  wheelListeners : nat;
  scrolledBy : list Q
}.

Definition initHorizontalScroll (w : Window) : Window :=
  if (768 <? innerWidth w)%Z then
    {| innerWidth := innerWidth w; wheelListeners := S (wheelListeners w);
       scrolledBy := scrolledBy w |}
  else w.

(** The handler of [DOMContentLoaded], as far as the wheel goes. *)
Definition onLoad (width : Z) : Window :=
  initHorizontalScroll
    {| innerWidth := width; wheelListeners := 0; scrolledBy := [] |}.

(** A [resize] of the window to [width]. *)
Definition onResize (w : Window) (width : Z) : Window :=
  initHorizontalScroll
    {| innerWidth := width; wheelListeners := wheelListeners w;
       scrolledBy := scrolledBy w |}.

(** One [wheel] listener. *)
Definition wheelListener (deltaX deltaY : Q) (w : Window) : Window :=
  if Qltb (Qabs deltaY) (Qabs deltaX) then w
  else
    let scrollAmount := jsMul deltaY (15 # 10) in
    {| innerWidth := innerWidth w; wheelListeners := wheelListeners w;
       scrolledBy := scrolledBy w ++ [scrollAmount] |}.

(** A [wheel] event: every listener runs. *)
Definition onWheel (deltaX deltaY : Q) (w : Window) : Window :=
  Nat.iter (wheelListeners w) (wheelListener deltaX deltaY) w.

Inductive Key := ArrowLeft | ArrowRight | OtherKey.

(** The [keydown] listener. *)
Definition onKeydown (key : Key) (w : Window) : Window :=
  if (768 <? innerWidth w)%Z then
    let scrollAmount := inject_Z (innerWidth w) in
    match key with
    | ArrowLeft =>
        {| innerWidth := innerWidth w; wheelListeners := wheelListeners w;
           scrolledBy := scrolledBy w ++ [- scrollAmount] |}
    | ArrowRight =>
        {| innerWidth := innerWidth w; wheelListeners := wheelListeners w;
           scrolledBy := scrolledBy w ++ [scrollAmount] |}
    | OtherKey => w
    end
  else w.

End StoicDrama.

(** ** js/how-we-did-it.js *)

Module ResponsiveContent.

(** An element: its id, its classes, and its subtree, which [cloneNode]
    copies as it is. *)
Record Element := {
  elemId : jsstring;
  classList : list jsstring;
  subtree : jsstring
}.

(** [classList.remove] and [classList.add] *)
Definition removeClass (c : jsstring) (e : Element) : Element :=
  {| elemId := elemId e;
     classList := List.filter (fun c' => negb (strEq c' c)) (classList e);
     subtree := subtree e |}.

Definition addClass (c : jsstring) (e : Element) : Element :=
  {| elemId := elemId e;
     classList := if existsb (fun c' => strEq c' c) (classList e)
                  then classList e else classList e ++ [c];
     subtree := subtree e |}.

Definition setId (i : jsstring) (e : Element) : Element :=
  {| elemId := i; classList := classList e; subtree := subtree e |}.

(** A [ResponsiveContentManager] whose constructor found
    [#region-2-content]: that element, the [style.display] of
    [#overflow-section] and the children of [#overflow-content] ([None]:
    there is no such element), and [isContentMoved]. *)
Record Manager := {
  region2Content : Element;
  overflowSection : option jsstring;
  overflowContent : option (list Element);
  isContentMoved : bool
}.

(** How a method ends: it returns, or a [TypeError] is thrown at a missing
    element, with the manager as it is then. *)
Inductive Ended :=
| Returned (m : Manager)
| Threw (m : Manager).

Definition moveToOverflow (m : Manager) : Ended :=
  if negb (isContentMoved m) then
    let contentClone :=
      setId (utf16 "overflow-region-content")
        (addClass (utf16 "overflow-region")
           (removeClass (utf16 "region-2") (region2Content m))) in
    match overflowContent m with
    | None => Threw m
    | Some children =>
        let m1 := {| region2Content := region2Content m;
                     overflowSection := overflowSection m;
                     overflowContent := Some (children ++ [contentClone]);
                     isContentMoved := isContentMoved m |} in
        match overflowSection m with
        | None => Threw m1
        | Some _ =>
            Returned {| region2Content := region2Content m;
                        overflowSection := Some (utf16 "flex");
                        overflowContent := Some (children ++ [contentClone]);
                        isContentMoved := true |}
        end
    end
  else Returned m.

Definition moveToHero (m : Manager) : Ended :=
  if isContentMoved m then
    match overflowContent m with
    | None => Threw m
    | Some _ =>
        let m1 := {| region2Content := region2Content m;
                     overflowSection := overflowSection m;
                     overflowContent := Some [];
                     isContentMoved := isContentMoved m |} in
        match overflowSection m with
        | None => Threw m1
        | Some _ =>
            Returned {| region2Content := region2Content m;
                        overflowSection := Some (utf16 "none");
                        overflowContent := Some [];
                        isContentMoved := false |}
        end
    end
  else Returned m.

Definition handleResize (windowWidth : Z) (m : Manager) : Ended :=
  if (windowWidth <=? 900)%Z && negb (isContentMoved m) then moveToOverflow m
  else if (900 <? windowWidth)%Z && isContentMoved m then moveToHero m
  else Returned m.

(** The manager after [resize] events at the widths of a list; an event
    whose listener throws leaves the manager as it was at the throw. *)
Definition resizes (widths : list Z) (m : Manager) : Manager :=
  fold_left (fun m windowWidth =>
               match handleResize windowWidth m with
               | Returned m' => m'
               | Threw m' => m'
               end) widths m.

End ResponsiveContent.

(** ** The global navigation (unnamed/part_000) *)

Module GlobalNavigation.

(** [s.replace(/\/$/, '')] *)
Fixpoint stripSlash (s : jsstring) : jsstring :=
  match s with
  | [] => []
  | c :: rest =>
      match rest with
      | [] => if (c =? 47)%N then [] else [c]
      | _ :: _ => c :: stripSlash rest
      end
  end.

(** [s.replace(/\/$/, '') || '/'] *)
Definition normalize (s : jsstring) : jsstring :=
  let r := stripSlash s in if nonEmpty r then r else utf16 "/".

Fixpoint startsWith (pat s : jsstring) : bool :=
  match pat, s with
  | [], _ => true
  | _ :: _, [] => false
  | c :: pat', d :: s' => (c =? d)%N && startsWith pat' s'
  end.

(** [s.includes(pat)] *)
Fixpoint includes (s pat : jsstring) : bool :=
  startsWith pat s
  || match s with
     | [] => false
     | _ :: s' => includes s' pat
     end.

(** The test of [setActivePage] for one link. *)
Definition isActive (currentPath href : jsstring) : bool :=
  let normalizedPath := normalize currentPath in
  let normalizedHref := normalize href in
  strEq normalizedPath normalizedHref
  || (includes normalizedPath (utf16 "/stoic-drama")
      && includes href (utf16 "/stoic-drama"))
  || (includes normalizedPath (utf16 "/algorithm")
      && includes href (utf16 "/algorithm"))
  || (includes normalizedPath (utf16 "/how-we-did-it")
      && includes href (utf16 "/how-we-did-it")).

(** A [.nav-link]: its [href] attribute ([None]: it has none) and whether
    its class list holds [active]. *)
Record Link := {
  href : option jsstring;
  active : bool
}.

(** [setActivePage]; [None] is the [TypeError] of calling [replace] on the
    [null] href of a link. *)
Definition setActivePage (currentPath : jsstring) (links : list Link)
    : option (list Link) :=
  mapM (fun link =>
          h ← href link;
          Some {| href := href link; active := isActive currentPath h |})
       links.

End GlobalNavigation.

(** ** [debounce] and the timers of the window

    [debounce(fn, delay)] of the [TextFlow] class and the [debounced] of
    the page scripts are the same closure up to the [this] passed to [fn].
    Time is counted in milliseconds; a timer runs its callback when its
    delay has passed. *)

Module Debounce.

Section Closure.

Context {Args : Type}.
Variable delay : nat.

(** A timer set by [window.setTimeout] that has not run yet: its handle,
    the milliseconds left and the arguments its callback hands to [fn]. *)
Record Timer := {
  handle : nat;
  msLeft : nat;
  timerArgs : Args
}.

(** The variable [t] of the closure ([None] is [null]), the timers pending,
    the next handle [setTimeout] returns (handles are positive), and the
    arguments of the calls of [fn] made so far. *)
Record State := {
  t : option nat;
  timers : list Timer;
  nextHandle : nat;
  calls : list Args
}.

(** [window.clearTimeout(h)]: nothing happens when no timer has this
    handle, as when the timer has run. *)
Definition clearTimeout (h : nat) (ts : list Timer) : list Timer :=
  List.filter (fun tm => negb (handle tm =? h)%nat) ts.

(** A call [(...args) => { ... }] of the function [debounce] returned. *)
Definition invoke (args : Args) (s : State) : State :=
  let ts :=
    match t s with
    | Some h => if (h =? 0)%nat then timers s else clearTimeout h (timers s)
    | None => timers s
    end in
  {| t := Some (nextHandle s);
     timers := ts ++ [{| handle := nextHandle s; msLeft := delay;
                         timerArgs := args |}];
     nextHandle := S (nextHandle s);
     calls := calls s |}.

(** One millisecond passes: the timers that are due call [fn], in the order
    in which they were set. *)
Definition tick (s : State) : State :=
  let isDue := fun tm => (msLeft tm <=? 1)%nat in
  {| t := t s;
     timers := List.map (fun tm => {| handle := handle tm;
                                      msLeft := msLeft tm - 1;
                                      timerArgs := timerArgs tm |})
                 (List.filter (fun tm => negb (isDue tm)) (timers s));
     nextHandle := nextHandle s;
     calls := calls s ++ List.map timerArgs (List.filter isDue (timers s)) |}.

Inductive Event :=
| Invoke (args : Args)
| Wait (ms : nat).

Definition step (s : State) (e : Event) : State :=
  match e with
  | Invoke args => invoke args s
  | Wait ms => Nat.iter ms tick s
  end.

Definition run (es : list Event) (s : State) : State := fold_left step es s.

End Closure.

End Debounce.

(** * The loop on block values

    The same loop with the queue holding the blocks themselves instead of
    references; [chooseAction] is shared with the loop on the store. It is
    the view through which the properties of a whole pass are proved. *)

Record PState := {
  pqueue : list Block;
  pused : Q;
  pplaced : list Placement
}.

Inductive PStep :=
| PContinue (ps : PState)
| PBreak.

Definition pureWeight (bs : list Block) : nat :=
  list_sum (List.map blockWeight bs).

Section PureEngine.

Context {Region : Type}.
Variable useKeepWithNext : bool.
Variable split : Q -> Block -> Q -> option SplitResult.
Variable orc : Oracle.
Variable regionMetrics : Region -> option Metrics.

Definition pureApply (a : Action) (ps : PState) : option PState :=
  match a with
  | PlacePair elA elB heightTogether =>
      Some {| pqueue := drop 2 (pqueue ps);
              pused := jsAdd (pused ps) heightTogether;
              pplaced := pplaced ps ++ [{| nodes := [elA; elB];
                                          measured := heightTogether |}] |}
  | PlaceSingle el h =>
      Some {| pqueue := drop 1 (pqueue ps);
              pused := jsAdd (pused ps) h;
              pplaced := pplaced ps ++ [{| nodes := [el]; measured := h |}] |}
  | PlaceFragment fragEl fragHeight rest =>
      match pqueue ps with
      | b :: bs =>
          Some {| pqueue := setText b rest :: bs;
                  pused := jsAdd (pused ps) fragHeight;
                  pplaced := pplaced ps ++ [{| nodes := [fragEl];
                                              measured := fragHeight |}] |}
      | [] => None
      end
  | NoSpace | AbandonPair | AbandonHeading | AbandonUnsplit
  | AbandonFragment => None
  end.

Definition pureIteration (width availHeight : Q) (ps : PState)
    : option PStep :=
  match pqueue ps with
  | [] => None
  | block :: rest =>
      a ← chooseAction useKeepWithNext split orc width availHeight
            (pused ps) block (length (pqueue ps)) (head rest);
      Some (match pureApply a ps with
            | Some ps' => PContinue ps'
            | None => PBreak
            end)
  end.

Fixpoint pureLoop (fuel : nat) (width availHeight : Q) (ps : PState)
    : option PState :=
  match pqueue ps with
  | [] => Some ps
  | _ :: _ =>
      match fuel with
      | 0%nat => None
      | S fuel' =>
          r ← pureIteration width availHeight ps;
          match r with
          | PContinue ps' => pureLoop fuel' width availHeight ps'
          | PBreak => Some ps
          end
      end
  end.

Fixpoint pureRegions (regions : list Region) (bs : list Block)
    : option (list Block * list (list Placement)) :=
  match regions with
  | [] => Some (bs, [])
  | region :: rest =>
      match usable regionMetrics region with
      | None =>
          '(bs', out) ← pureRegions rest bs;
          Some (bs', [] :: out)
      | Some m =>
          ps ← pureLoop (pureWeight bs) (innerWidth m) (availableHeight m)
                 {| pqueue := bs; pused := 0; pplaced := [] |};
          '(bs', out) ← pureRegions rest (pqueue ps);
          Some (bs', pplaced ps :: out)
      end
  end.

End PureEngine.

(** The blocks that a list of references denotes in a store. *)
Definition View (st : list Block) (q : list nat) (bs : list Block) : Prop :=
  Forall2 (fun l b => st !! l = Some b) q bs.

(** A state of the loop on the store and the state on values it stands
    for. *)
Definition Abs (s : LoopState) (ps : PState) : Prop :=
  View (store s) (queue s) (pqueue ps)
  /\ NoDup (queue s)
  /\ used s = pused ps
  /\ placed s = pplaced ps.

(** What a run of the loop leaves alone: the store keeps its size, changes
    only at references that were in the queue, and the queue only loses
    references. *)
Definition Frame (st : list Block) (q : list nat)
    (st' : list Block) (q' : list nat) : Prop :=
  length st' = length st
  /\ (forall l, l ∉ q -> st' !! l = st !! l)
  /\ (forall l, l ∈ q' -> l ∈ q).

(** What the splitter must grant for the loop to end. *)
Definition SplitShrinks (split : Q -> Block -> Q -> option SplitResult)
    : Prop :=
  forall width block availHeight,
  exists r, split width block availHeight = Some r
            /\ (fitsWords r <> 0
                -> length (words (restText r)) < length (words (text block))).

(** * Scenarios

    A narrow column that holds one word per line: a paragraph is 20 pixels
    tall per word, a heading 40 pixels, nodes stack without margins. *)

Definition linesHeight (n : nat) : Q := inject_Z (20 * Z.of_nat n).

Definition narrowElHeight (e : El) : Q :=
  match e with
  | EHeading _ _ => inject_Z 40
  | EParagraph t => linesHeight (length (words t))
  end.

Definition narrowStyle : ComputedStyle :=
  {| lineHeightPx := Some (inject_Z 20); fontSize := Some (inject_Z 16) |}.

Definition narrowOracle : Oracle :=
  {| measureHeight := fun _ els =>
       fold_right (fun e acc => (narrowElHeight e + acc)%Q) 0%Q els;
     rectHeight := fun _ t => linesHeight (length (words t));
     paragraphStyle := narrowStyle |}.

(** The same column when the temporary container of [measureHeight] adds a
    16 pixel margin under each paragraph that the sandbox of
    [splitParagraph] does not show. *)
Definition marginOracle : Oracle :=
  {| measureHeight := fun _ els =>
       fold_right (fun e acc =>
                     (narrowElHeight e
                      + (if isHeadingEl e then 0 else inject_Z 16) + acc)%Q)
                  0%Q els;
     rectHeight := fun _ t => linesHeight (length (words t));
     paragraphStyle := narrowStyle |}.

Definition mkParagraph (i : nat) (t : string) (kwn : bool) (op : Q) : Block :=
  {| id_ := IdSynth i; type := paragraph; level := None; text := utf16 t;
     keepWithNext := kwn; orphanProtection := op; elText := utf16 t |}.

Definition mkHeading (i : nat) (t : string) (kwn : bool) : Block :=
  {| id_ := IdSynth i; type := heading; level := Some 2%Z; text := utf16 t;
     keepWithNext := kwn; orphanProtection := 2; elText := utf16 t |}.

Definition noPadding : TextFlow.Padding :=
  {| TextFlow.paddingTop := Some 0%Q; TextFlow.paddingBottom := Some 0%Q;
     TextFlow.paddingLeft := Some 0%Q; TextFlow.paddingRight := Some 0%Q |}.

(** A region of js/intro.js, 100 pixels wide, with a wrapper without
    padding. *)
Definition regionOfHeight (h : Z) : TextFlow.Region :=
  {| TextFlow.wrap := Some noPadding;
     TextFlow.clientWidth := inject_Z 100;
     TextFlow.clientHeight := inject_Z h |}.

(** A region of js/text-flow-intro.js, 100 pixels wide, without padding
    and borders. *)
Definition introRegionOfHeight (h : Z) : TextFlowIntro.Region :=
  {| TextFlowIntro.rectWidth := inject_Z 100;
     TextFlowIntro.rectHeightPx := inject_Z h;
     TextFlowIntro.paddingTop := Some 0%Q;
     TextFlowIntro.paddingBottom := Some 0%Q;
     TextFlowIntro.paddingLeft := Some 0%Q;
     TextFlowIntro.paddingRight := Some 0%Q;
     TextFlowIntro.borderLeftWidth := Some 0%Q;
     TextFlowIntro.borderRightWidth := Some 0%Q |}.

(** A fresh instance: the store holds the blocks, [this.blocks] refers to
    them in order, the regions are empty. *)
Definition instanceOf {Region} (bs : list Block) (rs : list Region)
    : Instance Region :=
  {| heap := bs; blocks := seq 0 (length bs); regions := rs;
     content := List.map (fun _ => []) rs |}.

(** A heading bound to the paragraph after it. *)
Definition keptPair : list Block :=
  [mkHeading 0 "Intro" true; mkParagraph 1 "a b c d" false 2].

(** A heading and a paragraph of five words. *)
Definition headingAndParagraph : list Block :=
  [mkHeading 0 "Intro" false; mkParagraph 1 "a b c d e" false 2].

(** The loop at the start of a region 50 pixels tall, with [keptPair] in
    the queue. *)
Definition keptHead : Block := mkHeading 0 "Intro" true.
Definition keptNext : Block := mkParagraph 1 "a b c d" false 2.
Definition keptPairStart : LoopState :=
  {| store := keptPair; queue := [0; 1]; used := 0; placed := [] |}.

(** Where the loop of js/text-flow-intro.js leaves that region: the heading
    stands alone in it. *)
Definition keptPairSplitUp : LoopState :=
  {| store := keptPair; queue := [1]; used := inject_Z 40;
     placed := [{| nodes := [EHeading 2 (utf16 "Intro")];
                   measured := inject_Z 40 |}] |}.

(** The heading and the paragraph before two regions, 100 and 50 pixels
    tall. *)
Definition twoRegions : Instance TextFlow.Region :=
  instanceOf headingAndParagraph [regionOfHeight 100; regionOfHeight 50].

(** A heading of 40 pixels at the head of the queue with 30 pixels left. *)
Definition tallHeading : Block := mkHeading 0 "Intro" false.
Definition tallHeadingStart : LoopState :=
  {| store := [tallHeading; keptNext]; queue := [0; 1]; used := inject_Z 20;
     placed := [{| nodes := [EParagraph (utf16 "x")];
                   measured := inject_Z 20 |}] |}.

(** A paragraph of five words alone in the queue, under [marginOracle]. *)
Definition fiveWords : Block := mkParagraph 0 "a b c d e" false 2.
Definition fiveWordsStart : LoopState :=
  {| store := [fiveWords]; queue := [0]; used := 0; placed := [] |}.
Definition fiveWordsSplit : SplitResult :=
  {| fitsWords := 3; firstText := utf16 "a b c"; restText := utf16 "d e" |}.

(** Content as the loader hands it to [buildBlocks]. *)
Definition rawHeading (t : string) : RawBlock :=
  {| rid := JUndefined; rtype := Some heading; rlevel := None;
     rtext := Some (utf16 t); rkeepWithNext := JUndefined;
     rorphanProtection := JUndefined |}.

Definition rawParagraph (t : string) (op : JsVal) : RawBlock :=
  {| rid := JUndefined; rtype := Some paragraph; rlevel := None;
     rtext := Some (utf16 t); rkeepWithNext := JUndefined;
     rorphanProtection := op |}.

Definition rawContent : list RawBlock :=
  [rawHeading "Intro"; rawParagraph "a  b c d e" JUndefined].

Definition builtInstance : Instance TextFlow.Region :=
  instanceOf (buildBlocks rawContent) [regionOfHeight 100; regionOfHeight 50].

(** A paragraph of three words with the default orphan protection, and
    the fragment js/text-flow-intro.js cuts from it for 25 pixels. *)
Definition threeWords : Block := mkParagraph 0 "a b c" false 2.
Definition oneLineFragment : SplitResult :=
  {| fitsWords := 1; firstText := utf16 "a"; restText := utf16 "b c" |}.

(** What [TextFlow.splitParagraph] answers when it refuses to split. *)
Definition refusal (b : Block) : SplitResult :=
  {| fitsWords := 0; firstText := []; restText := text b |}.

(** A paragraph whose content record asks for no orphan protection. *)
Definition rawNoFloor : RawBlock := rawParagraph "a b c" (JNum 0).
Definition builtNoFloor : Block := mkParagraph 0 "a b c" false 0.

(** The five words with 60 pixels left in a region of 100 pixels. *)
Definition fiveWordsLater : LoopState :=
  {| store := [fiveWords]; queue := [0]; used := inject_Z 40;
     placed := [{| nodes := [EHeading 2 (utf16 "Intro")];
                   measured := inject_Z 40 |}] |}.

(** [keptPair] with other flags: nothing kept together, a floor of seven
    lines. *)
Definition keptPairOtherFlags : list Block :=
  [mkHeading 0 "Intro" false; mkParagraph 1 "a b c d" true (inject_Z 7)].

Definition introPairInstance : Instance TextFlowIntro.Region :=
  instanceOf keptPair [introRegionOfHeight 70].

Definition introOtherFlagsInstance : Instance TextFlowIntro.Region :=
  instanceOf keptPairOtherFlags [introRegionOfHeight 70].

Definition introBuiltInstance : Instance TextFlowIntro.Region :=
  instanceOf (buildBlocks rawContent)
    [introRegionOfHeight 100; introRegionOfHeight 50].

(** The heading and the paragraph of five words before a region that
    holds them both and a second region. *)
Definition roomyRegions : Instance TextFlow.Region :=
  instanceOf headingAndParagraph [regionOfHeight 200; regionOfHeight 50].

(** A [TextFlow] object just constructed, a document with a region of
    order 2 before one without order, and the page that holds them. *)
Definition freshObj : Lifecycle.Obj :=
  {| Lifecycle.contentUrl := Some (utf16 "content/intro.json");
     Lifecycle.contentJson := None;
     Lifecycle.inst := {| heap := []; blocks := []; regions := [];
                          content := [] |};
     Lifecycle.sandbox := Lifecycle.NoSandbox;
     Lifecycle.resizeHandler := None |}.

Definition regionNode (shown : string) (order : option Q) (h : Z)
    : Lifecycle.RegionNode :=
  {| Lifecycle.display := utf16 shown;
     Lifecycle.visibility := utf16 "visible";
     Lifecycle.opacity := utf16 "1";
     Lifecycle.flowOrder := order;
     Lifecycle.wrapperStyle := noPadding;
     Lifecycle.nodeClientWidth := inject_Z 100;
     Lifecycle.nodeClientHeight := inject_Z h |}.

Definition threeNodeDoc : Lifecycle.Doc :=
  {| Lifecycle.regionNodes :=
       [regionNode "block" (Some 2%Q) 50; regionNode "none" (Some 1%Q) 70;
        regionNode "block" None 100];
     Lifecycle.failureNotes := 0;
     Lifecycle.title := utf16 "EXPERI-MENTAL";
     Lifecycle.resizeListeners := [];
     Lifecycle.nextListener := 0 |}.

Definition freshPage : IntroPage.Page :=
  {| IntroPage.flowObj := freshObj; IntroPage.doc := threeNodeDoc;
     IntroPage.traditional := Some (utf16 "<p>old</p>");
     IntroPage.resizeListening := false |}.

Definition goodBody : Lifecycle.Fetched :=
  Lifecycle.Body (Lifecycle.JsonObject (Some rawContent) None).

(** The page of js/how-we-did-it.js as it is served: the second region,
    an overflow section that is not shown and holds nothing. *)
Definition region2 : ResponsiveContent.Element :=
  {| ResponsiveContent.elemId := utf16 "region-2-content";
     ResponsiveContent.classList := [utf16 "region"; utf16 "region-2"];
     ResponsiveContent.subtree := utf16 "<p>text</p>" |}.

Definition servedManager : ResponsiveContent.Manager :=
  {| ResponsiveContent.region2Content := region2;
     ResponsiveContent.overflowSection := Some (utf16 "none");
     ResponsiveContent.overflowContent := Some [];
     ResponsiveContent.isContentMoved := false |}.

(** The links of a navigation overlay. *)
Definition navLinks : list GlobalNavigation.Link :=
  [{| GlobalNavigation.href := Some (utf16 "/");
      GlobalNavigation.active := true |};
   {| GlobalNavigation.href := Some (utf16 "/algorithm/");
      GlobalNavigation.active := false |};
   {| GlobalNavigation.href := Some (utf16 "/stoic-drama");
      GlobalNavigation.active := false |}].

(** A heading kept with a second heading that asks to be kept with the
    paragraph behind it, and the same blocks with the second heading
    asking for nothing. *)
Definition keptChain : list Block :=
  [mkHeading 0 "Part" true; mkHeading 1 "Chapter" true;
   mkParagraph 2 "a b c" false 2].

Definition keptChainUnflagged : list Block :=
  [mkHeading 0 "Part" true; mkHeading 1 "Chapter" false;
   mkParagraph 2 "a b c" false 2].

(** A column of 19.2 pixel lines (font size 16 pixels, line height 1.2)
    that holds one word per line, a heading taking one line: the heights
    are the doubles nearest to the multiples of 19.2. *)
Definition lineCount (e : El) : nat :=
  match e with
  | EHeading _ _ => 1
  | EParagraph t => length (words t)
  end.

Definition linesTall (n : nat) : Q :=
  roundDouble ((192 # 10) * inject_Z (Z.of_nat n)).

Definition lineOracle : Oracle :=
  {| measureHeight := fun _ els => linesTall (list_sum (List.map lineCount els));
     rectHeight := fun _ t => linesTall (length (words t));
     paragraphStyle := {| lineHeightPx := None;
                          fontSize := Some (inject_Z 16) |} |}.



(** The double just under three lines of 19.2 pixels,
    57.599999999999994, a region of js/text-flow-intro.js that tall, and
    the paragraph of three words offered whole. *)
Definition underThreeLines : Q := (linesTall 3 - (1 # 140737488355328))%Q.

Definition underThreeLinesRegion : TextFlowIntro.Region :=
  {| TextFlowIntro.rectWidth := inject_Z 100;
     TextFlowIntro.rectHeightPx := underThreeLines;
     TextFlowIntro.paddingTop := Some 0%Q;
     TextFlowIntro.paddingBottom := Some 0%Q;
     TextFlowIntro.paddingLeft := Some 0%Q;
     TextFlowIntro.paddingRight := Some 0%Q;
     TextFlowIntro.borderLeftWidth := Some 0%Q;
     TextFlowIntro.borderRightWidth := Some 0%Q |}.

Definition wholeFragment : SplitResult :=
  {| fitsWords := 3; firstText := utf16 "a b c"; restText := [] |}.

(** The narrow column when a paragraph that follows a heading is pulled up
    30 pixels over it (a negative margin): a heading and the paragraph
    behind it measure less together than the heading alone. *)
Definition overlapOracle : Oracle :=
  {| measureHeight := fun width els =>
       match els with
       | [EHeading _ _; EParagraph _] =>
           (measureHeight narrowOracle width els - inject_Z 30)%Q
       | _ => measureHeight narrowOracle width els
       end;
     rectHeight := rectHeight narrowOracle;
     paragraphStyle := narrowStyle |}.

(** A kept heading of 40 pixels before a paragraph of one word, at the
    start of a region of 35 pixels, and the region with both in it. *)
Definition shortNext : Block := mkParagraph 1 "x" false 2.
Definition overlapStart : LoopState :=
  {| store := [keptHead; shortNext]; queue := [0; 1]; used := 0;
     placed := [] |}.
Definition overlapEnd : LoopState :=
  {| store := [keptHead; shortNext]; queue := []; used := inject_Z 30;
     placed := [{| nodes := [EHeading 2 (utf16 "Intro");
                             EParagraph (utf16 "x")];
                   measured := inject_Z 30 |}] |}.

(** A kept heading of 40 pixels at the head of the queue with 30 pixels
    left. *)
Definition keptTallStart : LoopState :=
  {| store := [keptHead; keptNext]; queue := [0; 1]; used := inject_Z 20;
     placed := [{| nodes := [EParagraph (utf16 "x")];
                   measured := inject_Z 20 |}] |}.

(** The page of js/how-we-did-it.js without [#overflow-section]. *)
Definition sectionlessManager : ResponsiveContent.Manager :=
  {| ResponsiveContent.region2Content := region2;
     ResponsiveContent.overflowSection := None;
     ResponsiveContent.overflowContent := Some [];
     ResponsiveContent.isContentMoved := false |}.

(** * Vocabulary of the properties *)

Definition nonWhite (w : jsstring) : Prop :=
  Forall (fun c => isWhiteSpace c = false) w.

(** A word as [words] produces them: not empty, no white space inside. *)
Definition wordOk (w : jsstring) : Prop := w <> [] /\ nonWhite w.

(** The height [splitParagraph] measures for the first [k] words. *)
Definition prefixHeight (orc : Oracle) (width : Q) (ws : list jsstring)
    (k : nat) : Q :=
  rectHeight orc width (join (slice0 k ws)).

Definition fitsPrefix (orc : Oracle) (width availHeight : Q)
    (ws : list jsstring) (k : nat) : Prop :=
  (prefixHeight orc width ws k <= availHeight)%Q.

(** Measured heights that never shrink when a word is added. *)
Definition monotoneHeights (orc : Oracle) (width : Q) (ws : list jsstring)
    : Prop :=
  forall j k, 1 <= j -> j <= k -> k <= length ws ->
              (prefixHeight orc width ws j <= prefixHeight orc width ws k)%Q.

Definition lineHeightOf (orc : Oracle) : Q :=
  getLineHeightPx (paragraphStyle orc).

(** The height below which [TextFlow.splitParagraph] refuses a fragment. *)
Definition minHeight (orc : Oracle) (block : Block) : Q :=
  jsMul (lineHeightOf orc) (TextFlow.minLines block).

(** The three ways [TextFlow.splitParagraph] answers. *)
Inductive SplitCase (orc : Oracle) (width : Q) (block : Block)
    (availHeight : Q) (r : SplitResult) : Prop :=
| SplitNoWords :
    words (text block) = [] ->
    r = {| fitsWords := 0; firstText := []; restText := [] |} ->
    SplitCase orc width block availHeight r
| SplitRejected :
    words (text block) <> [] ->
    r = {| fitsWords := 0; firstText := []; restText := text block |} ->
    ((availHeight < minHeight orc block)%Q
     \/ ~ fitsPrefix orc width availHeight (words (text block)) 1
     \/ exists best,
          1 <= best /\ best <= length (words (text block))
          /\ fitsPrefix orc width availHeight (words (text block)) best
          /\ (best = length (words (text block))
              \/ ~ fitsPrefix orc width availHeight (words (text block))
                    (best + 1))
          /\ (prefixHeight orc width (words (text block)) best
              < minHeight orc block)%Q) ->
    SplitCase orc width block availHeight r
| SplitAccepted (best : nat) :
    1 <= best -> best <= length (words (text block)) ->
    r = {| fitsWords := best;
           firstText := join (slice0 best (words (text block)));
           restText := join (sliceFrom best (words (text block))) |} ->
    (minHeight orc block <= availHeight)%Q ->
    fitsPrefix orc width availHeight (words (text block)) best ->
    (minHeight orc block
     <= prefixHeight orc width (words (text block)) best)%Q ->
    (best = length (words (text block))
     \/ ~ fitsPrefix orc width availHeight (words (text block)) (best + 1)) ->
    SplitCase orc width block availHeight r.

(** What must hold of the loop variables for the body to take a branch:
    the reading of §4.4 of the specification, branch by branch. *)
Definition ActionOk (useKeepWithNext : bool)
    (split : Q -> Block -> Q -> option SplitResult) (orc : Oracle)
    (width availHeight usedHeight : Q) (block : Block) (qlen : nat)
    (next : option Block) (a : Action) : Prop :=
  let remaining := jsSub availHeight usedHeight in
  let pairCase := useKeepWithNext && keepWithNext block && (2 <=? qlen)%nat in
  match a with
  | NoSpace => (remaining <= 0)%Q
  | PlacePair elA elB heightTogether =>
      (0 < remaining)%Q /\ pairCase = true
      /\ exists nb, next = Some nb
         /\ elA = elFactory block (Some (text block))
         /\ elB = blockEl nb
         /\ heightTogether = measureHeight orc width [elA; elB]
         /\ (heightTogether <= remaining)%Q
  | AbandonPair =>
      (0 < remaining)%Q /\ pairCase = true
      /\ exists nb, next = Some nb
         /\ (remaining
             < measureHeight orc width
                 [elFactory block (Some (text block)); blockEl nb])%Q
  | PlaceSingle el h =>
      (0 < remaining)%Q /\ pairCase = false
      /\ el = blockEl block
      /\ h = measureHeight orc width [el]
      /\ (h <= remaining)%Q
  | AbandonHeading =>
      (0 < remaining)%Q /\ pairCase = false
      /\ (remaining < measureHeight orc width [blockEl block])%Q
      /\ type block = heading
  | AbandonUnsplit =>
      (0 < remaining)%Q /\ pairCase = false
      /\ (remaining < measureHeight orc width [blockEl block])%Q
      /\ type block = paragraph
      /\ exists sp, split width block remaining = Some sp
                    /\ fitsWords sp = 0
  | PlaceFragment fragEl fragHeight rest =>
      (0 < remaining)%Q /\ pairCase = false
      /\ (remaining < measureHeight orc width [blockEl block])%Q
      /\ type block = paragraph
      /\ exists sp, split width block remaining = Some sp
                    /\ fitsWords sp <> 0
                    /\ fragEl = elFactory block (Some (firstText sp))
                    /\ fragHeight = measureHeight orc width [fragEl]
                    /\ (fragHeight <= remaining)%Q
                    /\ rest = restText sp
  | AbandonFragment =>
      (0 < remaining)%Q /\ pairCase = false
      /\ (remaining < measureHeight orc width [blockEl block])%Q
      /\ type block = paragraph
      /\ exists sp, split width block remaining = Some sp
                    /\ fitsWords sp <> 0
                    /\ (remaining
                        < measureHeight orc width
                            [elFactory block (Some (firstText sp))])%Q
  end.



(** When a placement of the log was made there was space left, and the
    placement was at most as tall as that space, the space being what the
    loop computes: the available height minus the used height, rounded.
    [usedHeight] is taken before the first placement. *)
Fixpoint PlacedWithin (availHeight usedHeight : Q) (log : list Placement)
    : Prop :=
  match log with
  | [] => True
  | p :: log' =>
      (0 < jsSub availHeight usedHeight)%Q
      /\ (measured p <= jsSub availHeight usedHeight)%Q
      /\ PlacedWithin availHeight (jsAdd usedHeight (measured p)) log'
  end.

(** A number that is a double. *)
Definition Representable (x : Q) : Prop := (roundDouble x == x)%Q.

(** The texts of the nodes placed and the texts of a list of blocks, and
    texts written one after another with [sep] between them. *)
Definition textsOfLog (log : list Placement) : list jsstring :=
  List.map elTxt (flat_map nodes log).

Definition textsOfBlocks (bs : list Block) : list jsstring :=
  List.map text bs.

Fixpoint joinWith (sep : jsstring) (ts : list jsstring) : jsstring :=
  match ts with
  | [] => []
  | [t] => t
  | t :: ts' => t ++ sep ++ joinWith sep ts'
  end.

(** The words shown by a list of placements, and the words of a list of
    blocks. *)
Definition wordsOfNodes (els : list El) : list jsstring :=
  flat_map (fun e => words (elTxt e)) els.

Definition wordsOfLog (log : list Placement) : list jsstring :=
  flat_map (fun p => wordsOfNodes (nodes p)) log.

Definition wordsOfBlocks (bs : list Block) : list jsstring :=
  flat_map (fun b => words (text b)) bs.

(** What [buildBlocks] grants and the loop keeps: the text captured by the
    factory of a heading is the text of the heading. *)
Definition BuiltOk (b : Block) : Prop :=
  type b = heading -> elText b = text b.

(** The heading elements among the nodes placed, and the heading elements
    of a list of blocks. *)
Definition headingEls (log : list Placement) : list El :=
  List.filter isHeadingEl (flat_map nodes log).

Definition isHeading (b : Block) : bool :=
  match type b with heading => true | paragraph => false end.

Definition headingsOf (bs : list Block) : list El :=
  List.map blockEl (List.filter isHeading bs).

(** A splitter whose two texts carry the words of the paragraph. *)
Definition SplitWords (split : Q -> Block -> Q -> option SplitResult) : Prop :=
  forall width block availHeight r,
    split width block availHeight = Some r ->
    words (firstText r) ++ words (restText r) = words (text block).

(** A pass that does something: the values of the blocks, and what the
    loop on values places for them. *)
Definition passRuns {Region} (useKeepWithNext : bool)
    (split : Q -> Block -> Q -> option SplitResult) (orc : Oracle)
    (regionMetrics : Region -> option Metrics)
    (tf : Instance Region) (bs : list Block)
    (out : list (list Placement)) : Prop :=
  blocks tf <> [] /\ regions tf <> []
  /\ View (heap tf) (blocks tf) bs
  /\ exists bs', pureRegions useKeepWithNext split orc regionMetrics
                   (regions tf) bs = Some (bs', out).


(** The two ways out for a loop that is at state [s] with the pair [b],
    [nb] at the head of its queue, [qr] behind it, and that returns [s']:
    the pair fitted the space left, went into the region together and the
    loop went on from there; or the loop returned at once, its state
    untouched, for want of space. *)
Definition PairPlacedOrAbandoned (useKeepWithNext : bool)
    (split : Q -> Block -> Q -> option SplitResult) (orc : Oracle)
    (fuel : nat) (width availHeight : Q) (s : LoopState)
    (qr : list nat) (b nb : Block) (s' : LoopState) : Prop :=
  let elA := elFactory b (Some (text b)) in
  let elB := blockEl nb in
  let heightTogether := measureHeight orc width [elA; elB] in
  let remaining := jsSub availHeight (used s) in
  ((0 < remaining)%Q /\ (heightTogether <= remaining)%Q
   /\ regionLoop useKeepWithNext split orc fuel width availHeight
        {| store := store s;
           queue := qr;
           used := jsAdd (used s) heightTogether;
           placed := placed s ++ [{| nodes := [elA; elB];
                                     measured := heightTogether |}] |}
      = Some s')
  \/ (((remaining <= 0)%Q \/ (remaining < heightTogether)%Q) /\ s' = s).

(** The state of the loop at the start of a region. *)
Definition startOfRegion (st : list Block) (q : list nat) : LoopState :=
  {| store := st; queue := q; used := 0; placed := [] |}.

(** The references of [this.blocks] point into the store. *)
Definition ValidRefs {Region} (tf : Instance Region) : Prop :=
  Forall (fun l => l < length (heap tf)) (blocks tf).

(** [useKeepWithNext && block.keepWithNext && queue.length >= 2] *)
Definition pairCase (useKeepWithNext : bool) (b : Block) (q : list nat)
    : bool :=
  useKeepWithNext && keepWithNext b && (2 <=? length q)%nat.

Definition setOrphanProtection (b : Block) (q : Q) : Block :=
  {| id_ := id_ b; type := type b; level := level b; text := text b;
     keepWithNext := keepWithNext b; orphanProtection := q;
     elText := elText b |}.

(** The state after the loop body placed the fragment [sp] of the block at
    [q0]. *)
Definition afterFragment (orc : Oracle) (width : Q) (s : LoopState)
    (q0 : nat) (b : Block) (sp : SplitResult) : LoopState :=
  let fragEl := elFactory b (Some (firstText sp)) in
  let fragHeight := measureHeight orc width [fragEl] in
  {| store := alter (fun blk => setText blk (restText sp)) q0 (store s);
     queue := queue s;
     used := jsAdd (used s) fragHeight;
     placed := placed s ++ [{| nodes := [fragEl];
                               measured := fragHeight |}] |}.

(** Two blocks that the layout cannot tell apart: they differ at most in
    their id, [keepWithNext] and [orphanProtection]. *)
Definition SameLayout (b b' : Block) : Prop :=
  type b = type b' /\ level b = level b' /\ text b = text b'
  /\ elText b = elText b'.

(** States of the loop on values that differ at most in those fields. *)
Definition SameLayoutState (ps ps' : PState) : Prop :=
  Forall2 SameLayout (pqueue ps) (pqueue ps')
  /\ pused ps = pused ps' /\ pplaced ps = pplaced ps'.

(** A splitter that reads nothing of a block but its layout. *)
Definition SplitReadsLayout (split : Q -> Block -> Q -> option SplitResult)
    : Prop :=
  forall width b b' availHeight,
    SameLayout b b' -> split width b availHeight = split width b' availHeight.

(** A node as the factories build them: a paragraph, or a heading of level
    2, 3 or 4. *)
Definition NodeOk (e : El) : Prop :=
  match e with
  | EHeading l _ => (2 <= l <= 4)%Z
  | EParagraph _ => True
  end.

(** One placement of a pass in a region [width] pixels wide: one node, or
    two where the loop has the keep-with-next branch, and for its height
    what [measureHeight] gives for these nodes at that width. *)
Definition PlacementOk (useKeepWithNext : bool) (orc : Oracle) (width : Q)
    (p : Placement) : Prop :=
  Forall NodeOk (nodes p)
  /\ (length (nodes p) = 1
      \/ (useKeepWithNext = true /\ length (nodes p) = 2))
  /\ measured p = measureHeight orc width (nodes p).

(** What a region received is made of such placements, at the inner width
    of the region. *)
Definition RegionPlacements {Region} (useKeepWithNext : bool) (orc : Oracle)
    (regionMetrics : Region -> option Metrics)
    (region : Region) (log : list Placement) : Prop :=
  match usable regionMetrics region with
  | None => log = []
  | Some m => Forall (PlacementOk useKeepWithNext orc (innerWidth m)) log
  end.

(** A block placed whole and alone. *)
Definition wholePlacement (orc : Oracle) (width : Q) (b : Block)
    : Placement :=
  {| nodes := [blockEl b]; measured := measureHeight orc width [blockEl b] |}.

(** The loop never takes its keep-with-next branch on these blocks. *)
Definition NoPairs (useKeepWithNext : bool) (bs : list Block) : Prop :=
  useKeepWithNext = false \/ Forall (fun b => keepWithNext b = false) bs.

(** The block [blk] of the list built comes from the record at position [i]
    of the document, and its id, where the record gives none, is made from
    that position. *)
Definition BuiltFrom (raw : list RawBlock) (i : nat) (blk : Block) : Prop :=
  exists r, raw !! i = Some r
            /\ buildBlock i r = Some blk
            /\ (truthy (rid r) = false -> id_ blk = IdSynth i).

(** No timer of the closure is pending, and the handle it may still hold
    is one that [setTimeout] gave out. *)
Definition Quiet {Args} (s : @Debounce.State Args) : Prop :=
  Debounce.timers s = []
  /\ 0 < Debounce.nextHandle s
  /\ forall h, Debounce.t s = Some h -> h < Debounce.nextHandle s.

(** The closure holds the one pending timer, set for [args] with [ms]
    milliseconds left. *)
Definition Armed {Args} (args : Args) (ms : nat) (s : @Debounce.State Args)
    : Prop :=
  exists h,
    Debounce.t s = Some h /\ 0 < h /\ h < Debounce.nextHandle s
    /\ Debounce.timers s
       = [{| Debounce.handle := h; Debounce.msLeft := ms;
             Debounce.timerArgs := args |}].

(** Calls of the debounced function, each followed by a pause. *)
Definition burstEvents {Args} (burst : list (Args * nat))
    : list (@Debounce.Event Args) :=
  flat_map (fun '(args, ms) => [Debounce.Invoke args; Debounce.Wait ms]) burst.

(** The object has a content URL and the request for it ends in the
    [catch] of [loadContent]. *)
Definition LoadFails (o : Lifecycle.Obj) (fetched : Lifecycle.Fetched)
    : Prop :=
  Lifecycle.hasUrl o = true
  /\ match fetched with
     | Lifecycle.Body json => Lifecycle.validateContent json = false
     | _ => True
     end.

(** [init] called once for each response of a list. *)
Fixpoint inits (orc : Oracle) (fs : list Lifecycle.Fetched)
    (o : Lifecycle.Obj) (d : Lifecycle.Doc)
    : option (Lifecycle.Obj * Lifecycle.Doc) :=
  match fs with
  | [] => Some (o, d)
  | fetched :: fs' =>
      '(o', d') ← Lifecycle.init orc fetched o d;
      inits orc fs' o' d'
  end.

(** The nodes whose flow order is [q]. *)
Definition withOrder (q : Q) (els : list Lifecycle.RegionNode)
    : list Lifecycle.RegionNode :=
  List.filter (fun el => Qeq_bool (Lifecycle.orderOf el) q) els.

Definition orderLe (a b : Lifecycle.RegionNode) : Prop :=
  (Lifecycle.orderOf a <= Lifecycle.orderOf b)%Q.

(** The copy of [#region-2-content] that [moveToOverflow] appends. *)
Definition overflowClone (e : ResponsiveContent.Element)
    : ResponsiveContent.Element :=
  ResponsiveContent.setId (utf16 "overflow-region-content")
    (ResponsiveContent.addClass (utf16 "overflow-region")
       (ResponsiveContent.removeClass (utf16 "region-2") e)).

(** No element of the list carries the id of the copy. *)
Definition NoClone (kids : list ResponsiveContent.Element) : Prop :=
  Forall (fun e => ResponsiveContent.elemId e
                   <> utf16 "overflow-region-content") kids.

(** What holds of a manager between two events. *)
Definition ManagerOk (region2 : ResponsiveContent.Element)
    (m : ResponsiveContent.Manager) : Prop :=
  ResponsiveContent.region2Content m = region2
  /\ exists display kids,
       ResponsiveContent.overflowSection m = Some display
       /\ ResponsiveContent.overflowContent m = Some kids
       /\ if ResponsiveContent.isContentMoved m
          then display = utf16 "flex"
               /\ exists before, kids = before ++ [overflowClone region2]
                                 /\ NoClone before
          else NoClone kids.

(** The widths of at most 900 pixels among those of a list. *)
Definition narrowWidths (widths : list Z) : list Z :=
  List.filter (fun width => (width <=? 900)%Z) widths.

(** The widths above 768 pixels among those of a list. *)
Definition desktopWidths (widths : list Z) : list Z :=
  List.filter (fun width => (768 <? width)%Z) widths.

(** Two states of the loop on values that agree, except that where a block
    [b] heads both queues the blocks behind it may be [nb] in one and [nb']
    in the other. *)
Definition SameButSecond (b nb nb' : Block) (ps ps' : PState) : Prop :=
  pused ps = pused ps' /\ pplaced ps = pplaced ps'
  /\ ((exists rest, pqueue ps = b :: nb :: rest
                    /\ pqueue ps' = b :: nb' :: rest)
      \/ pqueue ps = pqueue ps').

(** The measured line count of [splitParagraph] in js/text-flow-intro.js. *)
Definition linesOf (orc : Oracle) (width : Q) (t : jsstring) : JsInt :=
  ceilDiv (rectHeight orc width t) (lineHeightOf orc).

(** * Properties *)

(** ** Comparisons on [Q] *)

Lemma Qleb_le x y : Qleb x y = true <-> (x <= y)%Q.
Proof. apply Qle_bool_iff. Qed.

Lemma Qleb_gt x y : Qleb x y = false <-> (y < x)%Q.
Proof.
  unfold Qleb. split; intros H.
  - apply Qnot_le_lt. intros Hle. apply Qle_bool_iff in Hle. congruence.
  - destruct (Qle_bool x y) eqn:E; [|reflexivity].
    apply Qle_bool_iff in E. exfalso. apply (Qlt_not_le _ _ H E).
Qed.

Lemma Qltb_lt x y : Qltb x y = true <-> (x < y)%Q.
Proof.
  unfold Qltb. rewrite negb_true_iff. apply Qleb_gt.
Qed.

Lemma Qltb_ge x y : Qltb x y = false <-> (y <= x)%Q.
Proof.
  unfold Qltb. rewrite negb_false_iff. apply Qleb_le.
Qed.

(** ** Rounding to the nearest double *)

Section Rounding.

Local Open Scope Q_scope.

Lemma pow2_pos e : 0 < 2 ^ e.
Proof. apply Qpower_0_lt. reflexivity. Qed.

Lemma pow2_succ e : 2 ^ (e + 1) == 2 ^ e * 2.
Proof. rewrite Qpower_plus by discriminate. rewrite Qpower_1_r. reflexivity. Qed.

Lemma pow2_Z n : (0 <= n)%Z -> inject_Z (2 ^ n) == 2 ^ n.
Proof. intros Hn. apply (Zpower_Qpower 2 n Hn). Qed.

Lemma ilog2_spec x : 0 < x -> 2 ^ ilog2 x <= x /\ x < 2 ^ (ilog2 x + 1).
Proof.
  intros Hx. destruct x as [n d]. unfold ilog2. cbn [Qnum Qden].
  assert (Hn : (0 < n)%Z).
  { unfold Qlt in Hx. cbn in Hx. lia. }
  set (a := Z.log2 n). set (b := Z.log2 (Z.pos d)).
  destruct (Z.log2_spec n Hn) as [Ha1 Ha2]. fold a in Ha1, Ha2.
  destruct (Z.log2_spec (Z.pos d) ltac:(lia)) as [Hb1 Hb2]. fold b in Hb1, Hb2.
  assert (Ha0 : (0 <= a)%Z) by apply Z.log2_nonneg.
  assert (Hb0 : (0 <= b)%Z) by apply Z.log2_nonneg.
  rewrite Zle_Qle, pow2_Z in Ha1, Hb1 by assumption.
  rewrite Zlt_Qlt, pow2_Z in Ha2, Hb2 by lia.
  replace (Z.succ a) with (a + 1)%Z in Ha2 by lia.
  replace (Z.succ b) with (b + 1)%Z in Hb2 by lia.
  rewrite pow2_succ in Ha2, Hb2.
  pose proof (pow2_pos a) as Pa. pose proof (pow2_pos b) as Pb.
  assert (Hx' : n # d == inject_Z n / inject_Z (Z.pos d)) by apply Qmake_Qdiv.
  set (N := inject_Z n) in *. set (D := inject_Z (Z.pos d)) in *.
  assert (HD : 0 < D) by lra.
  assert (Hab : 2 ^ (a - b) == 2 ^ a / 2 ^ b).
  { apply Qpower_minus. discriminate. }
  assert (Hup : n # d < 2 ^ (a - b + 1)).
  { rewrite pow2_succ, Hab, Hx'.
    apply Qlt_shift_div_r; [exact HD|].
    assert (E : 2 ^ a / 2 ^ b * 2 * D == (2 ^ a * 2) * (D / 2 ^ b)).
    { field. lra. }
    rewrite E.
    assert (1 <= D / 2 ^ b).
    { apply Qle_shift_div_l; [exact Pb | lra]. }
    nra. }
  assert (Hlow : 2 ^ (a - b - 1) <= n # d).
  { assert (E : 2 ^ (a - b - 1) == 2 ^ a / (2 ^ b * 2)).
    { rewrite Qpower_minus by discriminate. rewrite Hab, Qpower_1_r.
      field. lra. }
    rewrite E, Hx'.
    apply Qle_shift_div_l; [exact HD|].
    assert (E2 : 2 ^ a / (2 ^ b * 2) * D == 2 ^ a * (D / (2 ^ b * 2)))
      by (field; lra).
    rewrite E2.
    assert (D / (2 ^ b * 2) <= 1).
    { apply Qle_shift_div_r; lra. }
    nra. }
  destruct (Qle_bool (2 ^ (a - b)) (n # d)) eqn:E.
  - apply Qle_bool_iff in E. split; assumption.
  - assert (~ 2 ^ (a - b) <= n # d).
    { intros H. apply Qle_bool_iff in H. congruence. }
    replace (a - b - 1 + 1)%Z with (a - b)%Z by lia.
    split; [exact Hlow | lra].
Qed.

Lemma ilog2_mono x y : 0 < x -> x <= y -> (ilog2 x <= ilog2 y)%Z.
Proof.
  intros Hx Hxy.
  destruct (ilog2_spec x Hx) as [H1 _].
  destruct (ilog2_spec y ltac:(lra)) as [_ H2].
  assert (H : 2 ^ ilog2 x < 2 ^ (ilog2 y + 1)) by lra.
  apply Qpower_lt_compat_l_inv in H; [lia | reflexivity].
Qed.

Lemma roundHalfEven_bounds t :
  (Qfloor t <= roundHalfEven t <= Qfloor t + 1)%Z.
Proof.
  unfold roundHalfEven. destruct (Qcompare _ _); [destruct (Z.even _)| |]; lia.
Qed.

Lemma roundHalfEven_mono t u : t <= u -> (roundHalfEven t <= roundHalfEven u)%Z.
Proof.
  intros Htu.
  pose proof (Qfloor_resp_le _ _ Htu) as Hf.
  destruct (Z.eq_dec (Qfloor t) (Qfloor u)) as [E | NE].
  - unfold roundHalfEven. rewrite E.
    destruct (Qcompare_spec (t - inject_Z (Qfloor u)) (1 # 2)) as [Ct|Ct|Ct],
             (Qcompare_spec (u - inject_Z (Qfloor u)) (1 # 2)) as [Cu|Cu|Cu];
      try (destruct (Z.even (Qfloor u))); try lia; lra.
  - pose proof (roundHalfEven_bounds t). pose proof (roundHalfEven_bounds u).
    lia.
Qed.

Lemma roundHalfEven_Z t n : t == inject_Z n -> roundHalfEven t = n.
Proof.
  intros Ht. unfold roundHalfEven.
  assert (Hf : Qfloor t = n).
  { rewrite (Qfloor_comp _ _ Ht). apply Qfloor_Z. }
  rewrite Hf.
  destruct (Qcompare_spec (t - inject_Z n) (1 # 2)); [lra | reflexivity | lra].
Qed.

Lemma roundHalfEven_nonneg t : 0 <= t -> (0 <= roundHalfEven t)%Z.
Proof.
  intros Ht. pose proof (roundHalfEven_bounds t).
  assert (0 <= Qfloor t)%Z.
  { rewrite <- (Qfloor_Z 0). apply Qfloor_resp_le. exact Ht. }
  lia.
Qed.

Lemma ulp_pos x : 0 < ulp x.
Proof. apply pow2_pos. Qed.

Lemma roundPositive_nonneg x : 0 < x -> 0 <= roundPositive x.
Proof.
  intros Hx. unfold roundPositive. pose proof (ulp_pos x).
  assert (0 <= x / ulp x).
  { apply Qle_shift_div_l; [assumption | lra]. }
  pose proof (roundHalfEven_nonneg _ H0) as Hr. rewrite Zle_Qle in Hr.
  change (inject_Z 0) with 0 in Hr.
  apply Qmult_le_0_compat; lra.
Qed.

(** A power of two that is a multiple of the quantum is kept. *)
Lemma round_grid q e k t :
  (k <= e)%Z -> q == 2 ^ k -> t == 2 ^ e ->
  inject_Z (roundHalfEven (t / q)) * q == t.
Proof.
  intros Hke Hq Ht.
  assert (Hr : roundHalfEven (t / q) = (2 ^ (e - k))%Z).
  { apply roundHalfEven_Z. rewrite pow2_Z by lia.
    rewrite Ht, Hq. symmetry. apply Qpower_minus. discriminate. }
  rewrite Hr, pow2_Z by lia. rewrite Ht, Hq.
  rewrite Qpower_minus by discriminate. field.
  pose proof (pow2_pos k). lra.
Qed.

Lemma roundPositive_mono x y :
  0 < x -> x <= y -> roundPositive x <= roundPositive y.
Proof.
  intros Hx Hxy. assert (Hy : 0 < y) by lra.
  pose proof (ilog2_mono x y Hx Hxy) as He.
  unfold roundPositive, ulp.
  set (kx := Z.max (ilog2 x - 52) (-1074)).
  set (ky := Z.max (ilog2 y - 52) (-1074)).
  pose proof (pow2_pos kx) as Px. pose proof (pow2_pos ky) as Py.
  destruct (Z.eq_dec kx ky) as [E | NE].
  - rewrite E.
    assert (H : x / 2 ^ ky <= y / 2 ^ ky).
    { apply Qle_shift_div_l; [exact Py|].
      assert (Ex : x / 2 ^ ky * 2 ^ ky == x) by (field; lra). lra. }
    apply roundHalfEven_mono in H. rewrite Zle_Qle in H. nra.
  - assert (Hlt : (ilog2 x < ilog2 y)%Z) by lia.
    assert (Hky : ky = (ilog2 y - 52)%Z) by lia.
    destruct (ilog2_spec x Hx) as [_ Hx2].
    destruct (ilog2_spec y Hy) as [Hy1 _].
    set (B := 2 ^ ilog2 y) in *.
    assert (HxB : x <= B).
    { assert (2 ^ (ilog2 x + 1) <= B).
      { apply Qpower_le_compat_l; [lia | discriminate]. }
      lra. }
    assert (Hgx : inject_Z (roundHalfEven (B / 2 ^ kx)) * 2 ^ kx == B).
    { apply (round_grid _ (ilog2 y) kx); [lia | reflexivity | reflexivity]. }
    assert (Hgy : inject_Z (roundHalfEven (B / 2 ^ ky)) * 2 ^ ky == B).
    { apply (round_grid _ (ilog2 y) ky); [lia | reflexivity | reflexivity]. }
    assert (H1 : x / 2 ^ kx <= B / 2 ^ kx).
    { apply Qle_shift_div_l; [exact Px|].
      assert (Ex : x / 2 ^ kx * 2 ^ kx == x) by (field; lra). lra. }
    assert (H2 : B / 2 ^ ky <= y / 2 ^ ky).
    { apply Qle_shift_div_l; [exact Py|].
      assert (Ex : B / 2 ^ ky * 2 ^ ky == B) by (field; lra). lra. }
    apply roundHalfEven_mono in H1, H2. rewrite Zle_Qle in H1, H2.
    nra.
Qed.

Lemma roundDouble_mono x y : x <= y -> roundDouble x <= roundDouble y.
Proof.
  intros Hxy. unfold roundDouble.
  destruct (Qcompare_spec x 0) as [Cx|Cx|Cx],
           (Qcompare_spec y 0) as [Cy|Cy|Cy];
    rewrite ?Qred_correct; try lra.
  - pose proof (roundPositive_nonneg y Cy). lra.
  - pose proof (roundPositive_nonneg (- x) ltac:(lra)). lra.
  - pose proof (roundPositive_mono (- y) (- x) ltac:(lra) ltac:(lra)). lra.
  - pose proof (roundPositive_nonneg (- x) ltac:(lra)).
    pose proof (roundPositive_nonneg y Cy). lra.
  - pose proof (roundPositive_mono x y Cx Hxy). lra.
Qed.

Lemma roundDouble_comp x y : x == y -> roundDouble x == roundDouble y.
Proof.
  intros H. apply Qle_antisym; apply roundDouble_mono; lra.
Qed.

Lemma ilog2_unique x e : 0 < x -> 2 ^ e <= x -> x < 2 ^ (e + 1) -> ilog2 x = e.
Proof.
  intros Hx H1 H2. destruct (ilog2_spec x Hx) as [S1 S2].
  assert (A : 2 ^ e < 2 ^ (ilog2 x + 1)) by lra.
  assert (B : 2 ^ ilog2 x < 2 ^ (e + 1)) by lra.
  apply Qpower_lt_compat_l_inv in A; [|reflexivity].
  apply Qpower_lt_compat_l_inv in B; [|reflexivity].
  lia.
Qed.

Lemma ilog2_comp x y : 0 < x -> x == y -> ilog2 y = ilog2 x.
Proof.
  intros Hx Hxy. destruct (ilog2_spec x Hx) as [S1 S2].
  apply ilog2_unique; lra.
Qed.

(** A multiple of a quantum at least as coarse as its own is kept. *)
Lemma roundPositive_grid r n k :
  0 < r -> r == inject_Z n * 2 ^ k ->
  (Z.max (ilog2 r - 52) (-1074) <= k)%Z ->
  roundPositive r == r.
Proof.
  intros Hr Hn Hk. unfold roundPositive, ulp.
  set (k' := Z.max (ilog2 r - 52) (-1074)) in *.
  pose proof (pow2_pos k') as P'. pose proof (pow2_pos k) as P.
  assert (E : 2 ^ k == 2 ^ (k - k') * 2 ^ k').
  { rewrite <- Qpower_plus by discriminate.
    replace (k - k' + k')%Z with k by lia. reflexivity. }
  assert (Hz : roundHalfEven (r / 2 ^ k') = (n * 2 ^ (k - k'))%Z).
  { apply roundHalfEven_Z. rewrite inject_Z_mult, pow2_Z by lia.
    rewrite Hn, E. field. lra. }
  rewrite Hz, inject_Z_mult, pow2_Z by lia. rewrite Hn, E. ring.
Qed.

Lemma roundPositive_fixed x y :
  0 < x -> y == roundPositive x -> 0 < y -> roundPositive y == y.
Proof.
  intros Hx Hy Hpos. unfold roundPositive, ulp in Hy.
  set (e := ilog2 x) in *. set (k := Z.max (e - 52) (-1074)) in *.
  set (n := roundHalfEven (x / 2 ^ k)) in *.
  pose proof (pow2_pos k) as P.
  destruct (ilog2_spec x Hx) as [S1 S2]. fold e in S1, S2.
  assert (Hxk : x / 2 ^ k * 2 ^ k == x) by (field; lra).
  destruct (Z_lt_le_dec (e + 1) k) as [Hsub | Hge].
  - exfalso.
    assert (Hu : 2 ^ (e + 1) * 2 <= 2 ^ k).
    { rewrite <- pow2_succ. apply Qpower_le_compat_l; [lia | discriminate]. }
    assert (Hhalf : x / 2 ^ k < 1 # 2).
    { apply Qlt_shift_div_r; [exact P | lra]. }
    assert (Hn0 : n = 0%Z).
    { subst n. unfold roundHalfEven.
      assert (Hf : Qfloor (x / 2 ^ k) = 0%Z).
      { assert (0 <= x / 2 ^ k) by (apply Qle_shift_div_l; lra).
        pose proof (Qfloor_le (x / 2 ^ k)).
        pose proof (Qlt_floor (x / 2 ^ k)).
        assert (A : (-1 < Qfloor (x / 2 ^ k))%Z).
        { rewrite Zlt_Qlt. rewrite inject_Z_plus in H1.
          change (inject_Z 1) with 1 in H1. change (inject_Z (-1)) with (-1).
          lra. }
        assert (B : (Qfloor (x / 2 ^ k) < 1)%Z).
        { rewrite Zlt_Qlt. change (inject_Z 1) with 1. lra. }
        lia. }
      rewrite Hf. change (inject_Z 0) with 0.
      destruct (Qcompare_spec (x / 2 ^ k - 0) (1 # 2)); [lra | reflexivity | lra]. }
    rewrite Hn0 in Hy. change (inject_Z 0) with 0 in Hy. lra.
  - assert (Htop : inject_Z (roundHalfEven (2 ^ (e + 1) / 2 ^ k)) * 2 ^ k
                   == 2 ^ (e + 1)).
    { apply (round_grid _ (e + 1) k); [lia | reflexivity | reflexivity]. }
    assert (Hle : y <= 2 ^ (e + 1)).
    { assert (H1 : x / 2 ^ k <= 2 ^ (e + 1) / 2 ^ k).
      { apply Qle_shift_div_l; [exact P|].
        assert (Ex : 2 ^ (e + 1) / 2 ^ k * 2 ^ k == 2 ^ (e + 1))
          by (field; lra).
        lra. }
      apply roundHalfEven_mono in H1. fold n in H1. rewrite Zle_Qle in H1.
      nra. }
    destruct (Qlt_le_dec y (2 ^ (e + 1))) as [Hlt | Heq].
    + apply (roundPositive_grid y n k Hpos Hy).
      destruct (ilog2_spec y Hpos) as [T1 _].
      assert (A : 2 ^ ilog2 y < 2 ^ (e + 1)) by lra.
      apply Qpower_lt_compat_l_inv in A; [|reflexivity].
      lia.
    + assert (Ey : y == 2 ^ (e + 1)) by lra.
      assert (Hlog : ilog2 y = (e + 1)%Z).
      { apply ilog2_unique; [exact Hpos | lra |].
        rewrite Ey. apply Qpower_lt_compat_l; [lia | reflexivity]. }
      unfold roundPositive, ulp. rewrite Hlog.
      apply (round_grid _ (e + 1) (Z.max (e + 1 - 52) (-1074)));
        [lia | reflexivity | exact Ey].
Qed.

Lemma roundDouble_cases x :
  roundDouble x == 0
  \/ (exists x0, 0 < x0 /\ roundDouble x == roundPositive x0
                 /\ 0 < roundDouble x)
  \/ (exists x0, 0 < x0 /\ - roundDouble x == roundPositive x0
                 /\ roundDouble x < 0).
Proof.
  unfold roundDouble.
  destruct (Qcompare_spec x 0) as [Cx|Cx|Cx]; cbv iota;
    [left; reflexivity| |].
  - pose proof (roundPositive_nonneg (- x) ltac:(lra)) as Hr.
    destruct (Qeq_dec (roundPositive (- x)) 0) as [E | NE].
    + left. rewrite Qred_correct, E. reflexivity.
    + right. right. exists (- x). rewrite !Qred_correct.
      repeat split; lra.
  - pose proof (roundPositive_nonneg x Cx) as Hr.
    destruct (Qeq_dec (roundPositive x) 0) as [E | NE].
    + left. rewrite Qred_correct. exact E.
    + right. left. exists x. rewrite !Qred_correct.
      repeat split; lra.
Qed.

(** Rounding a double changes nothing. *)
Lemma roundDouble_idem x : roundDouble (roundDouble x) == roundDouble x.
Proof.
  destruct (roundDouble_cases x)
    as [E | [(x0 & H0 & E & Hs) | (x0 & H0 & E & Hs)]];
    set (y := roundDouble x) in *; clearbody y; unfold roundDouble;
    destruct (Qcompare_spec y 0) as [Cy|Cy|Cy]; cbv iota; try lra;
    rewrite Qred_correct.
  - apply (roundPositive_fixed x0 y); assumption.
  - rewrite (roundPositive_fixed x0 (- y) H0 E); lra.
Qed.

End Rounding.

(** The rounding on numbers whose doubles are known: 0.1, 1/3, 2^53 + 1
    (a tie, to even), the smallest subnormal and half of it (a tie, to
    zero). *)
Lemma roundDouble_examples :
  roundDouble (1 # 10) = (3602879701896397 # 36028797018963968)%Q
  /\ roundDouble (1 # 3) = (6004799503160661 # 18014398509481984)%Q
  /\ roundDouble (inject_Z (2 ^ 53 + 1)) = inject_Z (2 ^ 53)
  /\ roundDouble (inject_Z (2 ^ 53 + 3)) = inject_Z (2 ^ 53 + 4)
  /\ (roundDouble (2 ^ (-1074)) == 2 ^ (-1074))%Q
  /\ roundDouble (2 ^ (-1075))%Q = 0%Q
  /\ jsAdd (roundDouble (1 # 10)) (roundDouble (2 # 10))
     = (1351079888211149 # 4503599627370496)%Q
  /\ (roundDouble (3 # 10)
      < jsAdd (roundDouble (1 # 10)) (roundDouble (2 # 10)))%Q.
Proof. repeat split; vm_compute; reflexivity. Qed.

(** What an operation returns is a double. *)
Lemma roundDouble_Representable x : Representable (roundDouble x).
Proof. apply roundDouble_idem. Qed.

Lemma TextFlow_available_Representable region m :
  TextFlow.regionMetrics region = Some m -> Representable (availableHeight m).
Proof.
  unfold TextFlow.regionMetrics. destruct (TextFlow.wrap region); [|discriminate].
  intros [= <-]. apply roundDouble_Representable.
Qed.

Lemma TextFlowIntro_available_Representable region m :
  TextFlowIntro.regionMetrics region = Some m ->
  Representable (availableHeight m).
Proof. intros [= <-]. apply roundDouble_Representable. Qed.

Lemma jsSub_zero x : Representable x -> (jsSub x 0 == x)%Q.
Proof.
  intros Hx. unfold jsSub, Representable in *.
  rewrite <- Hx at 2. apply roundDouble_comp. lra.
Qed.

Lemma jsMul_le_compat_l a b c :
  (0 <= a)%Q -> (b <= c)%Q -> (jsMul a b <= jsMul a c)%Q.
Proof. intros Ha Hbc. apply roundDouble_mono. nra. Qed.

(** ** Words: splitting and joining *)

Lemma splitRe_nonWhite w : nonWhite w ->
  forall b cur s,
    splitRe b cur (w ++ s) = splitRe (b && negb (nonEmpty w)) (cur ++ w) s.
Proof.
  induction 1 as [|c w Hc Hw IH]; intros b cur s; simpl.
  - rewrite app_nil_r, andb_true_r. reflexivity.
  - rewrite Hc, IH, andb_false_r. simpl. rewrite <- app_assoc. reflexivity.
Qed.

Lemma splitRe_pieces b cur s :
  nonWhite cur -> Forall nonWhite (splitRe b cur s).
Proof.
  revert b cur. induction s as [|c s IH]; intros b cur Hcur; simpl.
  - constructor; [assumption | constructor].
  - destruct (isWhiteSpace c) eqn:Hc.
    + destruct b.
      * apply IH. assumption.
      * constructor; [assumption|]. apply IH. constructor.
    + apply IH. apply Forall_app. split; [assumption|].
      constructor; [assumption | constructor].
Qed.

Lemma filter_splitRe_sep s :
  List.filter nonEmpty (splitRe true [] s)
  = List.filter nonEmpty (splitRe false [] s).
Proof.
  destruct s as [|c s]; simpl; [reflexivity|].
  destruct (isWhiteSpace c); reflexivity.
Qed.

Lemma words_ok t : Forall wordOk (words t).
Proof.
  unfold words, split_ws.
  assert (H : Forall nonWhite (splitRe false [] t))
    by (apply splitRe_pieces; constructor).
  induction H as [|w l Hw Hl IH]; simpl; [constructor|].
  destruct w as [|c w]; simpl; [assumption|].
  constructor; [|assumption]. split; [discriminate | assumption].
Qed.

Lemma words_nil : words [] = [].
Proof. reflexivity. Qed.

Lemma join_cons w w2 ws : join (w :: w2 :: ws) = w ++ 32%N :: join (w2 :: ws).
Proof. reflexivity. Qed.

Lemma splitRe_space cur s :
  splitRe false cur (32%N :: s) = cur :: splitRe true [] s.
Proof. reflexivity. Qed.

Lemma nonEmpty_true w : w <> [] -> nonEmpty w = true.
Proof. destruct w; [congruence | reflexivity]. Qed.

(** Splitting what [join] produced gives the words back. *)
Lemma words_join ws : Forall wordOk ws -> words (join ws) = ws.
Proof.
  unfold words, split_ws.
  induction 1 as [|w ws [Hne Hw] Hws IH]; [reflexivity|].
  pose proof (nonEmpty_true w Hne) as Hb.
  destruct ws as [|w2 ws].
  - cbn [join]. rewrite <- (app_nil_r w) at 1.
    rewrite splitRe_nonWhite by assumption.
    cbn. rewrite Hb. reflexivity.
  - rewrite join_cons, splitRe_nonWhite by assumption.
    rewrite Hb. cbn [andb negb app].
    rewrite splitRe_space. cbn [List.filter]. rewrite Hb.
    rewrite filter_splitRe_sep, IH. reflexivity.
Qed.

Lemma Forall_firstn {A} (P : A -> Prop) n l : Forall P l -> Forall P (firstn n l).
Proof.
  intros H. revert n. induction H; intros [|n]; simpl; constructor; auto.
Qed.

Lemma Forall_skipn {A} (P : A -> Prop) n l : Forall P l -> Forall P (skipn n l).
Proof.
  intros H. revert n. induction H; intros [|n]; simpl; auto.
Qed.

Lemma words_join_slice0 n t : words (join (slice0 n (words t))) = slice0 n (words t).
Proof. apply words_join, Forall_firstn, words_ok. Qed.

Lemma words_join_sliceFrom n t :
  words (join (sliceFrom n (words t))) = sliceFrom n (words t).
Proof. apply words_join, Forall_skipn, words_ok. Qed.

(** The two halves of a split carry the words of the text, in order. *)
Lemma words_split_join n t :
  words (join (slice0 n (words t))) ++ words (join (sliceFrom n (words t)))
  = words t.
Proof.
  rewrite words_join_slice0, words_join_sliceFrom.
  apply firstn_skipn.
Qed.

(** ** The binary search of [TextFlow.splitParagraph] *)

Section SearchFacts.

Variable orc : Oracle.
Variables (width availHeight : Q) (ws : list jsstring).

Local Abbreviation fits := (fitsPrefix orc width availHeight ws).

Lemma mid_bounds lo hi : lo <= hi -> lo <= (lo + hi) / 2 <= hi.
Proof.
  intros H.
  pose proof (Nat.div_mod_eq (lo + hi) 2) as Hd.
  pose proof (Nat.mod_upper_bound (lo + hi) 2) as Hm.
  lia.
Qed.

(** With one unit of fuel per candidate in [lo..hi] the loop ends; its
    result fits unless it is 0, and the next longer prefix does not. *)
Lemma searchLoop_spec n fuel : forall lo hi best,
  1 <= lo -> lo <= hi + 1 -> hi <= n -> best + 1 = lo ->
  hi + 1 - lo <= fuel ->
  (best = 0 \/ fits best) ->
  (hi = n \/ ~ fits (hi + 1)) ->
  exists r,
    TextFlow.searchLoop orc fuel width availHeight ws lo hi best = Some r
    /\ r <= n
    /\ (r = 0 \/ fits r)
    /\ (r = n \/ ~ fits (r + 1)).
Proof.
  induction fuel as [|fuel IH]; intros lo hi best Hlo Hlh Hhi Hb Hf Hfit Hnot;
    cbn [TextFlow.searchLoop]; destruct (hi <? lo) eqn:E.
  - apply Nat.ltb_lt in E. exists best.
    assert (best = hi) by lia. subst best. auto.
  - apply Nat.ltb_ge in E. lia.
  - apply Nat.ltb_lt in E. exists best.
    assert (best = hi) by lia. subst best. auto.
  - apply Nat.ltb_ge in E.
    pose proof (mid_bounds lo hi E) as Hmid.
    set (mid := (lo + hi) / 2) in *.
    destruct (Qleb _ availHeight) eqn:Hq.
    + apply Qleb_le in Hq.
      apply IH; try lia; [right; assumption | assumption].
    + apply Qleb_gt in Hq.
      apply IH; try lia; [assumption|]. right.
      replace (mid - 1 + 1) with mid by lia.
      unfold fitsPrefix, prefixHeight. intros Hle.
      apply (Qlt_not_le _ _ Hq Hle).
Qed.

Lemma not_fits_above k :
  monotoneHeights orc width ws -> 1 <= k -> ~ fits k ->
  forall j, k <= j -> j <= length ws -> ~ fits j.
Proof.
  intros Hmono Hk Hnot j Hkj Hj Hfit. apply Hnot.
  unfold fitsPrefix in *.
  eapply Qle_trans; [apply (Hmono k j); lia | exact Hfit].
Qed.

End SearchFacts.

(** ** [TextFlow.splitParagraph] (js/intro.js) *)

Section SplitFacts.

Variable orc : Oracle.

Lemma orDefault_ge x : (x <= orDefault x 2)%Q.
Proof.
  unfold orDefault. destruct (Qeq_bool x 0) eqn:E.
  - apply Qeq_bool_iff in E. rewrite E. discriminate.
  - apply Qle_refl.
Qed.

Lemma minLines_ge_orphanProtection block :
  (orphanProtection block <= TextFlow.minLines block)%Q.
Proof.
  unfold TextFlow.minLines.
  eapply Qle_trans; [apply orDefault_ge | apply Q.le_max_r].
Qed.

Lemma minLines_ge_1 block : (1 <= TextFlow.minLines block)%Q.
Proof. apply Q.le_max_l. Qed.

Lemma splitParagraph_cases width block availHeight :
  exists r, TextFlow.splitParagraph orc width block availHeight = Some r
            /\ SplitCase orc width block availHeight r.
Proof.
  unfold TextFlow.splitParagraph.
  set (ws := words (text block)).
  destruct (length ws =? 0) eqn:En.
  - apply Nat.eqb_eq in En. eexists; split; [reflexivity|].
    apply SplitNoWords; [|reflexivity].
    apply length_zero_iff_nil. exact En.
  - apply Nat.eqb_neq in En.
    assert (Hne : ws <> []) by (intros Hnil; apply En; rewrite Hnil; reflexivity).
    fold (lineHeightOf orc). fold (minHeight orc block).
    destruct (Qltb availHeight (minHeight orc block)) eqn:Hmin.
    + eexists; split; [reflexivity|]. apply SplitRejected; auto.
      left. apply Qltb_lt, Hmin.
    + apply Qltb_ge in Hmin.
      destruct (searchLoop_spec orc width availHeight ws (length ws)
                  (length ws) 1 (length ws) 0) as (best & -> & Hle & Hfit & Hnext);
        try lia; auto.
      cbn [mbind option_bind].
      destruct (best =? 0) eqn:Eb.
      * eexists; split; [reflexivity|]. apply SplitRejected; auto.
        apply Nat.eqb_eq in Eb. subst best. right. left.
        destruct Hnext as [Hn | Hn]; [lia | exact Hn].
      * apply Nat.eqb_neq in Eb.
        destruct (Qltb _ (minHeight orc block)) eqn:Hfrag.
        -- eexists; split; [reflexivity|]. apply SplitRejected; auto.
           right. right. exists best. apply Qltb_lt in Hfrag.
           repeat split; auto; try lia.
           destruct Hfit; [lia | assumption].
        -- apply Qltb_ge in Hfrag.
           eexists; split; [reflexivity|].
           apply (SplitAccepted _ _ _ _ _ best); auto; try lia.
           destruct Hfit; [lia | assumption].
Qed.

Lemma splitParagraph_total width block availHeight :
  exists r, TextFlow.splitParagraph orc width block availHeight = Some r.
Proof.
  destruct (splitParagraph_cases width block availHeight) as (r & H & _).
  eauto.
Qed.

Lemma splitParagraph_inv width block availHeight r :
  TextFlow.splitParagraph orc width block availHeight = Some r ->
  SplitCase orc width block availHeight r.
Proof.
  intros H.
  destruct (splitParagraph_cases width block availHeight) as (r' & H' & Hc).
  congruence.
Qed.

End SplitFacts.

(** ** The loop on the store and the loop on values *)

Lemma Frame_refl st q : Frame st q st q.
Proof. repeat split; auto. Qed.

Lemma Frame_trans st q st1 q1 st2 q2 :
  Frame st q st1 q1 -> Frame st1 q1 st2 q2 -> Frame st q st2 q2.
Proof.
  intros (Hl1 & Hs1 & Hq1) (Hl2 & Hs2 & Hq2). repeat split.
  - congruence.
  - intros l Hl. rewrite Hs2; [apply Hs1; assumption|].
    intros Hin. apply Hl, Hq1, Hin.
  - intros l Hl. apply Hq1, Hq2, Hl.
Qed.

Lemma View_weight st q bs : View st q bs -> queueWeight st q = pureWeight bs.
Proof.
  unfold queueWeight, pureWeight.
  induction 1 as [|l b q bs Hl _ IH]; [reflexivity|].
  cbn [List.map]. change (list_sum (?x :: ?r)) with (x + list_sum r).
  rewrite Hl, IH. reflexivity.
Qed.

Lemma View_length st q bs : View st q bs -> length q = length bs.
Proof. apply Forall2_length. Qed.

Lemma View_head st q bs :
  View st q bs -> head q ≫= (fun l => st !! l) = head bs.
Proof. destruct 1; [reflexivity | assumption]. Qed.

Lemma View_drop n st q bs : View st q bs -> View st (drop n q) (drop n bs).
Proof. apply Forall2_drop. Qed.

Lemma NoDup_drop {A} n (l : list A) : NoDup l -> NoDup (drop n l).
Proof.
  intros H. rewrite <- (take_drop n l) in H.
  apply list.NoDup_app in H. tauto.
Qed.

Lemma elem_of_drop {A} n (l : list A) x : x ∈ drop n l -> x ∈ l.
Proof.
  intros H. rewrite <- (take_drop n l). apply elem_of_app. right. exact H.
Qed.

Lemma View_alter_notin st q bs f l0 :
  l0 ∉ q -> View st q bs -> View (alter f l0 st) q bs.
Proof.
  intros Hnotin Hv. induction Hv as [|l b q bs Hl Hv IH]; constructor.
  - rewrite list_lookup_alter_ne; [assumption|].
    intros ->. apply Hnotin. left.
  - apply IH. intros Hin. apply Hnotin. right. exact Hin.
Qed.

Section Simulation.

Context {Region : Type}.
Variable useKeepWithNext : bool.
Variable split : Q -> Block -> Q -> option SplitResult.
Variable orc : Oracle.
Variable regionMetrics : Region -> option Metrics.

Local Abbreviation iter := (iteration useKeepWithNext split orc).
Local Abbreviation piter := (pureIteration useKeepWithNext split orc).
Local Abbreviation loop := (regionLoop useKeepWithNext split orc).
Local Abbreviation ploop := (pureLoop useKeepWithNext split orc).

Lemma applyAction_sim a s ps :
  Abs s ps ->
  match pureApply a ps with
  | None => applyAction a s = None
  | Some ps' =>
      exists s', applyAction a s = Some s' /\ Abs s' ps'
                 /\ Frame (store s) (queue s) (store s') (queue s')
  end.
Proof.
  intros (Hv & Hnd & Hu & Hp).
  destruct a; cbn [pureApply applyAction]; try reflexivity.
  - eexists; split; [reflexivity|]. split.
    + repeat split; cbn; [apply View_drop, Hv | apply NoDup_drop, Hnd
                          | congruence | congruence].
    + repeat split; cbn; auto. intros l. apply elem_of_drop.
  - eexists; split; [reflexivity|]. split.
    + repeat split; cbn; [apply View_drop, Hv | apply NoDup_drop, Hnd
                          | congruence | congruence].
    + repeat split; cbn; auto. intros l. apply elem_of_drop.
  - destruct Hv as [|q0 b q bs Hq0 Hv]; [reflexivity|].
    eexists; split; [reflexivity|].
    pose proof Hnd as Hnd0.
    apply list.NoDup_cons in Hnd as [Hnotin Hnd'].
    split.
    + repeat split; cbn; [| assumption | congruence | congruence].
      constructor.
      * rewrite list_lookup_alter_eq, Hq0. reflexivity.
      * apply View_alter_notin; assumption.
    + repeat split; cbn; auto.
      * apply length_alter.
      * intros l Hl. apply list_lookup_alter_ne.
        intros ->. apply Hl. left.
Qed.

Lemma iteration_sim width availHeight s ps :
  Abs s ps ->
  match piter width availHeight ps with
  | None => iter width availHeight s = None
  | Some PBreak => iter width availHeight s = Some Break
  | Some (PContinue ps') =>
      exists s', iter width availHeight s = Some (Continue s')
                 /\ Abs s' ps'
                 /\ Frame (store s) (queue s) (store s') (queue s')
  end.
Proof.
  intros Ha. pose proof Ha as (Hv & Hnd & Hu & Hp).
  unfold pureIteration, iteration.
  destruct (queue s) as [|q0 q] eqn:Eq, (pqueue ps) as [|b bs] eqn:Eb;
    try (inversion Hv; fail); [reflexivity|].
  apply list.Forall2_cons in Hv as [Hq0 Hv].
  rewrite Hq0. cbn [mbind option_bind].
  rewrite (View_head _ _ _ Hv), Hu.
  cbn [length]. rewrite (View_length _ _ _ Hv).
  destruct (chooseAction _ _ _ _ _ _ _ _ _) as [a|]; [|reflexivity].
  cbn [mbind option_bind].
  pose proof (applyAction_sim a s ps Ha) as Hs. rewrite Eq in Hs.
  destruct (pureApply a ps) as [ps'|].
  - destruct Hs as (s' & -> & Hs'). cbv beta iota. eauto.
  - rewrite Hs. reflexivity.
Qed.

Lemma regionLoop_sim width availHeight fuel : forall s ps,
  Abs s ps ->
  match ploop fuel width availHeight ps with
  | None => loop fuel width availHeight s = None
  | Some ps' =>
      exists s', loop fuel width availHeight s = Some s'
                 /\ Abs s' ps'
                 /\ Frame (store s) (queue s) (store s') (queue s')
  end.
Proof.
  induction fuel as [|fuel IH]; intros s ps Ha;
    pose proof Ha as (Hv & Hnd & Hu & Hp);
    cbn [pureLoop regionLoop];
    destruct (queue s) as [|q0 q] eqn:Eq, (pqueue ps) as [|b bs] eqn:Eb;
    try (inversion Hv; fail); cbv beta iota;
    try (exists s; split; [reflexivity|]; split;
         [assumption | rewrite <- Eq; apply Frame_refl]; fail).
  - reflexivity.
  - pose proof (iteration_sim width availHeight s ps Ha) as Hs.
    destruct (piter width availHeight ps) as [[ps1|]|].
    + destruct Hs as (s1 & -> & Ha1 & Hf1). cbn [mbind option_bind].
      specialize (IH s1 ps1 Ha1).
      destruct (ploop fuel width availHeight ps1) as [ps'|].
      * destruct IH as (s' & -> & Ha' & Hf').
        exists s'. split; [reflexivity|]. split; [assumption|].
        rewrite <- Eq. eapply Frame_trans; eassumption.
      * exact IH.
    + rewrite Hs. cbn [mbind option_bind].
      exists s. split; [reflexivity|].
      split; [assumption | rewrite <- Eq; apply Frame_refl].
    + rewrite Hs. reflexivity.
Qed.

End Simulation.

(** ** The branches of the loop body *)

Section Branches.

Variable useKeepWithNext : bool.
Variable split : Q -> Block -> Q -> option SplitResult.
Variable orc : Oracle.

Lemma chooseAction_inv width availHeight usedHeight block qlen next a :
  chooseAction useKeepWithNext split orc width availHeight usedHeight
    block qlen next = Some a ->
  ActionOk useKeepWithNext split orc width availHeight usedHeight
    block qlen next a.
Proof.
  unfold chooseAction, ActionOk.
  destruct (Qleb (jsSub availHeight usedHeight) 0) eqn:Hrem.
  { intros [= <-]. apply Qleb_le, Hrem. }
  apply Qleb_gt in Hrem.
  destruct (useKeepWithNext && keepWithNext block && (2 <=? qlen)) eqn:Hpair.
  { destruct next as [nb|]; [|discriminate]. cbn [mbind option_bind].
    destruct (Qleb _ _) eqn:Hfit; intros [= <-].
    - apply Qleb_le in Hfit. repeat split; auto. exists nb. auto.
    - apply Qleb_gt in Hfit. repeat split; auto. exists nb. auto. }
  destruct (Qleb (measureHeight orc width [blockEl block]) _) eqn:Hfit.
  { intros [= <-]. apply Qleb_le in Hfit. auto. }
  apply Qleb_gt in Hfit.
  destruct (type block) eqn:Hty.
  { intros [= <-]. auto. }
  destruct (split width block _) as [sp|] eqn:Hsp; [|discriminate].
  cbn [mbind option_bind].
  destruct (fitsWords sp =? 0) eqn:Hfw.
  { intros [= <-]. apply Nat.eqb_eq in Hfw. repeat split; auto.
    exists sp. auto. }
  apply Nat.eqb_neq in Hfw.
  destruct (Qleb _ _) eqn:Hfrag; intros [= <-].
  - apply Qleb_le in Hfrag. repeat split; auto. exists sp.
    repeat split; auto.
  - apply Qleb_gt in Hfrag. repeat split; auto. exists sp. auto.
Qed.

(** The body always takes a branch when the splitter answers and the
    block after the head is there whenever the queue has two blocks. *)
Lemma chooseAction_total width availHeight usedHeight block qlen next :
  (forall w b h, exists r, split w b h = Some r) ->
  (2 <= qlen -> exists nb, next = Some nb) ->
  exists a, chooseAction useKeepWithNext split orc width availHeight
              usedHeight block qlen next = Some a.
Proof.
  intros Hsplit Hnext. unfold chooseAction.
  destruct (Qleb _ 0); [eauto|].
  destruct (useKeepWithNext && keepWithNext block && (2 <=? qlen)) eqn:Hpair.
  { apply andb_true_iff in Hpair as [_ Hlen]. apply Nat.leb_le in Hlen.
    destruct (Hnext Hlen) as (nb & ->). cbn [mbind option_bind].
    destruct (Qleb _ _); eauto. }
  destruct (Qleb _ _); [eauto|].
  destruct (type block); [eauto|].
  destruct (Hsplit width block (jsSub availHeight usedHeight)) as (sp & ->).
  cbn [mbind option_bind].
  destruct (fitsWords sp =? 0); [eauto|].
  destruct (Qleb _ _); eauto.
Qed.

End Branches.

(** ** The loop ends *)

Lemma pureWeight_cons b bs : pureWeight (b :: bs) = blockWeight b + pureWeight bs.
Proof. reflexivity. Qed.

Lemma blockWeight_pos b : 1 <= blockWeight b.
Proof. unfold blockWeight. lia. Qed.

Lemma pureWeight_drop n bs : pureWeight (drop n bs) <= pureWeight bs.
Proof.
  revert n. induction bs as [|b bs IH]; intros [|n]; cbn [drop]; try lia.
  rewrite pureWeight_cons. specialize (IH n). lia.
Qed.

Section Termination.

Context {Region : Type}.
Variable useKeepWithNext : bool.
Variable split : Q -> Block -> Q -> option SplitResult.
Variable orc : Oracle.
Variable regionMetrics : Region -> option Metrics.
Hypothesis split_shrinks : SplitShrinks split.

Local Abbreviation piter := (pureIteration useKeepWithNext split orc).
Local Abbreviation ploop := (pureLoop useKeepWithNext split orc).

Lemma split_total w b h : exists r, split w b h = Some r.
Proof. destruct (split_shrinks w b h) as (r & Hr & _). eauto. Qed.

(** A pass through the body that continues makes the queue lighter. *)
Lemma pureIteration_progress width availHeight ps :
  pqueue ps <> [] ->
  piter width availHeight ps = Some PBreak
  \/ exists ps', piter width availHeight ps = Some (PContinue ps')
                 /\ pureWeight (pqueue ps') < pureWeight (pqueue ps).
Proof.
  intros Hne. unfold pureIteration.
  destruct (pqueue ps) as [|b bs] eqn:Eq; [congruence|].
  destruct (chooseAction_total useKeepWithNext split orc width availHeight
              (pused ps) b (length (b :: bs)) (head bs) split_total)
    as (a & Ha).
  { cbn [length]. intros Hlen. destruct bs; [cbn in Hlen; lia | cbn; eauto]. }
  rewrite Ha. cbn [mbind option_bind].
  apply chooseAction_inv in Ha.
  destruct a; cbn [pureApply ActionOk] in *; auto; right.
  - destruct Ha as (_ & Hpair & _).
    apply andb_true_iff in Hpair as [_ Hlen]. apply Nat.leb_le in Hlen.
    eexists; split; [reflexivity|]. cbn [pqueue]. rewrite Eq.
    destruct bs as [|b2 bs]; [cbn in Hlen; lia|].
    cbn [drop]. rewrite !pureWeight_cons, drop_0.
    pose proof (blockWeight_pos b). lia.
  - eexists; split; [reflexivity|]. cbn [pqueue]. rewrite Eq.
    cbn [drop]. rewrite pureWeight_cons, drop_0.
    pose proof (blockWeight_pos b). lia.
  - rewrite Eq. eexists; split; [reflexivity|]. cbn [pqueue].
    rewrite !pureWeight_cons.
    destruct Ha as (_ & _ & _ & _ & sp & Hsp & Hfw & _ & _ & _ & ->).
    destruct (split_shrinks width b (jsSub availHeight (pused ps)))
      as (r & Hr & Hlt).
    assert (r = sp) by congruence. subst r.
    specialize (Hlt Hfw). unfold blockWeight. cbn [text setText]. lia.
Qed.

Lemma pureLoop_total width availHeight fuel : forall ps,
  pureWeight (pqueue ps) <= fuel ->
  exists ps', ploop fuel width availHeight ps = Some ps'.
Proof.
  induction fuel as [|fuel IH]; intros ps Hw; cbn [pureLoop];
    destruct (pqueue ps) as [|b bs] eqn:Eq; eauto.
  - rewrite pureWeight_cons in Hw. pose proof (blockWeight_pos b). lia.
  - destruct (pureIteration_progress width availHeight ps)
      as [-> | (ps' & -> & Hlt)]; [congruence | cbn; eauto |].
    cbn [mbind option_bind]. apply IH. rewrite Eq in Hlt. lia.
Qed.

Lemma pureRegions_total regions : forall bs,
  exists r, pureRegions useKeepWithNext split orc regionMetrics regions bs
            = Some r.
Proof.
  induction regions as [|region rest IH]; intros bs; cbn [pureRegions];
    [eauto|].
  destruct (usable regionMetrics region) as [m|].
  - destruct (pureLoop_total (innerWidth m) (availableHeight m)
                (pureWeight bs) {| pqueue := bs; pused := 0; pplaced := [] |})
      as (ps' & ->); [cbn [pqueue]; lia|].
    cbn [mbind option_bind].
    destruct (IH (pqueue ps')) as ([bs' out] & ->). cbn. eauto.
  - destruct (IH bs) as ([bs' out] & ->). cbn. eauto.
Qed.

End Termination.

(** ** A pass on the store and a pass on values *)

Lemma setText_same b : setText b (text b) = b.
Proof. destruct b; reflexivity. Qed.

Lemma View_app_l st extra q bs : View st q bs -> View (st ++ extra) q bs.
Proof.
  induction 1; constructor; [|assumption].
  apply lookup_app_l_Some. assumption.
Qed.

Lemma View_seq st bs : View (st ++ bs) (seq (length st) (length bs)) bs.
Proof.
  revert st. induction bs as [|b bs IH]; intros st; [constructor|].
  cbn [length seq]. constructor.
  - apply list_lookup_middle. reflexivity.
  - specialize (IH (st ++ [b])).
    rewrite <- app_assoc, length_app in IH. cbn in IH.
    rewrite Nat.add_1_r in IH. exact IH.
Qed.

Lemma View_valid st q bs l : View st q bs -> l ∈ q -> l < length st.
Proof.
  induction 1 as [|l0 b q bs Hl _ IH]; intros Hin.
  - inversion Hin.
  - apply elem_of_cons in Hin as [-> | Hin]; [|auto].
    eapply lookup_lt_Some, Hl.
Qed.

Lemma View_agree st st' q bs :
  (forall l, l < length st -> st' !! l = st !! l) ->
  View st q bs -> View st' q bs.
Proof.
  intros Hag. induction 1 as [|l b q bs Hl Hv IH]; constructor; [|assumption].
  rewrite Hag; [assumption|]. eapply lookup_lt_Some, Hl.
Qed.

Lemma View_functional st q bs bs' : View st q bs -> View st q bs' -> bs = bs'.
Proof.
  intros H. revert bs'. induction H as [|l b q bs Hl _ IH]; intros bs' H';
    inversion H'; subst; [reflexivity|].
  f_equal; [congruence | auto].
Qed.

Lemma copyBlocks_View refs : forall st bs,
  View st refs bs ->
  copyBlocks st refs = Some (st ++ bs, seq (length st) (length bs)).
Proof.
  induction refs as [|l refs IH]; intros st bs Hv; inversion Hv; subst.
  - cbn. rewrite app_nil_r. reflexivity.
  - cbn [copyBlocks]. rewrite H1. cbn [mbind option_bind].
    rewrite setText_same.
    rewrite (IH (st ++ [y]) l'); [|apply View_app_l; assumption].
    cbn [mbind option_bind]. rewrite <- app_assoc, length_app. cbn.
    rewrite Nat.add_1_r. reflexivity.
Qed.

Lemma valid_View st q :
  (forall l, l ∈ q -> l < length st) -> exists bs, View st q bs.
Proof.
  induction q as [|l q IH]; intros Hvalid.
  - exists []. constructor.
  - destruct IH as (bs & Hbs).
    { intros l' Hl'. apply Hvalid. right. exact Hl'. }
    destruct (lookup_lt_is_Some_2 st l) as (b & Hb).
    { apply Hvalid. left. }
    exists (b :: bs). constructor; assumption.
Qed.

Section PassFacts.

Context {Region : Type}.
Variable useKeepWithNext : bool.
Variable split : Q -> Block -> Q -> option SplitResult.
Variable orc : Oracle.
Variable regionMetrics : Region -> option Metrics.

Local Abbreviation fregions :=
  (flowRegions useKeepWithNext split orc regionMetrics).
Local Abbreviation pregions :=
  (pureRegions useKeepWithNext split orc regionMetrics).
Local Abbreviation pass :=
  (flowPass useKeepWithNext split orc regionMetrics).
Local Abbreviation passRuns :=
  (passRuns useKeepWithNext split orc regionMetrics).

Lemma flowRegions_sim regions : forall st q bs,
  View st q bs -> NoDup q ->
  match pregions regions bs with
  | None => fregions regions st q = None
  | Some (bs', out) =>
      exists st' q', fregions regions st q = Some (st', q', out)
                     /\ View st' q' bs' /\ NoDup q' /\ Frame st q st' q'
  end.
Proof.
  induction regions as [|region rest IH]; intros st q bs Hv Hnd;
    cbn [pureRegions flowRegions].
  - exists st, q. repeat split; auto.
  - destruct (usable regionMetrics region) as [m|].
    + rewrite (View_weight _ _ _ Hv).
      pose proof (regionLoop_sim useKeepWithNext split orc
                    (innerWidth m) (availableHeight m) (pureWeight bs)
                    {| store := st; queue := q; used := 0; placed := [] |}
                    {| pqueue := bs; pused := 0; pplaced := [] |}) as Hs.
      destruct (pureLoop _ _ _ _ _ _ _) as [ps|].
      * destruct Hs as (s & -> & (Hv' & Hnd' & _ & Hp) & Hf);
          [repeat split; auto|].
        cbn [mbind option_bind].
        specialize (IH (store s) (queue s) (pqueue ps) Hv' Hnd').
        destruct (pregions rest (pqueue ps)) as [[bs' out]|].
        -- destruct IH as (st' & q' & -> & Hv2 & Hnd2 & Hf2).
           cbn. rewrite Hp. exists st', q'. repeat split; auto;
             apply (Frame_trans _ _ _ _ _ _ Hf Hf2).
        -- rewrite IH. reflexivity.
      * rewrite Hs; [reflexivity | repeat split; auto].
    + specialize (IH st q bs Hv Hnd).
      destruct (pregions rest bs) as [[bs' out]|].
      * destruct IH as (st' & q' & -> & Hv2 & Hnd2 & Hf2).
        cbn. exists st', q'. auto.
      * rewrite IH. reflexivity.
Qed.

Lemma flowPass_idle (tf : Instance Region) :
  blocks tf = [] \/ regions tf = [] -> pass tf = Some tf.
Proof.
  unfold flowPass. intros [-> | ->]; cbn; [reflexivity|].
  rewrite orb_true_r. reflexivity.
Qed.

Lemma flowPass_busy (tf : Instance Region) :
  blocks tf <> [] -> regions tf <> [] ->
  (length (blocks tf) =? 0) || (length (regions tf) =? 0) = false.
Proof.
  intros Hb Hr. destruct (blocks tf), (regions tf); congruence || reflexivity.
Qed.

(** Running a pass on an instance whose references are sound. *)
Lemma flowPass_runs (tf : Instance Region) bs out :
  passRuns tf bs out ->
  exists tf', pass tf = Some tf'
              /\ content tf' = out
              /\ blocks tf' = blocks tf
              /\ regions tf' = regions tf
              /\ (forall l, l < length (heap tf)
                            -> heap tf' !! l = heap tf !! l).
Proof.
  intros (Hb & Hr & Hv & bs' & Hp). unfold flowPass.
  rewrite (flowPass_busy tf Hb Hr).
  rewrite (copyBlocks_View _ _ _ Hv). cbn [mbind option_bind].
  pose proof (flowRegions_sim (regions tf) (heap tf ++ bs)
                (seq (length (heap tf)) (length bs)) bs
                (View_seq _ _) (NoDup_seq _ _)) as Hs.
  rewrite Hp in Hs. destruct Hs as (st' & q' & -> & _ & _ & Hf).
  cbn. eexists; split; [reflexivity|]. cbn. repeat split.
  intros l Hl. destruct Hf as (_ & Hsame & _).
  rewrite Hsame.
  - apply lookup_app_l. exact Hl.
  - rewrite elem_of_seq. lia.
Qed.

(** What a pass that returned did. *)
Lemma flowPass_inv (tf tf' : Instance Region) :
  (forall l, l ∈ blocks tf -> l < length (heap tf)) ->
  pass tf = Some tf' ->
  ((blocks tf = [] \/ regions tf = []) /\ tf' = tf)
  \/ exists bs, passRuns tf bs (content tf')
                /\ blocks tf' = blocks tf
                /\ regions tf' = regions tf
                /\ (forall l, l < length (heap tf)
                              -> heap tf' !! l = heap tf !! l).
Proof.
  intros Hvalid Hpass.
  destruct (blocks tf) as [|l0 refs] eqn:Eb.
  { left. rewrite flowPass_idle in Hpass by auto.
    split; [auto | congruence]. }
  destruct (regions tf) as [|r0 rs] eqn:Er.
  { left. rewrite flowPass_idle in Hpass by auto.
    split; [auto | congruence]. }
  right. rewrite <- Eb in Hvalid.
  destruct (valid_View _ _ Hvalid) as (bs & Hv).
  pose proof Hpass as Hpass0. unfold flowPass in Hpass.
  rewrite flowPass_busy in Hpass by (rewrite ?Eb, ?Er; discriminate).
  rewrite (copyBlocks_View _ _ _ Hv) in Hpass.
  cbn [mbind option_bind] in Hpass.
  pose proof (flowRegions_sim (regions tf) (heap tf ++ bs)
                (seq (length (heap tf)) (length bs)) bs
                (View_seq _ _) (NoDup_seq _ _)) as Hs.
  destruct (pregions (regions tf) bs) as [[bs' out]|] eqn:Hp.
  - assert (Hruns : passRuns tf bs out).
    { repeat split; try (rewrite ?Eb, ?Er; discriminate); eauto. }
    destruct (flowPass_runs tf bs out Hruns) as (tf1 & H1 & Hc & Hrest).
    assert (tf1 = tf') by congruence. subst tf1.
    exists bs. rewrite Hc, <- Eb, <- Er. auto.
  - rewrite Hs in Hpass. discriminate.
Qed.

End PassFacts.

(** ** Invariants of the loop on values *)

Section LoopInvariants.

Context {Region : Type}.
Variable useKeepWithNext : bool.
Variable split : Q -> Block -> Q -> option SplitResult.
Variable orc : Oracle.
Variable regionMetrics : Region -> option Metrics.

Local Abbreviation piter := (pureIteration useKeepWithNext split orc).
Local Abbreviation ploop := (pureLoop useKeepWithNext split orc).
Local Abbreviation pregions :=
  (pureRegions useKeepWithNext split orc regionMetrics).

Lemma pureIteration_inv width availHeight ps ps' :
  piter width availHeight ps = Some (PContinue ps') ->
  exists b bs a,
    pqueue ps = b :: bs
    /\ ActionOk useKeepWithNext split orc width availHeight (pused ps) b
         (length (pqueue ps)) (head bs) a
    /\ pureApply a ps = Some ps'.
Proof.
  unfold pureIteration. destruct (pqueue ps) as [|b bs]; [discriminate|].
  destruct (chooseAction _ _ _ _ _ _ _ _ _) as [a|] eqn:Ha; [|discriminate].
  cbn [mbind option_bind].
  destruct (pureApply a ps) as [ps1|] eqn:Hap; intros [= <-].
  exists b, bs, a. split; [reflexivity|]. split; [|assumption].
  apply chooseAction_inv. exact Ha.
Qed.

(** A property kept by every pass through the body that continues is kept
    by the loop. *)
Lemma pureLoop_invariant width availHeight (P : PState -> Prop) :
  (forall ps ps' b bs a,
      pqueue ps = b :: bs ->
      ActionOk useKeepWithNext split orc width availHeight (pused ps) b
        (length (pqueue ps)) (head bs) a ->
      pureApply a ps = Some ps' ->
      P ps -> P ps') ->
  forall fuel ps ps',
    ploop fuel width availHeight ps = Some ps' -> P ps -> P ps'.
Proof.
  intros Hstep. induction fuel as [|fuel IH]; intros ps ps';
    cbn [pureLoop]; destruct (pqueue ps) as [|b bs] eqn:Eq;
    try discriminate; try (intros [= <-]; auto; fail).
  destruct (piter width availHeight ps) as [[ps1|]|] eqn:Hit;
    cbn [mbind option_bind]; try discriminate.
  - intros Hloop HP. apply (IH ps1 ps' Hloop).
    destruct (pureIteration_inv _ _ _ _ Hit) as (b' & bs' & a & Hq & Hok & Hap).
    eapply Hstep; eauto.
  - intros [= <-]. auto.
Qed.

End LoopInvariants.



Lemma wordsOfLog_snoc log p :
  wordsOfLog (log ++ [p]) = wordsOfLog log ++ wordsOfNodes (nodes p).
Proof.
  unfold wordsOfLog. rewrite flat_map_app. cbn. rewrite app_nil_r. reflexivity.
Qed.

Lemma wordsOfLog_app l1 l2 :
  wordsOfLog (l1 ++ l2) = wordsOfLog l1 ++ wordsOfLog l2.
Proof. apply flat_map_app. Qed.

Lemma headingEls_app l1 l2 :
  headingEls (l1 ++ l2) = headingEls l1 ++ headingEls l2.
Proof. unfold headingEls. rewrite flat_map_app. apply List.filter_app. Qed.

Lemma headingEls_snoc log p :
  headingEls (log ++ [p])
  = headingEls log ++ List.filter isHeadingEl (nodes p).
Proof.
  unfold headingEls. rewrite flat_map_app, List.filter_app. cbn.
  rewrite app_nil_r. reflexivity.
Qed.

Lemma elTxt_elFactory_text b :
  BuiltOk b -> elTxt (elFactory b (Some (text b))) = text b.
Proof.
  unfold BuiltOk, elFactory. destruct (type b); cbn; auto.
Qed.

Lemma elTxt_blockEl b : BuiltOk b -> elTxt (blockEl b) = text b.
Proof.
  unfold BuiltOk, blockEl, elFactory. destruct (type b); cbn; auto.
Qed.

Lemma elFactory_heading b arg :
  type b = heading -> elFactory b arg = blockEl b.
Proof. unfold blockEl, elFactory. intros ->. reflexivity. Qed.

Lemma isHeadingEl_blockEl b : isHeadingEl (blockEl b) = isHeading b.
Proof. unfold blockEl, elFactory, isHeading. destruct (type b); reflexivity. Qed.

Lemma isHeadingEl_elFactory b arg : isHeadingEl (elFactory b arg) = isHeading b.
Proof. unfold elFactory, isHeading. destruct (type b); reflexivity. Qed.

Lemma headingsOf_cons b bs :
  headingsOf (b :: bs)
  = (if isHeading b then [blockEl b] else []) ++ headingsOf bs.
Proof. unfold headingsOf. cbn. destruct (isHeading b); reflexivity. Qed.

Lemma filter_heading_blockEl b :
  List.filter isHeadingEl [blockEl b] = if isHeading b then [blockEl b] else [].
Proof. cbn. rewrite isHeadingEl_blockEl. reflexivity. Qed.

Section PassInvariants.

Context {Region : Type}.
Variable useKeepWithNext : bool.
Variable split : Q -> Block -> Q -> option SplitResult.
Variable orc : Oracle.
Variable regionMetrics : Region -> option Metrics.

Local Abbreviation ploop := (pureLoop useKeepWithNext split orc).
Local Abbreviation pregions :=
  (pureRegions useKeepWithNext split orc regionMetrics).

(** *** No overflow *)

Lemma usable_positive region m :
  usable regionMetrics region = Some m ->
  (0 < availableHeight m)%Q /\ (0 < innerWidth m)%Q.
Proof.
  unfold usable. destruct (regionMetrics region) as [m'|]; [|discriminate].
  cbn [mbind option_bind].
  destruct (Qleb (availableHeight m') 0) eqn:Ha; [discriminate|].
  destruct (Qleb (innerWidth m') 0) eqn:Hw; [discriminate|].
  intros [= <-]. split; apply Qleb_gt; assumption.
Qed.



(** *** Order of the words *)

Hypothesis split_words : SplitWords split.

Lemma pureLoop_words width availHeight fuel ps ps' :
  ploop fuel width availHeight ps = Some ps' ->
  Forall BuiltOk (pqueue ps) ->
  Forall BuiltOk (pqueue ps')
  /\ wordsOfLog (pplaced ps') ++ wordsOfBlocks (pqueue ps')
     = wordsOfLog (pplaced ps) ++ wordsOfBlocks (pqueue ps).
Proof.
  intros Hloop Hbuilt.
  refine (pureLoop_invariant useKeepWithNext split orc width availHeight
           (fun ps1 => Forall BuiltOk (pqueue ps1)
                /\ wordsOfLog (pplaced ps1) ++ wordsOfBlocks (pqueue ps1)
                   = wordsOfLog (pplaced ps) ++ wordsOfBlocks (pqueue ps))
           _ fuel ps ps' Hloop _); [|auto].
  clear Hloop Hbuilt ps'. intros ps1 ps2 b bs a Hq Hok Hap [Hb Hw].
  rewrite <- Hw. clear Hw. rewrite Hq in Hb, Hok.
  apply Forall_cons_1 in Hb as [Hb0 Hb].
  destruct a; cbn [pureApply ActionOk] in *; try discriminate.
  - injection Hap as <-. cbn [pplaced pqueue]. rewrite Hq.
    destruct Hok as (_ & Hpair & nb & Hnext & -> & -> & _).
    destruct bs as [|b2 bs]; [discriminate|]. injection Hnext as <-.
    apply Forall_cons_1 in Hb as [Hb2 Hb].
    split; [exact Hb|].
    rewrite wordsOfLog_snoc, <- app_assoc. f_equal.
    cbn [nodes wordsOfNodes wordsOfBlocks flat_map drop].
    rewrite elTxt_elFactory_text, elTxt_blockEl by assumption.
    rewrite app_nil_r, <- app_assoc. reflexivity.
  - injection Hap as <-. cbn [pplaced pqueue]. rewrite Hq.
    destruct Hok as (_ & _ & -> & _).
    split; [exact Hb|].
    rewrite wordsOfLog_snoc, <- app_assoc. f_equal.
    cbn [nodes wordsOfNodes wordsOfBlocks flat_map drop].
    rewrite elTxt_blockEl by assumption.
    rewrite app_nil_r. reflexivity.
  - rewrite Hq in Hap. injection Hap as <-. cbn [pplaced pqueue]. rewrite Hq.
    destruct Hok as (_ & _ & _ & Hty & sp & Hsp & _ & -> & _ & _ & ->).
    split.
    + constructor; [|exact Hb].
      unfold BuiltOk. cbn [type setText]. congruence.
    + rewrite wordsOfLog_snoc, <- app_assoc. f_equal.
      cbn [nodes wordsOfNodes wordsOfBlocks flat_map].
      unfold elFactory. rewrite Hty. cbn [createParagraph elTxt text setText].
      rewrite app_nil_r, app_assoc, (split_words _ _ _ _ Hsp). reflexivity.
Qed.

Lemma pureRegions_words regions : forall bs bs' out,
  pregions regions bs = Some (bs', out) ->
  Forall BuiltOk bs ->
  wordsOfLog (concat out) ++ wordsOfBlocks bs' = wordsOfBlocks bs.
Proof.
  induction regions as [|region rest IH]; intros bs bs' out;
    cbn [pureRegions].
  - intros [= <- <-] _. reflexivity.
  - destruct (usable regionMetrics region) as [m|].
    + destruct (ploop _ _ _ _) as [ps|] eqn:Hloop; [|discriminate].
      cbn [mbind option_bind].
      destruct (pregions rest (pqueue ps)) as [[bs1 out1]|] eqn:Hrest;
        [|discriminate].
      cbn [mbind option_bind]. intros [= <- <-] Hb.
      destruct (pureLoop_words _ _ _ _ _ Hloop Hb) as [Hb' Hw].
      cbn [pplaced pqueue wordsOfLog flat_map app] in Hw.
      cbn [concat]. rewrite wordsOfLog_app.
      rewrite <- app_assoc, (IH _ _ _ Hrest Hb'). exact Hw.
    + destruct (pregions rest bs) as [[bs1 out1]|] eqn:Hrest; [|discriminate].
      cbn [mbind option_bind]. intros [= <- <-] Hb.
      apply (IH _ _ _ Hrest Hb).
Qed.

End PassInvariants.

Section HeadingInvariant.

Context {Region : Type}.
Variable useKeepWithNext : bool.
Variable split : Q -> Block -> Q -> option SplitResult.
Variable orc : Oracle.
Variable regionMetrics : Region -> option Metrics.

Local Abbreviation ploop := (pureLoop useKeepWithNext split orc).
Local Abbreviation pregions :=
  (pureRegions useKeepWithNext split orc regionMetrics).

(** The heading elements placed so far and those of the blocks still
    queued are, together, the heading elements of the blocks the loop
    started with: the loop moves whole headings, one at a time, from the
    queue to the region. *)
Lemma pureLoop_headings width availHeight fuel ps ps' :
  ploop fuel width availHeight ps = Some ps' ->
  headingEls (pplaced ps') ++ headingsOf (pqueue ps')
  = headingEls (pplaced ps) ++ headingsOf (pqueue ps).
Proof.
  intros Hloop.
  refine (pureLoop_invariant useKeepWithNext split orc width availHeight
           (fun ps1 => headingEls (pplaced ps1) ++ headingsOf (pqueue ps1)
                       = headingEls (pplaced ps) ++ headingsOf (pqueue ps))
           _ fuel ps ps' Hloop eq_refl).
  clear Hloop ps'. intros ps1 ps2 b bs a Hq Hok Hap Hw.
  rewrite <- Hw. clear Hw. rewrite Hq in Hok.
  destruct a; cbn [pureApply ActionOk] in *; try discriminate.
  - injection Hap as <-. cbn [pplaced pqueue]. rewrite Hq.
    destruct Hok as (_ & Hpair & nb & Hnext & -> & -> & _).
    destruct bs as [|b2 bs]; [discriminate|]. injection Hnext as <-.
    rewrite headingEls_snoc, <- app_assoc. f_equal.
    cbn [nodes drop]. rewrite drop_0, !headingsOf_cons.
    cbn [List.filter].
    rewrite isHeadingEl_elFactory, isHeadingEl_blockEl.
    destruct (isHeading b) eqn:Hb0;
      [rewrite elFactory_heading
         by (unfold isHeading in Hb0; destruct (type b); congruence)|];
      destruct (isHeading b2); reflexivity.
  - injection Hap as <-. cbn [pplaced pqueue]. rewrite Hq.
    destruct Hok as (_ & _ & -> & _).
    rewrite headingEls_snoc, <- app_assoc. f_equal.
    cbn [nodes drop]. rewrite drop_0, headingsOf_cons, filter_heading_blockEl.
    reflexivity.
  - rewrite Hq in Hap. injection Hap as <-. cbn [pplaced pqueue]. rewrite Hq.
    destruct Hok as (_ & _ & _ & Hty & sp & Hsp & _ & -> & _ & _ & ->).
    rewrite headingEls_snoc, <- app_assoc. f_equal.
    cbn [nodes]. rewrite !headingsOf_cons. cbn [List.filter].
    rewrite isHeadingEl_elFactory.
    unfold isHeading. cbn [type setText]. rewrite Hty. reflexivity.
Qed.

Lemma pureRegions_headings regions : forall bs bs' out,
  pregions regions bs = Some (bs', out) ->
  headingEls (concat out) ++ headingsOf bs' = headingsOf bs.
Proof.
  induction regions as [|region rest IH]; intros bs bs' out;
    cbn [pureRegions].
  - intros [= <- <-]. reflexivity.
  - destruct (usable regionMetrics region) as [m|].
    + destruct (ploop _ _ _ _) as [ps|] eqn:Hloop; [|discriminate].
      cbn [mbind option_bind].
      destruct (pregions rest (pqueue ps)) as [[bs1 out1]|] eqn:Hrest;
        [|discriminate].
      cbn [mbind option_bind]. intros [= <- <-].
      pose proof (pureLoop_headings _ _ _ _ _ Hloop) as Hw.
      cbn [pplaced pqueue] in Hw.
      cbn [concat]. rewrite headingEls_app.
      rewrite <- app_assoc, (IH _ _ _ Hrest). exact Hw.
    + destruct (pregions rest bs) as [[bs1 out1]|] eqn:Hrest; [|discriminate].
      cbn [mbind option_bind]. intros [= <- <-].
      apply (IH _ _ _ Hrest).
Qed.

End HeadingInvariant.

(** ** The two splitters *)

Lemma TextFlow_split_words orc : SplitWords (TextFlow.splitParagraph orc).
Proof.
  intros width block availHeight r Hr.
  destruct (splitParagraph_inv orc _ _ _ _ Hr) as [Hw -> | _ -> _ | best _ _ -> _ _ _ _];
    cbn [firstText restText].
  - rewrite Hw. reflexivity.
  - reflexivity.
  - apply words_split_join.
Qed.

Lemma TextFlow_split_shrinks orc : SplitShrinks (TextFlow.splitParagraph orc).
Proof.
  intros width block availHeight.
  destruct (splitParagraph_cases orc width block availHeight) as (r & Hr & Hc).
  exists r. split; [assumption|].
  destruct Hc as [_ -> | _ -> _ | best Hb Hle -> _ _ _ _];
    cbn [fitsWords restText]; try congruence.
  intros _. rewrite words_join_sliceFrom. unfold sliceFrom.
  rewrite length_skipn. lia.
Qed.

Lemma TextFlowIntro_split_shrinks orc :
  SplitShrinks (TextFlowIntro.splitParagraph orc).
Proof.
  intros width block availHeight. unfold TextFlowIntro.splitParagraph.
  destruct (length (words (text block)) =? 0) eqn:En.
  { eexists; split; [reflexivity|]. cbn. congruence. }
  apply Nat.eqb_neq in En.
  destruct (ltOne _).
  { eexists; split; [reflexivity|]. cbn. congruence. }
  destruct (TextFlowIntro.growLoop _ _ _ _ _ _ _ _ _) as [bestText n].
  match goal with
  | |- context [let '(_, _) := ?e in _] => destruct e as [bestText' n']
  end.
  eexists; split; [reflexivity|]. cbn [fitsWords restText].
  intros Hn. rewrite words_join_sliceFrom. unfold sliceFrom.
  rewrite length_skipn. lia.
Qed.

(** ** A pass returns *)

Section PassTotal.

Context {Region : Type}.
Variable useKeepWithNext : bool.
Variable split : Q -> Block -> Q -> option SplitResult.
Variable orc : Oracle.
Variable regionMetrics : Region -> option Metrics.
Hypothesis split_shrinks : SplitShrinks split.

(** On an instance whose block references point into its store, a pass
    returns: the fuel given to the loop of each region is enough. *)
Lemma flowPass_total (tf : Instance Region) :
  (forall l, l ∈ blocks tf -> l < length (heap tf)) ->
  exists tf', flowPass useKeepWithNext split orc regionMetrics tf = Some tf'.
Proof.
  intros Hvalid.
  destruct (blocks tf) as [|l0 refs] eqn:Eb.
  { exists tf. apply flowPass_idle. auto. }
  destruct (regions tf) as [|r0 rs] eqn:Er.
  { exists tf. apply flowPass_idle. auto. }
  rewrite <- Eb in Hvalid.
  destruct (valid_View _ _ Hvalid) as (bs & Hv).
  destruct (pureRegions_total useKeepWithNext split orc regionMetrics
              split_shrinks (regions tf) bs) as ([bs' out] & Hp).
  destruct (flowPass_runs useKeepWithNext split orc regionMetrics tf bs out)
    as (tf' & Htf' & _).
  { repeat split; try (rewrite ?Eb, ?Er; discriminate); eauto. }
  eauto.
Qed.

End PassTotal.

(** * The properties of the specification *)

(** ** Keep-with-next *)

Lemma regionLoop_step useKeepWithNext split orc fuel width availHeight s q0 qr :
  queue s = q0 :: qr ->
  regionLoop useKeepWithNext split orc (S fuel) width availHeight s
  = r ← iteration useKeepWithNext split orc width availHeight s;
    match r with
    | Continue s' =>
        regionLoop useKeepWithNext split orc fuel width availHeight s'
    | Break => Some s
    end.
Proof. intros Hq. cbn [regionLoop]. rewrite Hq. reflexivity. Qed.

(** C1 (as amended). In the loop of js/intro.js, when the block at the head
    of the queue has [keepWithNext] and a next block exists, the loop either
    places both in the region, their height measured together being at most
    the space left, and goes on behind them, or returns at once with its
    state untouched, because no space is left or the two together are taller
    than it: the head is not tried alone, whatever its own height. *)
Theorem keep_with_next_pair_atomic orc fuel width availHeight s q0 q1 qr b nb s' :
  queue s = q0 :: q1 :: qr ->
  store s !! q0 = Some b ->
  store s !! q1 = Some nb ->
  keepWithNext b = true ->
  regionLoop true (TextFlow.splitParagraph orc) orc (S fuel) width
    availHeight s = Some s' ->
  PairPlacedOrAbandoned true (TextFlow.splitParagraph orc) orc fuel width
    availHeight s qr b nb s'.
Proof.
  intros Hq Hb Hnb Hkwn.
  rewrite (regionLoop_step _ _ _ _ _ _ _ _ _ Hq).
  unfold iteration, PairPlacedOrAbandoned. rewrite Hq, Hb.
  cbn [mbind option_bind head]. rewrite Hnb.
  unfold chooseAction.
  destruct (Qleb (jsSub availHeight (used s)) 0) eqn:Hrem.
  { apply Qleb_le in Hrem. intros [= <-]. right. auto. }
  apply Qleb_gt in Hrem.
  rewrite Hkwn. cbn [andb length Nat.leb].
  cbn [mbind option_bind].
  destruct (Qleb (measureHeight _ _ _) _) eqn:Hfit;
    cbn [applyAction mbind option_bind].
  - apply Qleb_le in Hfit. rewrite Hq. intros Hloop. left. auto.
  - apply Qleb_gt in Hfit. intros [= <-]. right. auto.
Qed.

Lemma keep_with_next_pair_atomic_witness :
  PairPlacedOrAbandoned true (TextFlow.splitParagraph narrowOracle)
    narrowOracle 3 (inject_Z 100) (inject_Z 50) keptPairStart [] keptHead
    keptNext keptPairStart.
Proof.
  apply (keep_with_next_pair_atomic narrowOracle 3 (inject_Z 100)
           (inject_Z 50) keptPairStart 0 1 [] keptHead keptNext keptPairStart).
  - reflexivity.
  - reflexivity.
  - reflexivity.
  - reflexivity.
  - vm_compute. reflexivity.
Defined.

(** C1 (as stated) fails on js/text-flow-intro.js, whose loop has no
    keep-with-next branch: in a region 50 pixels tall, with a 40 pixel
    heading bound to a paragraph with which it measures 120 pixels, the loop
    places the heading alone. *)
Lemma keep_with_next_skipped_by_intro_variant :
  queue keptPairStart = [0; 1]
  /\ store keptPairStart !! 0 = Some keptHead
  /\ store keptPairStart !! 1 = Some keptNext
  /\ keepWithNext keptHead = true
  /\ regionLoop false (TextFlowIntro.splitParagraph narrowOracle) narrowOracle
       4 (inject_Z 100) (inject_Z 50) keptPairStart = Some keptPairSplitUp
  /\ ~ PairPlacedOrAbandoned false (TextFlowIntro.splitParagraph narrowOracle)
         narrowOracle 3 (inject_Z 100) (inject_Z 50) keptPairStart [] keptHead
         keptNext keptPairSplitUp
  /\ content <$> TextFlowIntro.flow narrowOracle
                   (instanceOf keptPair [introRegionOfHeight 50])
     = Some [placed keptPairSplitUp].
Proof.
  do 4 (split; [reflexivity|]).
  split; [vm_compute; reflexivity|].
  split; [|vm_compute; reflexivity].
  intros [(_ & Hfit & _) | [_ Heq]].
  - vm_compute in Hfit. apply Hfit. reflexivity.
  - discriminate Heq.
Qed.

(** ** No overflow *)

Lemma ValidRefs_lt {Region} (tf : Instance Region) :
  ValidRefs tf -> forall l, l ∈ blocks tf -> l < length (heap tf).
Proof.
  unfold ValidRefs. rewrite List.Forall_forall. intros H l Hl.
  apply H, list_elem_of_In, Hl.
Qed.

Lemma View_ValidRefs {Region} (tf : Instance Region) bs :
  View (heap tf) (blocks tf) bs -> ValidRefs tf.
Proof.
  intros Hv. unfold ValidRefs. apply List.Forall_forall. intros l Hl.
  eapply View_valid; [exact Hv | apply list_elem_of_In, Hl].
Qed.




(** ** Headings *)

Lemma iteration_unfold useKeepWithNext split orc width availHeight s q0 qr b :
  queue s = q0 :: qr ->
  store s !! q0 = Some b ->
  iteration useKeepWithNext split orc width availHeight s
  = a ← chooseAction useKeepWithNext split orc width availHeight (used s) b
          (length (queue s)) (head qr ≫= (fun q1 => store s !! q1));
    Some (match applyAction a s with
          | Some s' => Continue s'
          | None => Break
          end).
Proof.
  intros Hq Hb. unfold iteration. rewrite Hq, Hb. reflexivity.
Qed.

Lemma heading_abandons_region useKeepWithNext split orc fuel width availHeight
    s q0 qr b :
  queue s = q0 :: qr ->
  store s !! q0 = Some b ->
  type b = heading ->
  pairCase useKeepWithNext b (queue s) = false ->
  (jsSub availHeight (used s) < measureHeight orc width [blockEl b])%Q ->
  regionLoop useKeepWithNext split orc (S fuel) width availHeight s = Some s.
Proof.
  intros Hq Hb Hty Hpair Hbig.
  rewrite (regionLoop_step _ _ _ _ _ _ _ _ _ Hq).
  rewrite (iteration_unfold _ _ _ _ _ _ _ _ _ Hq Hb).
  unfold chooseAction. unfold pairCase in Hpair.
  destruct (Qleb (jsSub availHeight (used s)) 0); [reflexivity|].
  apply Qleb_gt in Hbig. rewrite Hpair, Hbig, Hty.
  reflexivity.
Qed.

Lemma headings_placed_whole_once {Region} useKeepWithNext split orc
    (regionMetrics : Region -> option Metrics) (tf tf' : Instance Region) bs :
  View (heap tf) (blocks tf) bs ->
  blocks tf <> [] ->
  regions tf <> [] ->
  flowPass useKeepWithNext split orc regionMetrics tf = Some tf' ->
  exists later, headingsOf bs = headingEls (concat (content tf')) ++ later.
Proof.
  intros Hv Hb Hr Hpass.
  destruct (flowPass_inv _ _ _ _ _ _
              (ValidRefs_lt _ (View_ValidRefs _ _ Hv)) Hpass)
    as [[[Hnil | Hnil] _] | (bs0 & Hruns & _)]; try contradiction.
  destruct Hruns as (_ & _ & Hv0 & bs' & Hp).
  rewrite (View_functional _ _ _ _ Hv Hv0).
  exists (headingsOf bs'). symmetry.
  eapply pureRegions_headings. exact Hp.
Qed.

Lemma blockEl_heading b :
  type b = heading -> elFactory b (Some (text b)) = blockEl b.
Proof. unfold blockEl, elFactory. intros ->. reflexivity. Qed.

Lemma kept_heading_abandons_region useKeepWithNext split orc fuel width
    availHeight s q0 qr b nb :
  queue s = q0 :: qr ->
  store s !! q0 = Some b ->
  type b = heading ->
  pairCase useKeepWithNext b (queue s) = true ->
  head qr ≫= (fun q1 => store s !! q1) = Some nb ->
  (jsSub availHeight (used s)
   < measureHeight orc width [blockEl b; blockEl nb])%Q ->
  regionLoop useKeepWithNext split orc (S fuel) width availHeight s = Some s.
Proof.
  intros Hq Hb Hty Hpair Hnext Hbig.
  rewrite (regionLoop_step _ _ _ _ _ _ _ _ _ Hq).
  rewrite (iteration_unfold _ _ _ _ _ _ _ _ _ Hq Hb).
  unfold chooseAction. unfold pairCase in Hpair.
  destruct (Qleb (jsSub availHeight (used s)) 0); [reflexivity|].
  rewrite Hpair, Hnext. cbn [mbind option_bind].
  rewrite (blockEl_heading b Hty).
  apply Qleb_gt in Hbig. rewrite Hbig. reflexivity.
Qed.

(** C5 (as amended). In a pass of either copy of [flow]: (1) the heading
    elements placed over all regions, in region order, are the elements of
    the first headings of the block list, each built from the whole text of
    its heading, so that a heading is placed whole, in one region and once,
    or not at all; (2) when the block at the head of the queue is a heading
    taller than the space left, and, where the keep-with-next branch takes
    it, the heading and the block behind it measure together at least what
    the heading measures alone, the loop of the region returns with its
    state untouched: the heading stays at the head of the queue for the
    next region. *)
Theorem heading_atomicity {Region} useKeepWithNext split orc
    (regionMetrics : Region -> option Metrics) (tf tf' : Instance Region) bs
    fuel width availHeight s q0 qr b :
  View (heap tf) (blocks tf) bs ->
  blocks tf <> [] ->
  regions tf <> [] ->
  flowPass useKeepWithNext split orc regionMetrics tf = Some tf' ->
  queue s = q0 :: qr ->
  store s !! q0 = Some b ->
  type b = heading ->
  (jsSub availHeight (used s) < measureHeight orc width [blockEl b])%Q ->
  (pairCase useKeepWithNext b (queue s) = true ->
   exists nb,
     head qr ≫= (fun q1 => store s !! q1) = Some nb
     /\ (measureHeight orc width [blockEl b]
         <= measureHeight orc width [blockEl b; blockEl nb])%Q) ->
  (exists later, headingsOf bs = headingEls (concat (content tf')) ++ later)
  /\ regionLoop useKeepWithNext split orc (S fuel) width availHeight s
     = Some s.
Proof.
  intros Hv Hb Hr Hpass Hq Hb0 Hty Hbig Hkept. split.
  - eapply headings_placed_whole_once; eassumption.
  - destruct (pairCase useKeepWithNext b (queue s)) eqn:Hpair.
    + destruct (Hkept eq_refl) as (nb & Hnext & Hle).
      eapply kept_heading_abandons_region; try eassumption.
      eapply Qlt_le_trans; eassumption.
    + eapply heading_abandons_region; eassumption.
Qed.

Lemma heading_atomicity_witness :
  exists tf',
    TextFlow.flow narrowOracle twoRegions = Some tf'
    /\ (exists later,
           headingsOf headingAndParagraph
           = headingEls (concat (content tf')) ++ later)
    /\ regionLoop true (TextFlow.splitParagraph narrowOracle) narrowOracle 3
         (inject_Z 100) (inject_Z 50) keptTallStart
       = Some keptTallStart.
Proof.
  eexists. split.
  - vm_compute. reflexivity.
  - apply (heading_atomicity true (TextFlow.splitParagraph narrowOracle)
             narrowOracle TextFlow.regionMetrics twoRegions _
             headingAndParagraph 2 (inject_Z 100) (inject_Z 50)
             keptTallStart 0 [1] keptHead).
    + repeat constructor.
    + discriminate.
    + discriminate.
    + vm_compute. reflexivity.
    + reflexivity.
    + reflexivity.
    + reflexivity.
    + vm_compute. reflexivity.
    + intros _. exists keptNext. split; [reflexivity|].
      vm_compute. discriminate.
Defined.

(** C5 (as stated) fails in the keep-with-next branch of js/intro.js, which
    never measures the heading alone. Where a paragraph is pulled up over
    the heading before it, a kept heading of 40 pixels and its paragraph
    measure 30 pixels together: with 35 pixels left the heading does not
    fit, yet the loop places it, with the paragraph, and [flow] shows them
    in the region. *)
Theorem kept_heading_placed_though_too_tall :
  type keptHead = heading
  /\ (jsSub (inject_Z 35) (used overlapStart)
      < measureHeight overlapOracle (inject_Z 100) [blockEl keptHead])%Q
  /\ regionLoop true (TextFlow.splitParagraph overlapOracle) overlapOracle 3
       (inject_Z 100) (inject_Z 35) overlapStart
     = Some overlapEnd
  /\ content <$> TextFlow.flow overlapOracle
                   (instanceOf [keptHead; shortNext] [regionOfHeight 35])
     = Some [placed overlapEnd].
Proof.
  repeat split; vm_compute; reflexivity.
Qed.

(** ** Order of the text *)

Lemma buildBlock_BuiltOk index raw blk :
  buildBlock index raw = Some blk -> BuiltOk blk.
Proof.
  unfold buildBlock, BuiltOk.
  destruct (rtype raw) as [[|]|]; intros [= <-]; reflexivity.
Qed.

Lemma buildBlocksFrom_BuiltOk raw : forall index,
  Forall BuiltOk (buildBlocksFrom index raw).
Proof.
  induction raw as [|r raw IH]; intros index; cbn [buildBlocksFrom];
    [constructor|].
  destruct (buildBlock index r) as [blk|] eqn:Hb; [|apply IH].
  constructor; [eapply buildBlock_BuiltOk; eassumption | apply IH].
Qed.

Lemma buildBlocks_BuiltOk raw : Forall BuiltOk (buildBlocks raw).
Proof. apply buildBlocksFrom_BuiltOk. Qed.

Lemma join_app l1 l2 : exists tail, join (l1 ++ l2) = join l1 ++ tail.
Proof.
  induction l1 as [|w l1 IH].
  - exists (join l2). reflexivity.
  - destruct l1 as [|w1 l1].
    + destruct l2 as [|w2 l2].
      * exists []. cbn. rewrite app_nil_r. reflexivity.
      * exists (32%N :: join (w2 :: l2)). reflexivity.
    + destruct IH as (tail & IH). exists tail.
      change ((w :: w1 :: l1) ++ l2) with (w :: w1 :: (l1 ++ l2)).
      rewrite !join_cons. change (w1 :: l1 ++ l2) with ((w1 :: l1) ++ l2).
      rewrite IH, <- app_assoc. reflexivity.
Qed.

(** C6 (as amended). In a pass of js/intro.js that runs its loops over the
    blocks built from a content document, the words of the nodes placed,
    taken region after region and in the order of placement, are the first
    words of the document's blocks in document order: nothing is reordered
    or repeated, and only an end of the text may be missing. So the words
    placed, joined by single spaces, are a prefix of the words of the
    document joined the same way. *)
Theorem order_preserved orc raw (tf tf' : Instance TextFlow.Region) :
  View (heap tf) (blocks tf) (buildBlocks raw) ->
  blocks tf <> [] ->
  regions tf <> [] ->
  TextFlow.flow orc tf = Some tf' ->
  (exists missing,
      wordsOfBlocks (buildBlocks raw)
      = wordsOfLog (concat (content tf')) ++ missing)
  /\ (exists tail,
         join (wordsOfBlocks (buildBlocks raw))
         = join (wordsOfLog (concat (content tf'))) ++ tail).
Proof.
  intros Hv Hb Hr Hpass. unfold TextFlow.flow in Hpass.
  destruct (flowPass_inv _ _ _ _ _ _
              (ValidRefs_lt _ (View_ValidRefs _ _ Hv)) Hpass)
    as [[[Hnil | Hnil] _] | (bs0 & Hruns & _)]; try contradiction.
  destruct Hruns as (_ & _ & Hv0 & bs' & Hp).
  rewrite <- (View_functional _ _ _ _ Hv Hv0) in Hp.
  assert (Hw : wordsOfLog (concat (content tf')) ++ wordsOfBlocks bs'
               = wordsOfBlocks (buildBlocks raw)).
  { eapply pureRegions_words; [apply TextFlow_split_words | exact Hp |].
    apply buildBlocks_BuiltOk. }
  split.
  - exists (wordsOfBlocks bs'). symmetry. exact Hw.
  - rewrite <- Hw. apply join_app.
Qed.

Lemma order_preserved_witness :
  exists tf',
    TextFlow.flow narrowOracle builtInstance = Some tf'
    /\ (exists missing,
           wordsOfBlocks (buildBlocks rawContent)
           = wordsOfLog (concat (content tf')) ++ missing)
    /\ (exists tail,
           join (wordsOfBlocks (buildBlocks rawContent))
           = join (wordsOfLog (concat (content tf'))) ++ tail).
Proof.
  eexists. split.
  - vm_compute. reflexivity.
  - apply (order_preserved narrowOracle rawContent builtInstance).
    + repeat constructor.
    + discriminate.
    + discriminate.
    + vm_compute. reflexivity.
Defined.

(** C6 (as stated) fails for the text itself. A fragment joins its words
    by single spaces whatever white space separated them in the source, and
    the white space at a cut is in neither fragment: of a heading and the
    paragraph [a  b c d e], two regions receive the texts [Intro], [a b c]
    and [d e], which, written one after another with any separator, are
    not a beginning of the texts of the blocks written the same way. *)
Theorem placed_text_is_not_a_prefix :
  exists tf',
    TextFlow.flow narrowOracle builtInstance = Some tf'
    /\ textsOfLog (concat (content tf'))
       = [utf16 "Intro"; utf16 "a b c"; utf16 "d e"]
    /\ textsOfBlocks (buildBlocks rawContent)
       = [utf16 "Intro"; utf16 "a  b c d e"]
    /\ forall sep,
         ~ exists tail,
             joinWith sep (textsOfBlocks (buildBlocks rawContent))
             = joinWith sep (textsOfLog (concat (content tf'))) ++ tail.
Proof.
  assert (Hflow : exists tf', TextFlow.flow narrowOracle builtInstance
                              = Some tf')
    by (eexists; vm_compute; reflexivity).
  destruct Hflow as (tf' & Hflow). exists tf'. split; [exact Hflow|].
  assert (Hplaced : textsOfLog (concat (content tf'))
                    = [utf16 "Intro"; utf16 "a b c"; utf16 "d e"]).
  { vm_compute in Hflow. injection Hflow as <-. vm_compute. reflexivity. }
  assert (Hsource : textsOfBlocks (buildBlocks rawContent)
                    = [utf16 "Intro"; utf16 "a  b c d e"])
    by (vm_compute; reflexivity).
  split; [exact Hplaced|]. split; [exact Hsource|].
  intros sep (tail & Heq). rewrite Hplaced, Hsource in Heq.
  cbn [joinWith] in Heq. rewrite <- !app_assoc in Heq.
  apply app_inv_head in Heq. apply app_inv_head in Heq.
  vm_compute in Heq. discriminate Heq.
Qed.

(** ** Two passes in a row *)

Lemma flowPass_twice {Region} useKeepWithNext split orc
    (regionMetrics : Region -> option Metrics) (tf tf1 : Instance Region) :
  ValidRefs tf ->
  flowPass useKeepWithNext split orc regionMetrics tf = Some tf1 ->
  exists tf2,
    flowPass useKeepWithNext split orc regionMetrics tf1 = Some tf2
    /\ content tf2 = content tf1
    /\ blocks tf1 = blocks tf /\ blocks tf2 = blocks tf
    /\ forall l, l ∈ blocks tf ->
                 heap tf1 !! l = heap tf !! l /\ heap tf2 !! l = heap tf !! l.
Proof.
  intros Hvalid Hpass. pose proof (ValidRefs_lt _ Hvalid) as Hlt.
  destruct (flowPass_inv _ _ _ _ _ _ Hlt Hpass)
    as [[Hnil ->] | (bs & Hruns & Hb1 & Hr1 & Hsame1)].
  - exists tf. rewrite flowPass_idle by exact Hnil. repeat split; auto.
  - destruct Hruns as (Hb & Hr & Hv & bs' & Hp).
    assert (Hruns1 : passRuns useKeepWithNext split orc regionMetrics tf1 bs
                       (content tf1)).
    { unfold passRuns. rewrite Hb1, Hr1. repeat split; auto.
      - eapply View_agree; [exact Hsame1 | exact Hv].
      - eauto. }
    destruct (flowPass_runs _ _ _ _ _ _ _ Hruns1)
      as (tf2 & Hpass2 & Hc2 & Hb2 & Hr2 & Hsame2).
    exists tf2.
    split; [exact Hpass2|]. split; [exact Hc2|]. split; [exact Hb1|].
    split; [congruence|].
    intros l Hl.
    assert (Hl1 : heap tf1 !! l = heap tf !! l) by apply Hsame1, Hlt, Hl.
    split; [exact Hl1|]. rewrite Hsame2; [exact Hl1|].
    destruct (lookup_lt_is_Some_2 (heap tf) l (Hlt l Hl)) as (b & Hb0).
    rewrite <- Hl1 in Hb0. eapply lookup_lt_Some, Hb0.
Qed.

(** C7. A pass of js/intro.js followed by a second one on the instance the
    first left, with the same regions and the same oracle, places the same
    nodes in the same regions with the same measured heights; both work on
    fresh copies, so that the block objects of [this.blocks] are after each
    pass what they were before the first, a split paragraph included, and
    [this.blocks] holds the same references. *)
Theorem flow_twice_same_placement orc (tf tf1 : Instance TextFlow.Region) :
  ValidRefs tf ->
  TextFlow.flow orc tf = Some tf1 ->
  exists tf2,
    TextFlow.flow orc tf1 = Some tf2
    /\ content tf2 = content tf1
    /\ blocks tf1 = blocks tf /\ blocks tf2 = blocks tf
    /\ forall l, l ∈ blocks tf ->
                 heap tf1 !! l = heap tf !! l /\ heap tf2 !! l = heap tf !! l.
Proof. apply flowPass_twice. Qed.

Lemma flow_twice_same_placement_witness :
  exists tf1 tf2,
    TextFlow.flow narrowOracle twoRegions = Some tf1
    /\ TextFlow.flow narrowOracle tf1 = Some tf2
    /\ content tf2 = content tf1
    /\ blocks tf1 = blocks twoRegions /\ blocks tf2 = blocks twoRegions
    /\ forall l, l ∈ blocks twoRegions ->
                 heap tf1 !! l = heap twoRegions !! l
                 /\ heap tf2 !! l = heap twoRegions !! l.
Proof.
  assert (Hflow : exists tf1,
             TextFlow.flow narrowOracle twoRegions = Some tf1).
  { eexists. vm_compute. reflexivity. }
  destruct Hflow as (tf1 & Hflow). exists tf1.
  destruct (flow_twice_same_placement narrowOracle twoRegions tf1
              ltac:(repeat constructor) Hflow) as (tf2 & H).
  exists tf2. split; [exact Hflow | exact H].
Defined.

(** ** The fragment is measured again *)

(** C8. In the loop of either copy of [flow], when the splitter offers a
    prefix ([fitsWords] not 0) and [measureHeight] finds the fragment
    element taller than the space left, the loop of the region returns with
    its state untouched: nothing is placed, the text of the block at the
    head of the queue is what it was, the used height is what it was. *)
Theorem fragment_remeasured useKeepWithNext split orc fuel width availHeight
    s q0 qr b sp :
  queue s = q0 :: qr ->
  store s !! q0 = Some b ->
  pairCase useKeepWithNext b (queue s) = false ->
  type b = paragraph ->
  (jsSub availHeight (used s) < measureHeight orc width [blockEl b])%Q ->
  split width b (jsSub availHeight (used s)) = Some sp ->
  fitsWords sp <> 0 ->
  (jsSub availHeight (used s)
   < measureHeight orc width [elFactory b (Some (firstText sp))])%Q ->
  regionLoop useKeepWithNext split orc (S fuel) width availHeight s = Some s.
Proof.
  intros Hq Hb Hpair Hty Hbig Hsp Hfw Hfrag.
  rewrite (regionLoop_step _ _ _ _ _ _ _ _ _ Hq).
  rewrite (iteration_unfold _ _ _ _ _ _ _ _ _ Hq Hb).
  unfold chooseAction. unfold pairCase in Hpair.
  destruct (Qleb (jsSub availHeight (used s)) 0); [reflexivity|].
  apply Qleb_gt in Hbig, Hfrag.
  rewrite Hpair, Hbig, Hty, Hsp. cbn [mbind option_bind].
  apply Nat.eqb_neq in Hfw. rewrite Hfw, Hfrag. reflexivity.
Qed.

Lemma fragment_remeasured_witness :
  regionLoop true (TextFlow.splitParagraph marginOracle) marginOracle 6
    (inject_Z 100) (inject_Z 70) fiveWordsStart
  = Some fiveWordsStart.
Proof.
  apply (fragment_remeasured true (TextFlow.splitParagraph marginOracle)
           marginOracle 5 (inject_Z 100) (inject_Z 70) fiveWordsStart 0 []
           fiveWords fiveWordsSplit).
  - reflexivity.
  - reflexivity.
  - reflexivity.
  - reflexivity.
  - reflexivity.
  - vm_compute. reflexivity.
  - discriminate.
  - reflexivity.
Defined.

(** ** Regions without room *)

Lemma unusable_region_skipped {Region} useKeepWithNext split orc
    (regionMetrics : Region -> option Metrics) region rest st q :
  usable regionMetrics region = None ->
  flowRegions useKeepWithNext split orc regionMetrics (region :: rest) st q
  = '(st', q', out) ← flowRegions useKeepWithNext split orc regionMetrics
                        rest st q;
    Some (st', q', [] :: out).
Proof. intros Hu. cbn [flowRegions]. rewrite Hu. reflexivity. Qed.

Lemma usable_none {Region} (regionMetrics : Region -> option Metrics)
    region m :
  regionMetrics region = Some m ->
  (availableHeight m <= 0)%Q \/ (innerWidth m <= 0)%Q ->
  usable regionMetrics region = None.
Proof.
  intros Hm Hle. unfold usable. rewrite Hm. cbn [mbind option_bind].
  destruct Hle as [Hle | Hle]; apply Qleb_le in Hle; rewrite Hle;
    [reflexivity | rewrite orb_true_r; reflexivity].
Qed.

(** C9. In the [for] loop of either copy of [flow], a region whose metrics
    show an available height or an inner width of zero or less receives
    nothing and leaves the store and the queue as they were; the loop goes
    on with the regions after it. *)
Theorem region_without_room_skipped {Region} useKeepWithNext split orc
    (regionMetrics : Region -> option Metrics) region rest st q m :
  regionMetrics region = Some m ->
  (availableHeight m <= 0)%Q \/ (innerWidth m <= 0)%Q ->
  flowRegions useKeepWithNext split orc regionMetrics (region :: rest) st q
  = '(st', q', out) ← flowRegions useKeepWithNext split orc regionMetrics
                        rest st q;
    Some (st', q', [] :: out).
Proof.
  intros Hm Hle. apply unusable_region_skipped.
  eapply usable_none; eassumption.
Qed.

Lemma region_without_room_skipped_witness :
  flowRegions true (TextFlow.splitParagraph narrowOracle) narrowOracle
    TextFlow.regionMetrics [regionOfHeight 0; regionOfHeight 50]
    [fiveWords] [0]
  = '(st', q', out) ← flowRegions true (TextFlow.splitParagraph narrowOracle)
                        narrowOracle TextFlow.regionMetrics
                        [regionOfHeight 50] [fiveWords] [0];
    Some (st', q', [] :: out).
Proof.
  apply (region_without_room_skipped true
           (TextFlow.splitParagraph narrowOracle) narrowOracle
           TextFlow.regionMetrics (regionOfHeight 0) [regionOfHeight 50]
           [fiveWords] [0]
           (TextFlow.getRegionMetrics (regionOfHeight 0) noPadding)).
  - reflexivity.
  - left. vm_compute. discriminate.
Defined.

(** ** The orphan floor *)

(** X6. The orphan floor of js/intro.js: a fragment that [splitParagraph]
    offers is at least [orphanProtection] lines tall and fits the available
    height, and an available height below [orphanProtection] lines is
    refused before any search. *)
Lemma TextFlow_splitParagraph_orphan_floor orc width block availHeight r :
  (0 <= lineHeightOf orc)%Q ->
  TextFlow.splitParagraph orc width block availHeight = Some r ->
  (fitsWords r <> 0 ->
   (jsMul (lineHeightOf orc) (orphanProtection block)
    <= rectHeight orc width (firstText r))%Q
   /\ (rectHeight orc width (firstText r) <= availHeight)%Q)
  /\ ((availHeight < jsMul (lineHeightOf orc) (orphanProtection block))%Q ->
      fitsWords r = 0 /\ firstText r = []).
Proof.
  intros Hlh Hr.
  assert (Hfloor : (jsMul (lineHeightOf orc) (orphanProtection block)
                    <= minHeight orc block)%Q).
  { unfold minHeight. apply jsMul_le_compat_l; [exact Hlh|].
    apply minLines_ge_orphanProtection. }
  destruct (splitParagraph_inv orc _ _ _ _ Hr)
    as [_ -> | _ -> _ | best Hb Hle -> Hmin Hfit Hfrag _];
    cbn [fitsWords firstText]; try (split; [congruence | auto]).
  split.
  - intros _. unfold fitsPrefix, prefixHeight in *. split; [|exact Hfit].
    eapply Qle_trans; eassumption.
  - intros Hlow. exfalso. apply (Qlt_not_le _ _ Hlow).
    eapply Qle_trans; eassumption.
Qed.

Lemma TextFlow_splitParagraph_orphan_floor_witness :
  (fitsWords fiveWordsSplit <> 0 ->
   (jsMul (lineHeightOf narrowOracle) (orphanProtection fiveWords)
    <= rectHeight narrowOracle (inject_Z 100) (firstText fiveWordsSplit))%Q
   /\ (rectHeight narrowOracle (inject_Z 100) (firstText fiveWordsSplit)
       <= inject_Z 60)%Q)
  /\ ((inject_Z 60 < jsMul (lineHeightOf narrowOracle) (orphanProtection fiveWords))%Q
      -> fitsWords fiveWordsSplit = 0 /\ firstText fiveWordsSplit = []).
Proof.
  apply (TextFlow_splitParagraph_orphan_floor narrowOracle (inject_Z 100)
           fiveWords (inject_Z 60) fiveWordsSplit).
  - vm_compute. discriminate.
  - vm_compute. reflexivity.
Defined.

(** C2 fails on js/text-flow-intro.js. Its [splitParagraph] never reads
    [orphanProtection]: for a paragraph of three words with the default
    floor of 2 lines, 20 pixel lines and 25 pixels available (less than the
    40 pixels of two lines), it offers the first word, a fragment of one
    line, and [flow] places it. *)
Theorem intro_variant_offers_one_line :
  TextFlowIntro.splitParagraph narrowOracle (inject_Z 100) threeWords
    (inject_Z 25) = Some oneLineFragment
  /\ (rectHeight narrowOracle (inject_Z 100) (firstText oneLineFragment)
      < jsMul (lineHeightOf narrowOracle) (orphanProtection threeWords))%Q
  /\ (inject_Z 25 < jsMul (lineHeightOf narrowOracle) (orphanProtection threeWords))%Q
  /\ content <$> TextFlowIntro.flow narrowOracle
                   (instanceOf [threeWords] [introRegionOfHeight 25])
     = Some [[{| nodes := [EParagraph (utf16 "a")];
                 measured := inject_Z 20 |}]]
  /\ TextFlow.splitParagraph narrowOracle (inject_Z 100) threeWords
       (inject_Z 25) = Some (refusal threeWords).
Proof.
  split; [vm_compute; reflexivity|].
  split; [vm_compute; reflexivity|].
  split; [vm_compute; reflexivity|].
  split; vm_compute; reflexivity.
Qed.

(** C10. A content record whose [orphanProtection] is the number 0 gives a
    block whose [orphanProtection] is that 0, yet [splitParagraph] of
    js/intro.js computes a floor of 2 lines for it, answers for it what it
    answers for the same block with [orphanProtection] 2, and so refuses
    any split when less than two line heights are available. *)
Theorem explicit_zero_orphan_protection index raw blk q :
  rorphanProtection raw = JNum q ->
  (q == 0)%Q ->
  buildBlock index raw = Some blk ->
  orphanProtection blk = q
  /\ TextFlow.minLines blk = 2%Q
  /\ (forall orc width availHeight,
         TextFlow.splitParagraph orc width blk availHeight
         = TextFlow.splitParagraph orc width (setOrphanProtection blk 2)
             availHeight)
  /\ (forall orc width availHeight r,
         TextFlow.splitParagraph orc width blk availHeight = Some r ->
         (availHeight < jsMul (lineHeightOf orc) 2)%Q ->
         fitsWords r = 0).
Proof.
  intros Hraw Hq Hbuild.
  assert (Hop : orphanProtection blk = q).
  { unfold buildBlock in Hbuild. rewrite Hraw in Hbuild.
    destruct (rtype raw) as [[|]|]; inversion Hbuild; reflexivity. }
  assert (Hmin : TextFlow.minLines blk = 2%Q).
  { unfold TextFlow.minLines, orDefault. rewrite Hop.
    apply Qeq_bool_iff in Hq. rewrite Hq. reflexivity. }
  split; [exact Hop|]. split; [exact Hmin|]. split.
  - intros orc width availHeight. unfold TextFlow.splitParagraph.
    rewrite Hmin. reflexivity.
  - intros orc width availHeight r Hr Hlow.
    destruct (splitParagraph_inv orc _ _ _ _ Hr)
      as [_ -> | _ -> _ | best _ _ _ Hfloor _ _ _]; try reflexivity.
    exfalso. unfold minHeight in Hfloor. rewrite Hmin in Hfloor.
    apply (Qlt_not_le _ _ Hlow Hfloor).
Qed.

Lemma explicit_zero_orphan_protection_witness :
  orphanProtection builtNoFloor = 0%Q
  /\ TextFlow.minLines builtNoFloor = 2%Q
  /\ (forall orc width availHeight,
         TextFlow.splitParagraph orc width builtNoFloor availHeight
         = TextFlow.splitParagraph orc width
             (setOrphanProtection builtNoFloor 2) availHeight)
  /\ (forall orc width availHeight r,
         TextFlow.splitParagraph orc width builtNoFloor availHeight = Some r ->
         (availHeight < jsMul (lineHeightOf orc) 2)%Q ->
         fitsWords r = 0).
Proof.
  apply (explicit_zero_orphan_protection 0 rawNoFloor builtNoFloor 0%Q).
  - reflexivity.
  - reflexivity.
  - reflexivity.
Defined.

(** ** The longest prefix *)

Lemma splitParagraph_longest orc width block availHeight r :
  monotoneHeights orc width (words (text block)) ->
  TextFlow.splitParagraph orc width block availHeight = Some r ->
  fitsWords r <> 0 ->
  firstText r = join (slice0 (fitsWords r) (words (text block)))
  /\ restText r = join (sliceFrom (fitsWords r) (words (text block)))
  /\ fitsPrefix orc width availHeight (words (text block)) (fitsWords r)
  /\ (minHeight orc block
      <= prefixHeight orc width (words (text block)) (fitsWords r))%Q
  /\ forall j, j <= length (words (text block)) ->
               fitsPrefix orc width availHeight (words (text block)) j ->
               j <= fitsWords r.
Proof.
  intros Hmono Hr Hfw.
  destruct (splitParagraph_inv orc _ _ _ _ Hr)
    as [_ -> | _ -> _ | best Hb Hle -> Hmin Hfit Hfrag Hnext];
    cbn [fitsWords firstText restText] in *; try congruence.
  repeat split; auto.
  intros j Hj Hjfit.
  destruct Hnext as [-> | Hnot]; [exact Hj|].
  destruct (le_lt_dec j best) as [Hok | Hgt]; [exact Hok|].
  exfalso.
  apply (not_fits_above orc width availHeight _ (best + 1) Hmono
           ltac:(lia) Hnot j ltac:(lia) Hj Hjfit).
Qed.

Lemma splitParagraph_refusal orc width block availHeight r :
  words (text block) <> [] ->
  TextFlow.splitParagraph orc width block availHeight = Some r ->
  fitsWords r = 0 ->
  r = refusal block.
Proof.
  intros Hne Hr Hfw.
  destruct (splitParagraph_inv orc _ _ _ _ Hr)
    as [Hnil _ | _ -> _ | best Hb Hle -> _ _ _ _];
    cbn [fitsWords] in *; [contradiction | reflexivity | lia].
Qed.

Lemma longest_fitting_unique orc width availHeight ws k best :
  monotoneHeights orc width ws ->
  1 <= k -> k <= length ws ->
  fitsPrefix orc width availHeight ws k ->
  (k = length ws \/ ~ fitsPrefix orc width availHeight ws (k + 1)) ->
  1 <= best -> best <= length ws ->
  fitsPrefix orc width availHeight ws best ->
  (best = length ws \/ ~ fitsPrefix orc width availHeight ws (best + 1)) ->
  best = k.
Proof.
  intros Hmono Hk Hkn Hkfit Hknext Hb Hbn Hbfit Hbnext.
  destruct (lt_eq_lt_dec best k) as [[Hlt | Heq] | Hgt]; [|exact Heq|]; exfalso.
  - destruct Hbnext as [-> | Hnot]; [lia|].
    apply (not_fits_above orc width availHeight ws (best + 1) Hmono
             ltac:(lia) Hnot k ltac:(lia) Hkn Hkfit).
  - destruct Hknext as [-> | Hnot]; [lia|].
    apply (not_fits_above orc width availHeight ws (k + 1) Hmono
             ltac:(lia) Hnot best ltac:(lia) Hbn Hbfit).
Qed.

(** When the floor does not stand in the way, the longest fitting prefix is
    what [splitParagraph] offers. *)
Lemma splitParagraph_offers orc width block availHeight r k :
  monotoneHeights orc width (words (text block)) ->
  TextFlow.splitParagraph orc width block availHeight = Some r ->
  1 <= k -> k <= length (words (text block)) ->
  fitsPrefix orc width availHeight (words (text block)) k ->
  (k = length (words (text block))
   \/ ~ fitsPrefix orc width availHeight (words (text block)) (k + 1)) ->
  (minHeight orc block <= availHeight)%Q ->
  (minHeight orc block <= prefixHeight orc width (words (text block)) k)%Q ->
  fitsWords r = k.
Proof.
  intros Hmono Hr Hk Hkn Hkfit Hknext Hfloor Hkfloor.
  destruct (splitParagraph_inv orc _ _ _ _ Hr)
    as [Hnil _ | _ _ Hwhy | best Hb Hle -> _ Hfit _ Hnext].
  - rewrite Hnil in Hkn. cbn in Hkn. lia.
  - exfalso. destruct Hwhy as [Hlow | [Hnone | (best & Hb & Hbn & Hbfit & Hbnext & Hshort)]].
    + apply (Qlt_not_le _ _ Hlow Hfloor).
    + apply Hnone. unfold fitsPrefix in *.
      eapply Qle_trans; [apply (Hmono 1 k); lia | exact Hkfit].
    + rewrite (longest_fitting_unique _ _ _ _ k best Hmono Hk Hkn Hkfit Hknext
                 Hb Hbn Hbfit Hbnext) in Hshort.
      apply (Qlt_not_le _ _ Hshort Hkfloor).
  - cbn [fitsWords].
    apply (longest_fitting_unique _ _ _ _ k best Hmono Hk Hkn Hkfit Hknext
             Hb Hle Hfit Hnext).
Qed.

Lemma fragment_placed useKeepWithNext split orc width availHeight s q0 qr b sp :
  queue s = q0 :: qr ->
  store s !! q0 = Some b ->
  pairCase useKeepWithNext b (queue s) = false ->
  type b = paragraph ->
  (0 < jsSub availHeight (used s))%Q ->
  (jsSub availHeight (used s) < measureHeight orc width [blockEl b])%Q ->
  split width b (jsSub availHeight (used s)) = Some sp ->
  fitsWords sp <> 0 ->
  (measureHeight orc width [elFactory b (Some (firstText sp))]
   <= jsSub availHeight (used s))%Q ->
  iteration useKeepWithNext split orc width availHeight s
  = Some (Continue (afterFragment orc width s q0 b sp))
  /\ store (afterFragment orc width s q0 b sp) !! q0
     = Some (setText b (restText sp)).
Proof.
  intros Hq Hb Hpair Hty Hrem Hbig Hsp Hfw Hfrag.
  rewrite (iteration_unfold _ _ _ _ _ _ _ _ _ Hq Hb).
  unfold chooseAction. unfold pairCase in Hpair.
  apply Qleb_gt in Hrem, Hbig. apply Qleb_le in Hfrag.
  rewrite Hrem, Hpair, Hbig, Hty, Hsp. cbn [mbind option_bind].
  apply Nat.eqb_neq in Hfw. rewrite Hfw, Hfrag.
  cbn [mbind option_bind applyAction]. unfold afterFragment. rewrite Hq.
  split; [reflexivity|]. cbn [store].
  rewrite list_lookup_alter_eq, Hb. reflexivity.
Qed.

(** C3 (as amended). For a paragraph with at least one word at the head of
    the queue and measured heights that do not shrink when a word is added:
    the words of the two texts [splitParagraph] of js/intro.js returns are
    the words of the paragraph, in order; when it refuses ([fitsWords] 0)
    the first text is empty and the whole text is the rest; it offers the
    longest fitting prefix whenever the available height and the height of
    that prefix both reach the orphan floor; and when it offers a prefix,
    the first text is the longest prefix of words, joined by single spaces,
    whose measured height is at most the available height, that height is
    at least the orphan floor, the rest is the other words joined by single
    spaces, and, if the loop body then places the fragment, the rest becomes
    the text of the block at the head of the queue, whose [keepWithNext] and
    [orphanProtection] stay. *)
Theorem longest_prefix_and_remainder orc width availHeight s q0 qr b r :
  queue s = q0 :: qr ->
  store s !! q0 = Some b ->
  words (text b) <> [] ->
  monotoneHeights orc width (words (text b)) ->
  TextFlow.splitParagraph orc width b (jsSub availHeight (used s)) = Some r ->
  words (firstText r) ++ words (restText r) = words (text b)
  /\ (fitsWords r = 0 -> r = refusal b)
  /\ (forall k,
         1 <= k -> k <= length (words (text b)) ->
         fitsPrefix orc width (jsSub availHeight (used s)) (words (text b)) k ->
         (k = length (words (text b))
          \/ ~ fitsPrefix orc width (jsSub availHeight (used s)) (words (text b))
                (k + 1)) ->
         (minHeight orc b <= jsSub availHeight (used s))%Q ->
         (minHeight orc b <= prefixHeight orc width (words (text b)) k)%Q ->
         fitsWords r = k)
  /\ (fitsWords r <> 0 ->
      (firstText r = join (slice0 (fitsWords r) (words (text b)))
       /\ restText r = join (sliceFrom (fitsWords r) (words (text b)))
       /\ fitsPrefix orc width (jsSub availHeight (used s)) (words (text b))
            (fitsWords r)
       /\ (minHeight orc b
           <= prefixHeight orc width (words (text b)) (fitsWords r))%Q
       /\ forall j, j <= length (words (text b)) ->
                    fitsPrefix orc width (jsSub availHeight (used s))
                      (words (text b)) j ->
                    j <= fitsWords r)
      /\ (pairCase true b (queue s) = false ->
          type b = paragraph ->
          (0 < jsSub availHeight (used s))%Q ->
          (jsSub availHeight (used s) < measureHeight orc width [blockEl b])%Q ->
          (measureHeight orc width [elFactory b (Some (firstText r))]
           <= jsSub availHeight (used s))%Q ->
          iteration true (TextFlow.splitParagraph orc) orc width availHeight s
          = Some (Continue (afterFragment orc width s q0 b r))
          /\ store (afterFragment orc width s q0 b r) !! q0
             = Some (setText b (restText r))
          /\ keepWithNext (setText b (restText r)) = keepWithNext b
          /\ orphanProtection (setText b (restText r)) = orphanProtection b)).
Proof.
  intros Hq Hb Hne Hmono Hr.
  split; [eapply TextFlow_split_words; exact Hr|].
  split; [apply (splitParagraph_refusal _ _ _ _ _ Hne Hr)|].
  split; [intros k; apply (splitParagraph_offers _ _ _ _ _ k Hmono Hr)|].
  intros Hfw. split; [apply (splitParagraph_longest _ _ _ _ _ Hmono Hr Hfw)|].
  intros Hpair Hty Hrem Hbig Hfrag.
  destruct (fragment_placed true (TextFlow.splitParagraph orc) orc width
              availHeight s q0 qr b r Hq Hb Hpair Hty Hrem Hbig Hr Hfw Hfrag)
    as [Hit Hst].
  repeat split; assumption.
Qed.

Lemma linesHeight_le a b : a <= b -> (linesHeight a <= linesHeight b)%Q.
Proof. intros H. unfold linesHeight. rewrite <- Zle_Qle. lia. Qed.

(** In the narrow column the measured height grows with the words. *)
Lemma narrow_monotone width t : monotoneHeights narrowOracle width (words t).
Proof.
  intros j k _ Hjk _. unfold prefixHeight. cbn [rectHeight narrowOracle].
  rewrite !words_join_slice0. unfold slice0. rewrite !length_firstn.
  apply linesHeight_le. lia.
Qed.

Lemma longest_prefix_and_remainder_witness :
  words (firstText fiveWordsSplit) ++ words (restText fiveWordsSplit)
  = words (text fiveWords)
  /\ iteration true (TextFlow.splitParagraph narrowOracle) narrowOracle
       (inject_Z 100) (inject_Z 100) fiveWordsLater
     = Some (Continue (afterFragment narrowOracle (inject_Z 100)
                         fiveWordsLater 0 fiveWords fiveWordsSplit))
  /\ store (afterFragment narrowOracle (inject_Z 100) fiveWordsLater 0
              fiveWords fiveWordsSplit) !! 0
     = Some (setText fiveWords (utf16 "d e")).
Proof.
  destruct (longest_prefix_and_remainder narrowOracle (inject_Z 100)
              (inject_Z 100) fiveWordsLater 0 [] fiveWords fiveWordsSplit)
    as (Hw & _ & _ & Hfit).
  - reflexivity.
  - reflexivity.
  - vm_compute. discriminate.
  - apply narrow_monotone.
  - vm_compute. reflexivity.
  - split; [exact Hw|].
    destruct (Hfit ltac:(discriminate)) as (_ & Hplace).
    destruct Hplace as (Hit & Hst & _).
    + reflexivity.
    + reflexivity.
    + reflexivity.
    + reflexivity.
    + vm_compute. discriminate.
    + split; [exact Hit | exact Hst].
Defined.

(** C3 (as stated) fails: the orphan floor stands between the paragraph and
    its longest fitting prefix. With lines of 20 pixels, a floor of 2 lines
    and 30 pixels available, the first word alone measures 20 pixels and
    fits, yet [splitParagraph] of js/intro.js returns no word at all. *)
Lemma longest_prefix_refused_by_floor :
  ~ (forall orc width b availHeight r,
        words (text b) <> [] ->
        monotoneHeights orc width (words (text b)) ->
        TextFlow.splitParagraph orc width b availHeight = Some r ->
        forall j, j <= length (words (text b)) ->
                  fitsPrefix orc width availHeight (words (text b)) j ->
                  j <= fitsWords r).
Proof.
  intros H.
  specialize (H narrowOracle (inject_Z 100) threeWords (inject_Z 30)
                (refusal threeWords)).
  assert (Hle : 1 <= fitsWords (refusal threeWords)).
  { apply H.
    - vm_compute. discriminate.
    - apply narrow_monotone.
    - vm_compute. reflexivity.
    - vm_compute. lia.
    - vm_compute. discriminate. }
  cbn in Hle. lia.
Qed.

(** ** Both copies of [flow] return *)

(** X4. [flow] of js/intro.js returns, whatever the browser measures: the
    binary search of [splitParagraph] ends, and the [while] loop of each
    region ends because every pass through its body that does not [break]
    takes a block off the queue or leaves fewer words in the block at its
    head. *)
Lemma TextFlow_flow_total orc (tf : Instance TextFlow.Region) :
  ValidRefs tf -> exists tf', TextFlow.flow orc tf = Some tf'.
Proof.
  intros Hvalid. apply flowPass_total.
  - apply TextFlow_split_shrinks.
  - apply ValidRefs_lt, Hvalid.
Qed.

Lemma TextFlow_flow_total_witness :
  exists tf', TextFlow.flow marginOracle twoRegions = Some tf'.
Proof.
  apply (TextFlow_flow_total marginOracle twoRegions).
  repeat constructor.
Defined.

(** X5. [flow] of js/text-flow-intro.js returns, whatever the browser
    measures: a fragment that its word-by-word [splitParagraph] offers
    always leaves fewer words in the paragraph, so the [while] loop of a
    region cannot go on for ever. *)
Lemma TextFlowIntro_flow_total orc (tf : Instance TextFlowIntro.Region) :
  ValidRefs tf -> exists tf', TextFlowIntro.flow orc tf = Some tf'.
Proof.
  intros Hvalid. apply flowPass_total.
  - apply TextFlowIntro_split_shrinks.
  - apply ValidRefs_lt, Hvalid.
Qed.

Lemma TextFlowIntro_flow_total_witness :
  exists tf', TextFlowIntro.flow marginOracle introPairInstance = Some tf'.
Proof.
  apply (TextFlowIntro_flow_total marginOracle introPairInstance).
  repeat constructor.
Defined.

(** * Further properties of the code *)

(** ** [splitParagraph] of js/text-flow-intro.js *)

Lemma join_nonEmpty l : Forall wordOk l -> l <> [] -> nonEmpty (join l) = true.
Proof.
  intros Hok Hne. destruct l as [|w l]; [congruence|].
  apply Forall_cons_1 in Hok as [[Hw _] _].
  destruct w as [|c w]; [congruence|].
  destruct l; reflexivity.
Qed.

Lemma join_snoc l w :
  Forall wordOk l ->
  join (l ++ [w])
  = join l ++ (if nonEmpty (join l) then [32%N] else []) ++ w.
Proof.
  induction l as [|w0 l IH]; intros Hok; [reflexivity|].
  pose proof (join_nonEmpty _ Hok ltac:(discriminate)) as Hne.
  rewrite Hne. apply Forall_cons_1 in Hok as [_ Hok].
  destruct l as [|w1 l]; [reflexivity|].
  change ((w0 :: w1 :: l) ++ [w]) with (w0 :: w1 :: (l ++ [w])).
  rewrite !join_cons. change (w1 :: l ++ [w]) with ((w1 :: l) ++ [w]).
  rewrite (IH Hok), (join_nonEmpty _ Hok ltac:(discriminate)).
  rewrite <- !app_assoc. reflexivity.
Qed.

Section GrowLoop.

Variable orc : Oracle.
Variables (width lineHeight : Q) (maxLines : JsInt).
Variable ws : list jsstring.
Hypothesis ws_ok : Forall wordOk ws.

Local Abbreviation fitsLines k :=
  (jsLe (ceilDiv (rectHeight orc width (join (take k ws))) lineHeight)
     maxLines).

(** The word-by-word loop stops at the first prefix with too many lines;
    its best text is the prefix of words before that one. *)
Lemma growLoop_spec rest : forall i,
  drop i ws = rest ->
  exists n,
    TextFlowIntro.growLoop orc width lineHeight maxLines rest i
      (join (take i ws)) (join (take i ws)) i
    = (join (take n ws), n)
    /\ i <= n /\ (i + length rest <= length ws -> n <= length ws)
    /\ (forall k, i < k -> k <= n -> fitsLines k = true)
    /\ (n = i + length rest \/ fitsLines (S n) = false).
Proof.
  induction rest as [|w rest IH]; intros i Hdrop; cbn [TextFlowIntro.growLoop].
  - exists i. repeat split; try lia. left. cbn. lia.
  - assert (Hi : ws !! i = Some w).
    { rewrite <- (Nat.add_0_r i), <- lookup_drop, Hdrop. reflexivity. }
    assert (Htest : join (take i ws)
                    ++ (if nonEmpty (join (take i ws)) then [32%N] else [])
                    ++ w = join (take (S i) ws)).
    { rewrite (take_S_r _ _ _ Hi), join_snoc; [reflexivity|].
      apply Forall_take, ws_ok. }
    rewrite Htest.
    destruct (jsLe _ maxLines) eqn:Hfit.
    + rewrite Nat.add_1_r.
      destruct (IH (S i)) as (n & Hn & Hle & Hlen & Hall & Hstop).
      { rewrite (drop_S _ _ _ Hi) in Hdrop. congruence. }
      exists n. rewrite Hn. split; [reflexivity|].
      cbn [length] in *. repeat split; try lia.
      * intros k Hk Hkn. destruct (decide (k = S i)) as [-> | Hne];
          [exact Hfit | apply Hall; lia].
      * destruct Hstop; [left; lia | right; assumption].
    + exists i. repeat split; try lia. right. exact Hfit.
Qed.

End GrowLoop.

(** What [splitParagraph] of js/text-flow-intro.js answers, for the words
    [ws] of the paragraph. *)
Lemma TextFlowIntro_split_spec orc width block availHeight :
  exists r,
    TextFlowIntro.splitParagraph orc width block availHeight = Some r
    /\ fitsWords r <= length (words (text block))
    /\ firstText r = join (take (fitsWords r) (words (text block)))
    /\ words (restText r) = drop (fitsWords r) (words (text block))
    /\ (fitsWords r <> 0 ->
        ltOne (floorDiv availHeight (lineHeightOf orc)) = false
        /\ (jsLe (linesOf orc width (firstText r))
              (floorDiv availHeight (lineHeightOf orc)) = true
            \/ (fitsWords r = 1
                /\ (rectHeight orc width (firstText r) <= availHeight)%Q))).
Proof.
  unfold TextFlowIntro.splitParagraph, linesOf.
  fold (lineHeightOf orc).
  pose proof (words_ok (text block)) as Hok.
  destruct (words (text block)) as [|w0 ws'] eqn:Ew.
  { eexists; split; [reflexivity|]. cbn.
    repeat split; auto; try lia. }
  cbn [length Nat.eqb].
  destruct (ltOne _) eqn:Hone.
  { eexists; split; [reflexivity|]. cbn [fitsWords firstText restText].
    rewrite Ew. repeat split; auto; try lia. }
  change (0 <? S (length ws')) with true.
  destruct (growLoop_spec orc width (lineHeightOf orc)
              (floorDiv availHeight (lineHeightOf orc)) (w0 :: ws') Hok
              (w0 :: ws') 0 eq_refl)
    as (n & Hn & _ & Hlen & Hall & _).
  change (take 0 (w0 :: ws')) with (@nil jsstring) in Hn.
  cbn [join] in Hn. rewrite Hn. clear Hn.
  remember (w0 :: ws') as ws eqn:Hws.
  destruct n as [|n].
  - cbn [Nat.eqb andb].
    destruct (Qleb (rectHeight orc width w0) availHeight) eqn:Hw0.
    + eexists; split; [reflexivity|]. cbn [fitsWords firstText restText].
      rewrite (words_join (sliceFrom 1 ws)) by (apply Forall_skipn, Hok).
      subst ws. repeat split; auto; try (cbn; lia).
      right. split; [reflexivity|]. apply Qleb_le, Hw0.
    + eexists; split; [reflexivity|]. cbn [fitsWords firstText restText].
      rewrite (words_join (sliceFrom 0 ws)) by (apply Forall_skipn, Hok).
      repeat split; auto; try (cbn; lia); try congruence.
  - cbn [Nat.eqb andb].
    eexists; split; [reflexivity|]. cbn [fitsWords firstText restText].
    rewrite (words_join (sliceFrom (S n) ws)) by (apply Forall_skipn, Hok).
    repeat split; auto.
    + subst ws. cbn [length] in Hlen. apply Hlen. lia.
    + left. apply Hall; lia.
Qed.

Lemma TextFlowIntro_split_words orc :
  SplitWords (TextFlowIntro.splitParagraph orc).
Proof.
  intros width block availHeight r Hr.
  destruct (TextFlowIntro_split_spec orc width block availHeight)
    as (r' & Hr' & _ & Hfirst & Hrest & _).
  assert (r' = r) by congruence. subst r'.
  rewrite Hfirst, Hrest.
  rewrite (words_join (take _ _)) by (apply Forall_take, words_ok).
  apply take_drop.
Qed.

Lemma jsLe_fin_floor_ceil h availHeight lineHeight :
  (0 < lineHeight)%Q ->
  jsLe (ceilDiv h lineHeight) (floorDiv availHeight lineHeight) = true ->
  (jsDiv h lineHeight <= jsDiv availHeight lineHeight)%Q.
Proof.
  intros Hlh. unfold ceilDiv, floorDiv.
  assert (Hz : Qeq_bool lineHeight 0 = false).
  { destruct (Qeq_bool lineHeight 0) eqn:E; [|reflexivity].
    apply Qeq_bool_iff in E. rewrite E in Hlh. discriminate Hlh. }
  rewrite Hz. cbn [jsLe]. intros Hle. apply Z.leb_le in Hle.
  pose proof (Qle_ceiling (jsDiv h lineHeight)) as Hc.
  pose proof (Qfloor_le (jsDiv availHeight lineHeight)) as Hf.
  rewrite Zle_Qle in Hle.
  eapply Qle_trans; [exact Hc|]. eapply Qle_trans; [exact Hle | exact Hf].
Qed.

(** X1. [splitParagraph] of js/text-flow-intro.js cuts between words and
    loses none: its first text is the first [fitsWords] words of the
    paragraph joined by single spaces, splitting its rest text again gives
    the other words, and the words of the two texts are the words of the
    paragraph, in order. *)
Theorem intro_variant_split_keeps_words orc width block availHeight r :
  TextFlowIntro.splitParagraph orc width block availHeight = Some r ->
  fitsWords r <= length (words (text block))
  /\ firstText r = join (slice0 (fitsWords r) (words (text block)))
  /\ words (restText r) = sliceFrom (fitsWords r) (words (text block))
  /\ words (firstText r) ++ words (restText r) = words (text block).
Proof.
  intros Hr.
  destruct (TextFlowIntro_split_spec orc width block availHeight)
    as (r' & Hr' & Hle & Hfirst & Hrest & _).
  assert (r' = r) by congruence. subst r'.
  repeat split; auto.
  eapply TextFlowIntro_split_words. exact Hr.
Qed.

Lemma intro_variant_split_keeps_words_witness :
  fitsWords oneLineFragment <= length (words (text threeWords))
  /\ firstText oneLineFragment
     = join (slice0 (fitsWords oneLineFragment) (words (text threeWords)))
  /\ words (restText oneLineFragment)
     = sliceFrom (fitsWords oneLineFragment) (words (text threeWords))
  /\ words (firstText oneLineFragment) ++ words (restText oneLineFragment)
     = words (text threeWords).
Proof.
  apply (intro_variant_split_keeps_words narrowOracle (inject_Z 100)
           threeWords (inject_Z 25)).
  vm_compute. reflexivity.
Defined.

(** X2. With a positive line height, [splitParagraph] of
    js/text-flow-intro.js offers a fragment only when the quotient it
    computes of the available height by the line height is at least 1; and
    the quotient it computes for the fragment it offers is at most that of
    the available height, unless the fragment is the first word alone, which
    is then at most as tall as the available height. *)
Theorem intro_variant_fragment_fits orc width block availHeight r :
  (0 < lineHeightOf orc)%Q ->
  TextFlowIntro.splitParagraph orc width block availHeight = Some r ->
  fitsWords r <> 0 ->
  (1 <= jsDiv availHeight (lineHeightOf orc))%Q
  /\ ((jsDiv (rectHeight orc width (firstText r)) (lineHeightOf orc)
       <= jsDiv availHeight (lineHeightOf orc))%Q
      \/ (fitsWords r = 1
          /\ (rectHeight orc width (firstText r) <= availHeight)%Q)).
Proof.
  intros Hlh Hr Hfw.
  destruct (TextFlowIntro_split_spec orc width block availHeight)
    as (r' & Hr' & _ & _ & _ & Hoff).
  assert (r' = r) by congruence. subst r'.
  destruct (Hoff Hfw) as [Hone Hfit]. split.
  - unfold floorDiv in Hone.
    assert (Hz : Qeq_bool (lineHeightOf orc) 0 = false).
    { destruct (Qeq_bool (lineHeightOf orc) 0) eqn:E; [|reflexivity].
      apply Qeq_bool_iff in E. rewrite E in Hlh. discriminate Hlh. }
    rewrite Hz in Hone. cbn [ltOne] in Hone. apply Z.ltb_ge in Hone.
    pose proof (Qfloor_le (jsDiv availHeight (lineHeightOf orc))) as Hf.
    rewrite Zle_Qle in Hone.
    eapply Qle_trans; [exact Hone | exact Hf].
  - destruct Hfit as [Hlines | Hone1]; [left | right; exact Hone1].
    eapply jsLe_fin_floor_ceil; [exact Hlh | exact Hlines].
Qed.

Lemma intro_variant_fragment_fits_witness :
  (1 <= jsDiv (inject_Z 25) (lineHeightOf narrowOracle))%Q
  /\ ((jsDiv (rectHeight narrowOracle (inject_Z 100)
                (firstText oneLineFragment)) (lineHeightOf narrowOracle)
       <= jsDiv (inject_Z 25) (lineHeightOf narrowOracle))%Q
      \/ (fitsWords oneLineFragment = 1
          /\ (rectHeight narrowOracle (inject_Z 100)
                (firstText oneLineFragment) <= inject_Z 25)%Q)).
Proof.
  apply (intro_variant_fragment_fits narrowOracle (inject_Z 100) threeWords
           (inject_Z 25) oneLineFragment).
  - vm_compute. reflexivity.
  - vm_compute. reflexivity.
  - discriminate.
Defined.

(** X23. [splitParagraph] of js/text-flow-intro.js compares counts of
    lines, each the rounded quotient of a height by the line height, and
    not the heights: with 19.2 pixel lines and 57.599999999999994 pixels
    available, the double just under three lines, it counts three lines
    available and offers the whole paragraph of three words, which
    measures 57.6 pixels, more than is available. [flow] measures the
    fragment offered once more, finds it too tall and leaves the region
    empty. *)
Theorem intro_variant_offers_too_tall_fragment :
  TextFlowIntro.splitParagraph lineOracle (inject_Z 100) threeWords
    underThreeLines = Some wholeFragment
  /\ (underThreeLines
      < rectHeight lineOracle (inject_Z 100) (firstText wholeFragment))%Q
  /\ floorDiv underThreeLines (lineHeightOf lineOracle) = Fin 3
  /\ linesOf lineOracle (inject_Z 100) (firstText wholeFragment) = Fin 3
  /\ availableHeight <$> TextFlowIntro.regionMetrics underThreeLinesRegion
     = Some (Qred underThreeLines)
  /\ content <$> TextFlowIntro.flow lineOracle
                   (instanceOf [threeWords] [underThreeLinesRegion])
     = Some [[]].
Proof. repeat split; vm_compute; reflexivity. Qed.

(** ** Passes of either copy of [flow] *)

Lemma flowPass_words {Region} useKeepWithNext split orc
    (regionMetrics : Region -> option Metrics) (tf tf' : Instance Region) bs :
  SplitWords split ->
  Forall BuiltOk bs ->
  View (heap tf) (blocks tf) bs ->
  blocks tf <> [] ->
  regions tf <> [] ->
  flowPass useKeepWithNext split orc regionMetrics tf = Some tf' ->
  exists missing,
    wordsOfBlocks bs = wordsOfLog (concat (content tf')) ++ missing.
Proof.
  intros Hsplit Hok Hv Hb Hr Hpass.
  destruct (flowPass_inv _ _ _ _ _ _
              (ValidRefs_lt _ (View_ValidRefs _ _ Hv)) Hpass)
    as [[[Hnil | Hnil] _] | (bs0 & Hruns & _)]; try contradiction.
  destruct Hruns as (_ & _ & Hv0 & bs' & Hp).
  rewrite <- (View_functional _ _ _ _ Hv Hv0) in Hp.
  exists (wordsOfBlocks bs'). symmetry.
  eapply pureRegions_words; eassumption.
Qed.

(** X3. In a pass of js/text-flow-intro.js over the blocks built from a
    content document, the words of the nodes placed, region after region,
    are the first words of the document's blocks in document order: the
    word-by-word splitter reorders and repeats nothing either. *)
Theorem intro_variant_order_preserved orc raw
    (tf tf' : Instance TextFlowIntro.Region) :
  View (heap tf) (blocks tf) (buildBlocks raw) ->
  blocks tf <> [] ->
  regions tf <> [] ->
  TextFlowIntro.flow orc tf = Some tf' ->
  exists missing,
    wordsOfBlocks (buildBlocks raw)
    = wordsOfLog (concat (content tf')) ++ missing.
Proof.
  intros Hv Hb Hr Hpass.
  eapply flowPass_words; try eassumption.
  - apply TextFlowIntro_split_words.
  - apply buildBlocks_BuiltOk.
Qed.

Lemma intro_variant_order_preserved_witness :
  exists tf',
    TextFlowIntro.flow narrowOracle introBuiltInstance = Some tf'
    /\ exists missing,
         wordsOfBlocks (buildBlocks rawContent)
         = wordsOfLog (concat (content tf')) ++ missing.
Proof.
  eexists. split.
  - vm_compute. reflexivity.
  - apply (intro_variant_order_preserved narrowOracle rawContent
             introBuiltInstance).
    + repeat constructor.
    + discriminate.
    + discriminate.
    + vm_compute. reflexivity.
Defined.

(** ** The fields [flow] of js/text-flow-intro.js does not read *)

Lemma SameLayout_elFactory b b' arg :
  SameLayout b b' -> elFactory b arg = elFactory b' arg.
Proof.
  intros (Hty & Hlv & _ & Hel). unfold elFactory. rewrite Hty, Hlv, Hel.
  reflexivity.
Qed.

Lemma SameLayout_blockEl b b' : SameLayout b b' -> blockEl b = blockEl b'.
Proof.
  intros Hs. unfold blockEl.
  rewrite !(SameLayout_elFactory _ _ _ Hs).
  destruct Hs as (-> & _ & -> & _). reflexivity.
Qed.

Lemma SameLayout_setText b b' t :
  SameLayout b b' -> SameLayout (setText b t) (setText b' t).
Proof. intros (Hty & Hlv & _ & Hel). repeat split; assumption. Qed.

Lemma SameLayout_weight bs bs' :
  Forall2 SameLayout bs bs' -> pureWeight bs = pureWeight bs'.
Proof.
  induction 1 as [|b b' bs bs' (_ & _ & Htx & _) _ IH]; [reflexivity|].
  rewrite !pureWeight_cons, IH. unfold blockWeight. rewrite Htx. reflexivity.
Qed.

Lemma TextFlowIntro_split_reads_layout orc :
  SplitReadsLayout (TextFlowIntro.splitParagraph orc).
Proof.
  intros width b b' availHeight (_ & _ & Htx & _).
  unfold TextFlowIntro.splitParagraph. rewrite Htx. reflexivity.
Qed.

Section LayoutOnly.

Context {Region : Type}.
Variable split : Q -> Block -> Q -> option SplitResult.
Variable orc : Oracle.
Variable regionMetrics : Region -> option Metrics.
Hypothesis split_reads : SplitReadsLayout split.

Local Abbreviation piter := (pureIteration false split orc).
Local Abbreviation ploop := (pureLoop false split orc).
Local Abbreviation pregions := (pureRegions false split orc regionMetrics).

Lemma chooseAction_SameLayout width availHeight usedHeight b b' qlen
    next next' :
  SameLayout b b' ->
  chooseAction false split orc width availHeight usedHeight b qlen next
  = chooseAction false split orc width availHeight usedHeight b' qlen next'.
Proof.
  intros Hs. unfold chooseAction. cbn [andb].
  rewrite (SameLayout_blockEl _ _ Hs).
  rewrite (split_reads width b b' (jsSub availHeight usedHeight) Hs).
  destruct (split width b' (jsSub availHeight usedHeight)) as [sp|];
    cbn [mbind option_bind];
    [rewrite (SameLayout_elFactory _ _ (Some (firstText sp)) Hs)|];
    destruct Hs as (-> & _); reflexivity.
Qed.

Lemma pureIteration_SameLayout width availHeight ps ps' :
  SameLayoutState ps ps' ->
  match piter width availHeight ps, piter width availHeight ps' with
  | Some (PContinue r), Some (PContinue r') => SameLayoutState r r'
  | Some PBreak, Some PBreak => True
  | None, None => True
  | _, _ => False
  end.
Proof.
  destruct ps as [q u p], ps' as [q' u' p'].
  intros (Hq & Hu & Hp). cbn [pqueue pused pplaced] in *. subst u' p'.
  unfold pureIteration. cbn [pqueue pused].
  destruct Hq as [|b b' bs bs' Hb Hbs]; [exact I|].
  cbn [length]. rewrite <- (Forall2_length Hbs).
  rewrite (chooseAction_SameLayout width availHeight u b b'
             (S (length bs)) (head bs) (head bs') Hb).
  destruct (chooseAction _ _ _ _ _ _ b' _ _) as [a|];
    cbn [mbind option_bind]; [|exact I].
  destruct a; cbn [pureApply pqueue pused pplaced]; try exact I;
    repeat split; cbn [pqueue pused pplaced]; auto.
  - apply Forall2_drop. constructor; assumption.
  - constructor; [apply SameLayout_setText; exact Hb | exact Hbs].
Qed.

Lemma pureLoop_SameLayout width availHeight fuel : forall ps ps',
  SameLayoutState ps ps' ->
  match ploop fuel width availHeight ps, ploop fuel width availHeight ps' with
  | Some r, Some r' => SameLayoutState r r'
  | None, None => True
  | _, _ => False
  end.
Proof.
  induction fuel as [|fuel IH]; intros ps ps' Hs; cbn [pureLoop];
    pose proof Hs as (Hq & _);
    destruct (pqueue ps) as [|b bs] eqn:Eq, (pqueue ps') as [|b' bs'] eqn:Eq';
    try (inversion Hq; fail); try exact Hs; try exact I.
  pose proof (pureIteration_SameLayout width availHeight ps ps' Hs) as Hit.
  destruct (piter width availHeight ps) as [[r|]|],
           (piter width availHeight ps') as [[r'|]|];
    cbn [mbind option_bind]; try contradiction; try exact I.
  - apply IH. exact Hit.
  - exact Hs.
Qed.

Lemma pureRegions_SameLayout regions : forall bs bs',
  Forall2 SameLayout bs bs' ->
  match pregions regions bs, pregions regions bs' with
  | Some (r, out), Some (r', out') => Forall2 SameLayout r r' /\ out = out'
  | None, None => True
  | _, _ => False
  end.
Proof.
  induction regions as [|region rest IH]; intros bs bs' Hbs;
    cbn [pureRegions]; [auto|].
  destruct (usable regionMetrics region) as [m|].
  - rewrite <- (SameLayout_weight _ _ Hbs).
    pose proof (pureLoop_SameLayout (innerWidth m) (availableHeight m)
                  (pureWeight bs)
                  {| pqueue := bs; pused := 0; pplaced := [] |}
                  {| pqueue := bs'; pused := 0; pplaced := [] |}) as Hl.
    destruct (ploop _ _ _ {| pqueue := bs |}) as [ps|],
             (ploop _ _ _ {| pqueue := bs' |}) as [ps'|];
      cbn [mbind option_bind];
      try (exfalso; apply Hl; repeat split; assumption); [|exact I].
    destruct Hl as (Hq & _ & Hp); [repeat split; assumption|].
    specialize (IH _ _ Hq).
    destruct (pregions rest (pqueue ps)) as [[r out]|],
             (pregions rest (pqueue ps')) as [[r' out']|];
      cbn [mbind option_bind]; try contradiction; [|exact I].
    destruct IH as [Hr ->]. rewrite Hp. auto.
  - specialize (IH _ _ Hbs).
    destruct (pregions rest bs) as [[r out]|],
             (pregions rest bs') as [[r' out']|];
      cbn [mbind option_bind]; try contradiction; [|exact I].
    destruct IH as [Hr ->]. auto.
Qed.

End LayoutOnly.

(** X7. [flow] of js/text-flow-intro.js reads neither [keepWithNext] nor
    [orphanProtection] (nor the id of a block): two instances with the same
    regions whose blocks agree on type, level and text receive the same
    content, region by region, whatever these fields hold. *)
Theorem intro_variant_ignores_flags orc
    (tf1 tf2 tf1' tf2' : Instance TextFlowIntro.Region) bs1 bs2 :
  View (heap tf1) (blocks tf1) bs1 ->
  View (heap tf2) (blocks tf2) bs2 ->
  Forall2 SameLayout bs1 bs2 ->
  regions tf1 = regions tf2 ->
  content tf1 = content tf2 ->
  TextFlowIntro.flow orc tf1 = Some tf1' ->
  TextFlowIntro.flow orc tf2 = Some tf2' ->
  content tf1' = content tf2'.
Proof.
  intros Hv1 Hv2 Hbs Hregions Hcontent Hp1 Hp2.
  unfold TextFlowIntro.flow in Hp1, Hp2.
  pose proof (Forall2_length Hv1) as Hl1.
  pose proof (Forall2_length Hv2) as Hl2.
  pose proof (Forall2_length Hbs) as Hl.
  destruct (flowPass_inv _ _ _ _ _ _
              (ValidRefs_lt _ (View_ValidRefs _ _ Hv1)) Hp1)
    as [[Hidle ->] | (bs1' & (Hb1 & Hr1 & Hv1' & r1 & Hpure1) & _)].
  { rewrite flowPass_idle in Hp2.
    - injection Hp2 as <-. exact Hcontent.
    - destruct Hidle as [Hnil | Hnil]; [left | right; congruence].
      rewrite Hnil in Hl1. apply length_zero_iff_nil. cbn in Hl1. lia. }
  destruct (flowPass_inv _ _ _ _ _ _
              (ValidRefs_lt _ (View_ValidRefs _ _ Hv2)) Hp2)
    as [[Hidle ->] | (bs2' & (Hb2 & Hr2 & Hv2' & r2 & Hpure2) & _)].
  { exfalso. destruct Hidle as [Hnil | Hnil]; [|congruence].
    apply Hb1. apply length_zero_iff_nil. rewrite Hnil in Hl2.
    cbn in Hl2. lia. }
  rewrite <- (View_functional _ _ _ _ Hv1 Hv1') in Hpure1.
  rewrite <- (View_functional _ _ _ _ Hv2 Hv2') in Hpure2.
  pose proof (pureRegions_SameLayout (TextFlowIntro.splitParagraph orc) orc
                TextFlowIntro.regionMetrics
                (TextFlowIntro_split_reads_layout orc)
                (regions tf1) bs1 bs2 Hbs) as Hsame.
  rewrite Hpure1 in Hsame. rewrite <- Hregions in Hpure2.
  rewrite Hpure2 in Hsame. apply Hsame.
Qed.

Lemma intro_variant_ignores_flags_witness :
  exists tf1' tf2',
    TextFlowIntro.flow narrowOracle introPairInstance = Some tf1'
    /\ TextFlowIntro.flow narrowOracle introOtherFlagsInstance = Some tf2'
    /\ content tf1' = content tf2'.
Proof.
  eexists. eexists. split; [vm_compute; reflexivity|].
  split; [vm_compute; reflexivity|].
  apply (intro_variant_ignores_flags narrowOracle introPairInstance
           introOtherFlagsInstance _ _ keptPair keptPairOtherFlags).
  - repeat constructor.
  - repeat constructor.
  - repeat constructor.
  - reflexivity.
  - reflexivity.
  - vm_compute. reflexivity.
  - vm_compute. reflexivity.
Defined.

(** ** The shape of what a pass places *)

Lemma NodeOk_elFactory b arg : NodeOk (elFactory b arg).
Proof.
  unfold elFactory, createHeading, createParagraph.
  destruct (type b); cbn [NodeOk]; [lia | exact I].
Qed.

Lemma NodeOk_blockEl b : NodeOk (blockEl b).
Proof. unfold blockEl. destruct (type b); apply NodeOk_elFactory. Qed.

Section Shape.

Context {Region : Type}.
Variable useKeepWithNext : bool.
Variable split : Q -> Block -> Q -> option SplitResult.
Variable orc : Oracle.
Variable regionMetrics : Region -> option Metrics.

Lemma pureLoop_shape width availHeight fuel ps ps' :
  pureLoop useKeepWithNext split orc fuel width availHeight ps = Some ps' ->
  Forall (PlacementOk useKeepWithNext orc width) (pplaced ps) ->
  Forall (PlacementOk useKeepWithNext orc width) (pplaced ps').
Proof.
  apply (pureLoop_invariant useKeepWithNext split orc width availHeight
           (fun ps => Forall (PlacementOk useKeepWithNext orc width)
                        (pplaced ps))).
  clear. intros ps ps' b bs a Hq Hok Hap Hlog.
  destruct a; cbn [pureApply ActionOk] in *; try discriminate.
  - injection Hap as <-. cbn [pplaced].
    destruct Hok as (_ & Hpair & nb & _ & -> & -> & -> & _).
    apply Forall_app. split; [exact Hlog|]. constructor; [|constructor].
    unfold PlacementOk. cbn [nodes measured length].
    split; [|split; [right|reflexivity]].
    + constructor; [apply NodeOk_elFactory|].
      constructor; [apply NodeOk_blockEl | constructor].
    + split; [|reflexivity].
      destruct useKeepWithNext; [reflexivity | discriminate Hpair].
  - injection Hap as <-. cbn [pplaced].
    destruct Hok as (_ & _ & -> & -> & _).
    apply Forall_app. split; [exact Hlog|]. constructor; [|constructor].
    unfold PlacementOk. cbn [nodes measured length].
    split; [|split; [left; reflexivity | reflexivity]].
    constructor; [apply NodeOk_blockEl | constructor].
  - rewrite Hq in Hap. injection Hap as <-. cbn [pplaced].
    destruct Hok as (_ & _ & _ & _ & sp & _ & _ & -> & -> & _).
    apply Forall_app. split; [exact Hlog|]. constructor; [|constructor].
    unfold PlacementOk. cbn [nodes measured length].
    split; [|split; [left; reflexivity | reflexivity]].
    constructor; [apply NodeOk_elFactory | constructor].
Qed.

Lemma pureRegions_shape regions : forall bs bs' out,
  pureRegions useKeepWithNext split orc regionMetrics regions bs
  = Some (bs', out) ->
  Forall2 (RegionPlacements useKeepWithNext orc regionMetrics) regions out.
Proof.
  induction regions as [|region rest IH]; intros bs bs' out;
    cbn [pureRegions].
  - intros [= <- <-]. constructor.
  - destruct (usable regionMetrics region) as [m|] eqn:Hu.
    + destruct (pureLoop _ _ _ _ _ _ _) as [ps|] eqn:Hloop; [|discriminate].
      cbn [mbind option_bind].
      destruct (pureRegions _ _ _ _ rest (pqueue ps)) as [[bs1 out1]|]
        eqn:Hrest; [|discriminate].
      cbn. intros [= <- <-]. constructor; [|eauto].
      unfold RegionPlacements. rewrite Hu.
      apply (pureLoop_shape _ _ _ _ _ Hloop). constructor.
    + destruct (pureRegions _ _ _ _ rest bs) as [[bs1 out1]|] eqn:Hrest;
        [|discriminate].
      cbn. intros [= <- <-]. constructor; [|eauto].
      unfold RegionPlacements. rewrite Hu. reflexivity.
Qed.

End Shape.

(** X8. What a pass of either copy of [flow] puts into a region: every
    placement is one node, or two nodes where the loop has the
    keep-with-next branch (never in js/text-flow-intro.js); every node is a
    paragraph or a heading of level 2, 3 or 4, whatever level the content
    gives; and the height counted for a placement is what [measureHeight]
    gives for its nodes at the inner width of that region. *)
Theorem placements_well_formed {Region} useKeepWithNext split orc
    (regionMetrics : Region -> option Metrics) (tf tf' : Instance Region) :
  ValidRefs tf ->
  blocks tf <> [] ->
  regions tf <> [] ->
  flowPass useKeepWithNext split orc regionMetrics tf = Some tf' ->
  Forall2 (RegionPlacements useKeepWithNext orc regionMetrics)
    (regions tf) (content tf').
Proof.
  intros Hvalid Hb Hr Hpass.
  destruct (flowPass_inv _ _ _ _ _ _ (ValidRefs_lt _ Hvalid) Hpass)
    as [[[Hnil | Hnil] _] | (bs & Hruns & _)]; try contradiction.
  destruct Hruns as (_ & _ & _ & bs' & Hp).
  eapply pureRegions_shape. exact Hp.
Qed.

Lemma placements_well_formed_witness :
  exists tf',
    TextFlowIntro.flow narrowOracle introPairInstance = Some tf'
    /\ Forall2 (RegionPlacements false narrowOracle
                  TextFlowIntro.regionMetrics)
         (regions introPairInstance) (content tf').
Proof.
  eexists. split.
  - vm_compute. reflexivity.
  - apply (placements_well_formed false
             (TextFlowIntro.splitParagraph narrowOracle) narrowOracle
             TextFlowIntro.regionMetrics introPairInstance).
    + repeat constructor.
    + discriminate.
    + discriminate.
    + vm_compute. reflexivity.
Defined.

(** ** Content that fits *)

Lemma pureWeight_length bs : length bs <= pureWeight bs.
Proof.
  induction bs as [|b bs IH]; [reflexivity|].
  rewrite pureWeight_cons. pose proof (blockWeight_pos b). cbn [length]. lia.
Qed.

Section FitsWhole.

Context {Region : Type}.
Variable useKeepWithNext : bool.
Variable split : Q -> Block -> Q -> option SplitResult.
Variable orc : Oracle.
Variable regionMetrics : Region -> option Metrics.

Local Abbreviation ploop := (pureLoop useKeepWithNext split orc).
Local Abbreviation pregions :=
  (pureRegions useKeepWithNext split orc regionMetrics).

Lemma pureLoop_fits width availHeight : forall bs fuel usedHeight log,
  length bs <= fuel ->
  NoPairs useKeepWithNext bs ->
  PlacedWithin availHeight usedHeight
    (List.map (wholePlacement orc width) bs) ->
  exists u,
    ploop fuel width availHeight
      {| pqueue := bs; pused := usedHeight; pplaced := log |}
    = Some {| pqueue := []; pused := u;
              pplaced := log ++ List.map (wholePlacement orc width) bs |}.
Proof.
  induction bs as [|b bs IH]; intros fuel u log Hfuel Hnp Hfit.
  - exists u. destruct fuel; cbn. all: rewrite app_nil_r; reflexivity.
  - destruct fuel as [|fuel]; [cbn in Hfuel; lia|].
    cbn [List.map PlacedWithin wholePlacement measured] in Hfit.
    destruct Hfit as (Hleft & Hb & Hfit).
    cbn [pureLoop pqueue]. unfold pureIteration. cbn [pqueue pused].
    unfold chooseAction.
    assert (Hrem : Qleb (jsSub availHeight u) 0 = false)
      by (apply Qleb_gt; exact Hleft).
    rewrite Hrem.
    assert (Hpair : useKeepWithNext && keepWithNext b
                    && (2 <=? length (b :: bs)) = false).
    { destruct Hnp as [-> | Hk]; [reflexivity|].
      apply Forall_cons_1 in Hk as [-> _]. rewrite andb_false_r. reflexivity. }
    rewrite Hpair.
    assert (Hle : Qleb (measureHeight orc width [blockEl b])
                    (jsSub availHeight u) = true)
      by (apply Qleb_le; exact Hb).
    rewrite Hle. cbn [mbind option_bind pureApply pqueue pused pplaced drop].
    destruct (IH fuel (jsAdd u (measureHeight orc width [blockEl b]))
                (log ++ [wholePlacement orc width b])) as (u' & Hu').
    + cbn [length] in Hfuel. lia.
    + destruct Hnp as [-> | Hk]; [left; reflexivity | right].
      apply Forall_cons_1 in Hk as [_ Hk]. exact Hk.
    + exact Hfit.
    + exists u'. rewrite <- app_assoc in Hu'. exact Hu'.
Qed.

Lemma pureRegions_nothing_left regions :
  pregions regions [] = Some ([], List.map (fun _ => []) regions).
Proof.
  induction regions as [|region rest IH]; cbn [pureRegions List.map];
    [reflexivity|].
  destruct (usable regionMetrics region) as [m|].
  - destruct (pureWeight []); cbn [pureLoop pqueue mbind option_bind pplaced];
      rewrite IH; reflexivity.
  - rewrite IH. reflexivity.
Qed.

Lemma pureRegions_skipped skipped : forall regions bs,
  Forall (fun region => usable regionMetrics region = None) skipped ->
  pregions (skipped ++ regions) bs
  = '(bs', out) ← pregions regions bs;
    Some (bs', List.map (fun _ => []) skipped ++ out).
Proof.
  induction skipped as [|region skipped IH]; intros regions bs Hs.
  - cbn. destruct (pregions regions bs) as [[bs' out]|]; reflexivity.
  - apply Forall_cons_1 in Hs as [Hu Hs].
    cbn [app pureRegions]. rewrite Hu, (IH _ _ Hs).
    destruct (pregions regions bs) as [[bs' out]|]; reflexivity.
Qed.

Lemma pureRegions_fits skipped region rest m bs :
  Forall (fun region => usable regionMetrics region = None) skipped ->
  usable regionMetrics region = Some m ->
  NoPairs useKeepWithNext bs ->
  PlacedWithin (availableHeight m) 0
    (List.map (wholePlacement orc (innerWidth m)) bs) ->
  pregions (skipped ++ region :: rest) bs
  = Some ([], List.map (fun _ => []) skipped
              ++ List.map (wholePlacement orc (innerWidth m)) bs
                 :: List.map (fun _ => []) rest).
Proof.
  intros Hs Hu Hnp Hfit.
  rewrite (pureRegions_skipped _ _ _ Hs). cbn [pureRegions]. rewrite Hu.
  destruct (pureLoop_fits (innerWidth m) (availableHeight m) bs
              (pureWeight bs) 0 []) as (u & ->);
    [apply pureWeight_length | assumption | assumption |].
  cbn [mbind option_bind pqueue pplaced app].
  rewrite pureRegions_nothing_left. reflexivity.
Qed.

End FitsWhole.

(** X9. Content that fits its first region goes there whole. When no
    block asks to be kept with the next one (or the loop has no such
    branch, as in js/text-flow-intro.js), and the blocks, taken whole in
    document order at the width of the first usable region, each find the
    space the loop computes as left there more than 0 and are at most as
    tall as it, then the pass returns with every block placed unsplit in
    that region, in document order, and nothing in any other region; the
    splitter is never asked. *)
Theorem content_that_fits_is_placed_whole {Region} useKeepWithNext split orc
    (regionMetrics : Region -> option Metrics) (tf : Instance Region)
    bs skipped region rest m :
  View (heap tf) (blocks tf) bs ->
  bs <> [] ->
  regions tf = skipped ++ region :: rest ->
  Forall (fun r => usable regionMetrics r = None) skipped ->
  usable regionMetrics region = Some m ->
  NoPairs useKeepWithNext bs ->
  PlacedWithin (availableHeight m) 0
    (List.map (wholePlacement orc (innerWidth m)) bs) ->
  exists tf',
    flowPass useKeepWithNext split orc regionMetrics tf = Some tf'
    /\ content tf'
       = List.map (fun _ => []) skipped
         ++ List.map (wholePlacement orc (innerWidth m)) bs
            :: List.map (fun _ => []) rest.
Proof.
  intros Hv Hne Hregions Hs Hu Hnp Hfit.
  destruct (flowPass_runs useKeepWithNext split orc regionMetrics tf bs
              (List.map (fun _ => []) skipped
               ++ List.map (wholePlacement orc (innerWidth m)) bs
                  :: List.map (fun _ => []) rest))
    as (tf' & Hpass & Hc & _).
  - split; [|split; [|split; [exact Hv|]]].
    + intros Hnil. rewrite Hnil in Hv. inversion Hv. congruence.
    + rewrite Hregions. destruct skipped; discriminate.
    + exists []. rewrite Hregions. apply pureRegions_fits; assumption.
  - exists tf'. split; assumption.
Qed.

Lemma content_that_fits_is_placed_whole_witness :
  exists tf',
    TextFlow.flow narrowOracle roomyRegions = Some tf'
    /\ content tf'
       = [List.map (wholePlacement narrowOracle
                      (innerWidth (TextFlow.getRegionMetrics
                                     (regionOfHeight 200) noPadding)))
            headingAndParagraph; []].
Proof.
  apply (content_that_fits_is_placed_whole true
           (TextFlow.splitParagraph narrowOracle) narrowOracle
           TextFlow.regionMetrics roomyRegions headingAndParagraph
           [] (regionOfHeight 200) [regionOfHeight 50]
           (TextFlow.getRegionMetrics (regionOfHeight 200) noPadding)).
  - repeat constructor.
  - discriminate.
  - reflexivity.
  - constructor.
  - reflexivity.
  - right. repeat constructor.
  - vm_compute. repeat split; discriminate.
Defined.

(** ** [buildBlocks] *)

Lemma buildBlocksFrom_order raw : forall index,
  exists idx,
    StronglySorted lt idx
    /\ Forall (fun i => index <= i) idx
    /\ Forall2 (fun i blk =>
                  exists r, raw !! (i - index) = Some r
                            /\ buildBlock i r = Some blk
                            /\ (truthy (rid r) = false -> id_ blk = IdSynth i))
         idx (buildBlocksFrom index raw)
    /\ (forall j r, raw !! j = Some r -> rtype r <> None
                    -> (index + j) ∈ idx).
Proof.
  induction raw as [|r0 raw IH]; intros index.
  - exists []. repeat split; try constructor. intros j r Hj. discriminate.
  - destruct (IH (S index)) as (idx & Hsorted & Hge & Hall & Hin).
    assert (Hshift : Forall2 (fun i blk =>
                  exists r, (r0 :: raw) !! (i - index) = Some r
                            /\ buildBlock i r = Some blk
                            /\ (truthy (rid r) = false -> id_ blk = IdSynth i))
              idx (buildBlocksFrom (S index) raw)).
    { clear -Hge Hall. induction Hall as [|i blk idx bs (r & Hr & Hb) _ IH'];
        constructor.
      - apply Forall_cons_1 in Hge as [Hi _]. exists r. split; [|exact Hb].
        replace (i - index) with (S (i - S index)) by lia. exact Hr.
      - apply IH'. apply Forall_cons_1 in Hge as [_ Hge]. exact Hge. }
    cbn [buildBlocksFrom].
    destruct (buildBlock index r0) as [blk|] eqn:Hb0.
    + exists (index :: idx). split; [|split; [|split]].
      * constructor; [exact Hsorted|].
        eapply List.Forall_impl; [|exact Hge]. cbn. intros; lia.
      * constructor; [lia|]. eapply List.Forall_impl; [|exact Hge]. cbn. intros; lia.
      * constructor; [|exact Hshift].
        exists r0. rewrite Nat.sub_diag. split; [reflexivity|].
        split; [exact Hb0|]. intros Hid. unfold buildBlock in Hb0.
        rewrite Hid in Hb0.
        destruct (rtype r0) as [[|]|]; inversion Hb0; reflexivity.
      * intros [|j] r Hj Hty.
        -- rewrite Nat.add_0_r. left.
        -- right. replace (index + S j) with (S index + j) by lia.
           eapply Hin; eassumption.
    + exists idx. split; [exact Hsorted|]. split; [|split; [exact Hshift|]].
      * eapply List.Forall_impl; [|exact Hge]. cbn. intros; lia.
      * intros [|j] r Hj Hty.
        -- injection Hj as <-. unfold buildBlock in Hb0.
           destruct (rtype r0) as [[|]|]; congruence.
        -- replace (index + S j) with (S index + j) by lia.
           eapply Hin; eassumption.
Qed.

(** X10. [buildBlocks] keeps the records of type heading or paragraph, in
    document order, and drops the others without renumbering: there are
    increasing positions of the document, one per block built, such that
    each block is built from the record at its position with that position
    as index (so a block without an id of its own is named after the
    position of its record in the document, not in the list built), and
    every record of a supported type has its position among them. *)
Theorem buildBlocks_document_order raw :
  exists idx,
    StronglySorted lt idx
    /\ Forall2 (BuiltFrom raw) idx (buildBlocks raw)
    /\ (forall i r, raw !! i = Some r -> rtype r <> None -> i ∈ idx).
Proof.
  destruct (buildBlocksFrom_order raw 0) as (idx & Hsorted & _ & Hall & Hin).
  exists idx. split; [exact Hsorted|]. split.
  - eapply List.Forall2_impl; [|exact Hall]. cbn.
    intros i blk (r & Hr & Hb). rewrite Nat.sub_0_r in Hr. exists r. auto.
  - intros i r Hi Hty. apply (Hin i r Hi Hty).
Qed.

(** ** [debounce] *)

Section DebounceFacts.

Context {Args : Type}.
Variable delay : nat.

Local Abbreviation invoke := (@Debounce.invoke Args delay).
Local Abbreviation tick := (@Debounce.tick Args).
Local Abbreviation run := (@Debounce.run Args delay).

Lemma invoke_Quiet args s :
  Quiet s -> Armed args delay (invoke args s)
             /\ Debounce.calls (invoke args s) = Debounce.calls s.
Proof.
  intros (Hts & Hpos & Ht). split; [|reflexivity].
  exists (Debounce.nextHandle s). unfold Debounce.invoke.
  cbn [Debounce.t Debounce.timers Debounce.nextHandle].
  split; [reflexivity|]. split; [exact Hpos|]. split; [lia|].
  rewrite Hts. destruct (Debounce.t s) as [h|]; [|reflexivity].
  destruct (h =? 0); reflexivity.
Qed.

Lemma invoke_Armed args0 ms args s :
  Armed args0 ms s -> Armed args delay (invoke args s)
                      /\ Debounce.calls (invoke args s) = Debounce.calls s.
Proof.
  intros (h & Ht & Hpos & Hlt & Hts). split; [|reflexivity].
  exists (Debounce.nextHandle s). unfold Debounce.invoke.
  cbn [Debounce.t Debounce.timers Debounce.nextHandle].
  split; [reflexivity|]. split; [lia|]. split; [lia|].
  rewrite Ht, Hts.
  destruct (h =? 0) eqn:E; [apply Nat.eqb_eq in E; lia|].
  cbn [Debounce.clearTimeout List.filter Debounce.handle].
  rewrite Nat.eqb_refl. reflexivity.
Qed.

Lemma ticks_Quiet ms s :
  Quiet s -> Quiet (Nat.iter ms tick s)
             /\ Debounce.calls (Nat.iter ms tick s) = Debounce.calls s.
Proof.
  intros Hq. induction ms as [|ms [IHq IHc]]; [auto|].
  rewrite Nat.iter_succ. set (s1 := Nat.iter ms tick s) in *.
  destruct IHq as (Hts & Hpos & Ht).
  unfold Debounce.tick, Quiet.
  cbn [Debounce.t Debounce.timers Debounce.nextHandle Debounce.calls].
  rewrite Hts. cbn [List.filter List.map]. rewrite app_nil_r.
  split; [|exact IHc]. repeat split; assumption.
Qed.

(** While the timer is not due the closure stays armed and [fn] is not
    called. *)
Lemma ticks_Armed_early args : forall ms left s,
  ms < left -> Armed args left s ->
  Armed args (left - ms) (Nat.iter ms tick s)
  /\ Debounce.calls (Nat.iter ms tick s) = Debounce.calls s.
Proof.
  induction ms as [|ms IH]; intros left s Hlt Ha.
  - cbn [Nat.iter]. rewrite Nat.sub_0_r. auto.
  - rewrite Nat.iter_succ.
    destruct (IH left s ltac:(lia) Ha) as ((h & Ht & Hpos & Hh & Hts) & Hc).
    set (s1 := Nat.iter ms tick s) in *.
    unfold Debounce.tick, Armed.
    cbn [Debounce.t Debounce.timers Debounce.nextHandle Debounce.calls].
    rewrite Hts. cbn [List.filter List.map Debounce.msLeft].
    destruct (left - ms <=? 1) eqn:E; [apply Nat.leb_le in E; lia|].
    cbn [negb List.map Debounce.handle Debounce.msLeft Debounce.timerArgs].
    rewrite app_nil_r. split; [|exact Hc].
    exists h. repeat split; try assumption.
    replace (left - S ms) with (left - ms - 1) by lia. reflexivity.
Qed.

(** Once the delay has passed the timer has run: [fn] was called once,
    with the arguments of the armed call. *)
Lemma ticks_Armed_late args ms left s :
  0 < left -> left <= ms -> Armed args left s ->
  Quiet (Nat.iter ms tick s)
  /\ Debounce.calls (Nat.iter ms tick s) = Debounce.calls s ++ [args].
Proof.
  intros Hpos Hle Ha.
  replace ms with ((ms - left) + S (left - 1)) by lia.
  rewrite Nat.iter_add, Nat.iter_succ.
  destruct (ticks_Armed_early args (left - 1) left s ltac:(lia) Ha)
    as ((h & Ht & Hh & Hlt & Hts) & Hc).
  set (s1 := Nat.iter (left - 1) tick s) in *.
  assert (Hq : Quiet (tick s1)
               /\ Debounce.calls (tick s1) = Debounce.calls s ++ [args]).
  { unfold Debounce.tick, Quiet.
    cbn [Debounce.t Debounce.timers Debounce.nextHandle Debounce.calls].
    rewrite Hts, Hc.
    cbn [List.filter List.map Debounce.msLeft Debounce.timerArgs].
    replace (left - (left - 1) <=? 1) with true
      by (symmetry; apply Nat.leb_le; lia).
    cbn [negb List.map]. repeat split; try lia.
    intros h' Hh'. assert (h' = h) by congruence. subst h'. exact Hlt. }
  destruct Hq as [Hq Hc1].
  destruct (ticks_Quiet (ms - left) (tick s1) Hq) as [Hq2 Hc2].
  split; [exact Hq2 | congruence].
Qed.

Lemma burst_Armed burst : forall args0 left s,
  0 < left ->
  Armed args0 left s ->
  Forall (fun '(_, ms) => ms < delay) burst ->
  (exists args left', 0 < left'
      /\ Armed args left' (run (burstEvents burst) s))
  /\ Debounce.calls (run (burstEvents burst) s) = Debounce.calls s.
Proof.
  induction burst as [|[args ms] burst IH]; intros args0 left s Hpos Ha Hb.
  - cbn. split; [eauto | reflexivity].
  - apply Forall_cons_1 in Hb as [Hms Hb].
    unfold burstEvents. cbn [flat_map app Debounce.run fold_left].
    cbn [Debounce.step].
    destruct (invoke_Armed args0 left args s Ha) as [Ha1 Hc1].
    destruct (ticks_Armed_early args ms delay _ Hms Ha1) as [Ha2 Hc2].
    destruct (IH args (delay - ms) _ ltac:(lia) Ha2 Hb) as [Hex Hc3].
    split; [exact Hex|]. unfold Debounce.run, burstEvents in Hc3.
    rewrite Hc3, Hc2, Hc1. reflexivity.
Qed.

End DebounceFacts.

(** X11. [debounce] holds back a burst: when the function it returned is
    called again and again, each call less than [delay] milliseconds after
    the one before, [fn] is not called as long as the burst lasts, and once
    [delay] milliseconds have passed after the last call [fn] has been
    called exactly once, with the arguments of the last call. The timer
    is gone by then, so the next burst is treated the same way. *)
Theorem debounce_burst_runs_once {Args} (delay : nat)
    (burst : list (Args * nat)) (last : Args) (ms : nat)
    (s : @Debounce.State Args) :
  0 < delay ->
  Quiet s ->
  Forall (fun '(_, pause) => pause < delay) burst ->
  delay <= ms ->
  let s1 := Debounce.run delay (burstEvents burst ++ [Debounce.Invoke last]) s in
  let s2 := Debounce.step delay s1 (Debounce.Wait ms) in
  Debounce.calls s1 = Debounce.calls s
  /\ Debounce.calls s2 = Debounce.calls s ++ [last]
  /\ Quiet s2.
Proof.
  intros Hpos Hq Hb Hms s1 s2.
  assert (Ha : Armed last delay s1 /\ Debounce.calls s1 = Debounce.calls s).
  { subst s1. unfold Debounce.run. rewrite fold_left_app.
    cbn [fold_left Debounce.step].
    destruct burst as [|[args pause] burst].
    - cbn [burstEvents flat_map fold_left]. apply invoke_Quiet. exact Hq.
    - apply Forall_cons_1 in Hb as [Hp Hb].
      unfold burstEvents. cbn [flat_map app fold_left Debounce.step].
      destruct (invoke_Quiet delay args s Hq) as [Ha1 Hc1].
      destruct (ticks_Armed_early args pause delay _ Hp Ha1) as [Ha2 Hc2].
      destruct (burst_Armed delay burst args (delay - pause) _
                  ltac:(lia) Ha2 Hb) as [(args' & left' & _ & Ha3) Hc3].
      unfold Debounce.run, burstEvents in Ha3, Hc3.
      destruct (invoke_Armed delay args' left' last _ Ha3) as [Ha4 Hc4].
      split; [exact Ha4|]. rewrite Hc4, Hc3, Hc2, Hc1. reflexivity. }
  destruct Ha as [Ha Hc]. split; [exact Hc|].
  subst s2. cbn [Debounce.step].
  destruct (ticks_Armed_late last ms delay s1 Hpos Hms Ha) as [Hq2 Hc2].
  split; [|exact Hq2]. rewrite Hc2, Hc. reflexivity.
Qed.

Lemma debounce_burst_runs_once_witness :
  let s := {| Debounce.t := None; Debounce.timers := [];
              Debounce.nextHandle := 1; Debounce.calls := [] |} in
  let s1 := Debounce.run 200
              (burstEvents [(1280%Z, 50); (900%Z, 199)]
               ++ [Debounce.Invoke 640%Z]) s in
  let s2 := Debounce.step 200 s1 (Debounce.Wait 200) in
  Debounce.calls s1 = [] /\ Debounce.calls s2 = [640%Z] /\ Quiet s2.
Proof.
  apply (debounce_burst_runs_once 200 [(1280%Z, 50); (900%Z, 199)] 640%Z 200
           {| Debounce.t := None; Debounce.timers := [];
              Debounce.nextHandle := 1; Debounce.calls := [] |}).
  - lia.
  - split; [reflexivity | split; [simpl; lia | discriminate]].
  - repeat constructor; lia.
  - lia.
Defined.

(** ** The life of a [TextFlow] object *)

Lemma loadContent_fails fetched o d :
  LoadFails o fetched ->
  Lifecycle.loadContent fetched o d = (o, Lifecycle.noteFailure d).
Proof.
  intros [Hurl Hf]. unfold Lifecycle.loadContent. rewrite Hurl.
  destruct fetched as [| | |json]; try reflexivity.
  rewrite Hf. reflexivity.
Qed.

(** X12. [init] after a load that fails (no connection, an HTTP error, a
    body that is no JSON or no content document) on an object that holds
    no blocks: the visible regions are scanned, emptied and kept in the
    object, none of them receives anything, one failure note is appended,
    and the resize handler is added all the same. *)
Theorem init_after_failed_load orc fetched o d :
  LoadFails o fetched ->
  blocks (Lifecycle.inst o) = [] ->
  exists o' d',
    Lifecycle.init orc fetched o d = Some (o', d')
    /\ Lifecycle.failureNotes d' = S (Lifecycle.failureNotes d)
    /\ Lifecycle.contentJson o' = Lifecycle.contentJson o
    /\ blocks (Lifecycle.inst o') = []
    /\ length (regions (Lifecycle.inst o'))
       = length (List.filter Lifecycle.isVisible (Lifecycle.regionNodes d))
    /\ Forall (fun log => log = []) (content (Lifecycle.inst o'))
    /\ Lifecycle.resizeListeners d'
       = Lifecycle.resizeListeners d ++ [Lifecycle.nextListener d].
Proof.
  intros Hfails Hblocks. unfold Lifecycle.init.
  rewrite (loadContent_fails _ _ _ Hfails).
  set (o2 := Lifecycle.createSandbox
               (Lifecycle.scanRegions o (Lifecycle.noteFailure d))).
  assert (Hinst : Lifecycle.inst o2
                  = Lifecycle.inst
                      (Lifecycle.scanRegions o (Lifecycle.noteFailure d))).
  { subst o2. unfold Lifecycle.createSandbox.
    destruct (Lifecycle.sandbox _); reflexivity. }
  assert (Hjson : Lifecycle.contentJson o2 = Lifecycle.contentJson o).
  { subst o2. unfold Lifecycle.createSandbox.
    destruct (Lifecycle.sandbox _); reflexivity. }
  unfold Lifecycle.flow, TextFlow.flow.
  rewrite flowPass_idle by (left; rewrite Hinst; exact Hblocks).
  cbn [mbind option_bind]. eexists. eexists. split; [reflexivity|].
  cbn [Lifecycle.attachResize Lifecycle.failureNotes Lifecycle.noteFailure
       Lifecycle.contentJson Lifecycle.inst Lifecycle.setInst
       Lifecycle.resizeListeners Lifecycle.nextListener].
  rewrite Hinst.
  cbn [Lifecycle.scanRegions Lifecycle.inst Lifecycle.setInst blocks regions
       content Lifecycle.regionNodes Lifecycle.noteFailure].
  split; [reflexivity|]. split; [exact Hjson|]. split; [exact Hblocks|].
  assert (Hlen : forall els, length (Lifecycle.sortByOrder els) = length els).
  { unfold Lifecycle.sortByOrder. intros els.
    assert (H : forall acc, length (fold_left
                  (fun sorted el => Lifecycle.insertByOrder el sorted) els acc)
                = length acc + length els).
    { induction els as [|el els IH]; intros acc; cbn [fold_left length];
        [lia|].
      rewrite IH. clear. induction acc as [|a acc IH]; cbn; [lia|].
      destruct (Qltb _ _); cbn [length]; lia. }
    apply H. }
  split; [rewrite length_map; apply Hlen|].
  split; [|reflexivity].
  apply List.Forall_forall. intros log Hin. apply in_map_iff in Hin.
  destruct Hin as (el & <- & _). reflexivity.
Qed.

Lemma init_after_failed_load_witness :
  exists o' d',
    Lifecycle.init narrowOracle Lifecycle.HttpError freshObj threeNodeDoc
    = Some (o', d')
    /\ Lifecycle.failureNotes d' = 1
    /\ Lifecycle.contentJson o' = None
    /\ blocks (Lifecycle.inst o') = []
    /\ length (regions (Lifecycle.inst o')) = 2
    /\ Forall (fun log => log = []) (content (Lifecycle.inst o'))
    /\ Lifecycle.resizeListeners d' = [0].
Proof.
  apply (init_after_failed_load narrowOracle Lifecycle.HttpError freshObj
           threeNodeDoc).
  - split; [reflexivity | exact I].
  - reflexivity.
Defined.

Lemma loadContent_keeps fetched o d o1 d1 :
  Lifecycle.loadContent fetched o d = (o1, d1) ->
  ValidRefs (Lifecycle.inst o) ->
  ValidRefs (Lifecycle.inst o1)
  /\ Lifecycle.regionNodes d1 = Lifecycle.regionNodes d
  /\ Lifecycle.resizeListeners d1 = Lifecycle.resizeListeners d
  /\ Lifecycle.nextListener d1 = Lifecycle.nextListener d.
Proof.
  unfold Lifecycle.loadContent. intros Hload Hvalid.
  destruct (Lifecycle.hasUrl o); [|injection Hload as <- <-; auto].
  destruct fetched as [| | |json];
    try (injection Hload as <- <-; auto; fail).
  destruct (Lifecycle.validateContent json);
    [|injection Hload as <- <-; auto].
  destruct json as [|[raw|] ttl]; try (injection Hload as <- <-; auto; fail).
  injection Hload as <- <-. split; [|auto].
  unfold ValidRefs, Lifecycle.setBlocks.
  cbn [Lifecycle.inst Lifecycle.setInst heap blocks].
  apply List.Forall_forall. intros l Hl. apply in_seq in Hl.
  rewrite length_app. lia.
Qed.

(** [init] returns, and what it does to the listeners of the window. *)
Lemma init_total orc fetched o d :
  ValidRefs (Lifecycle.inst o) ->
  exists o' d',
    Lifecycle.init orc fetched o d = Some (o', d')
    /\ ValidRefs (Lifecycle.inst o')
    /\ Lifecycle.resizeHandler o' = Some (Lifecycle.nextListener d)
    /\ Lifecycle.resizeListeners d'
       = Lifecycle.resizeListeners d ++ [Lifecycle.nextListener d]
    /\ Lifecycle.nextListener d' = S (Lifecycle.nextListener d).
Proof.
  intros Hvalid. unfold Lifecycle.init.
  destruct (Lifecycle.loadContent fetched o d) as [o1 d1] eqn:Hload.
  destruct (loadContent_keeps _ _ _ _ _ Hload Hvalid)
    as (Hvalid1 & _ & Hls & Hnext).
  set (o3 := Lifecycle.createSandbox (Lifecycle.scanRegions o1 d1)).
  assert (Hv3 : ValidRefs (Lifecycle.inst o3)).
  { subst o3. unfold Lifecycle.createSandbox.
    destruct (Lifecycle.sandbox _); exact Hvalid1. }
  unfold Lifecycle.flow, TextFlow.flow.
  destruct (flowPass_total true (TextFlow.splitParagraph orc) orc
              TextFlow.regionMetrics (TextFlow_split_shrinks orc)
              (Lifecycle.inst o3) (ValidRefs_lt _ Hv3)) as (i & Hi).
  rewrite Hi. cbn [mbind option_bind]. eexists. eexists.
  split; [reflexivity|].
  cbn [Lifecycle.attachResize Lifecycle.inst Lifecycle.setInst
       Lifecycle.resizeHandler Lifecycle.resizeListeners
       Lifecycle.nextListener].
  rewrite Hls, Hnext. split; [|auto].
  destruct (flowPass_inv _ _ _ _ _ _ (ValidRefs_lt _ Hv3) Hi)
    as [[_ ->] | (bs & _ & Hb & _ & Hheap)]; [exact Hv3|].
  unfold ValidRefs. rewrite Hb. apply List.Forall_forall. intros l Hl.
  pose proof (proj1 (List.Forall_forall _ _) Hv3 l Hl) as Hlt. cbn in Hlt.
  destruct (lookup_lt_is_Some_2 _ _ Hlt) as (b & Hlook).
  rewrite <- (Hheap l Hlt) in Hlook. eapply lookup_lt_Some, Hlook.
Qed.

Lemma inits_listeners orc fs : forall o d,
  ValidRefs (Lifecycle.inst o) ->
  exists o' d',
    inits orc fs o d = Some (o', d')
    /\ Lifecycle.resizeListeners d'
       = Lifecycle.resizeListeners d
         ++ seq (Lifecycle.nextListener d) (length fs)
    /\ (fs <> [] ->
        Lifecycle.resizeHandler o'
        = Some (Lifecycle.nextListener d + length fs - 1)).
Proof.
  induction fs as [|fetched fs IH]; intros o d Hvalid; cbn [inits].
  - exists o, d. cbn. rewrite app_nil_r. split; [reflexivity|].
    split; [reflexivity | congruence].
  - destruct (init_total orc fetched o d Hvalid)
      as (o1 & d1 & -> & Hv1 & Hh1 & Hl1 & Hn1).
    cbn [mbind option_bind].
    destruct (IH o1 d1 Hv1) as (o' & d' & Hin & Hl & Hh).
    exists o', d'. split; [exact Hin|].
    rewrite Hl, Hl1, Hn1, <- app_assoc. cbn [length seq app].
    split; [reflexivity|]. intros _.
    destruct fs as [|f fs].
    + cbn in Hin. injection Hin as <- <-. rewrite Hh1. f_equal.
      cbn [length]. lia.
    + rewrite Hh by discriminate. rewrite Hn1. f_equal. cbn [length]. lia.
Qed.

Lemma filter_all {A} (f : A -> bool) l :
  Forall (fun x => f x = true) l -> List.filter f l = l.
Proof.
  induction 1 as [|x l Hx _ IH]; cbn; [reflexivity|]. rewrite Hx, IH.
  reflexivity.
Qed.

(** X13. Every [init] adds a resize handler of its own and none is ever
    taken away: after [init] has run once for each of a list of responses,
    the window has one more listener per run, and [destroy] removes the
    last of them only. *)
Theorem resize_handlers_pile_up orc fs o d :
  ValidRefs (Lifecycle.inst o) ->
  Forall (fun l => l < Lifecycle.nextListener d)
    (Lifecycle.resizeListeners d) ->
  fs <> [] ->
  exists o' d',
    inits orc fs o d = Some (o', d')
    /\ Lifecycle.resizeListeners d'
       = Lifecycle.resizeListeners d
         ++ seq (Lifecycle.nextListener d) (length fs)
    /\ Lifecycle.resizeListeners (snd (Lifecycle.destroy o' d'))
       = Lifecycle.resizeListeners d
         ++ seq (Lifecycle.nextListener d) (length fs - 1).
Proof.
  intros Hvalid Hold Hne.
  destruct (inits_listeners orc fs o d Hvalid) as (o' & d' & Hin & Hl & Hh).
  exists o', d'. split; [exact Hin|]. split; [exact Hl|].
  unfold Lifecycle.destroy. rewrite (Hh Hne).
  cbn [snd Lifecycle.resizeListeners]. rewrite Hl.
  destruct fs as [|f fs]; [congruence|]. cbn [length].
  replace (S (length fs) - 1) with (length fs) by lia.
  replace (Lifecycle.nextListener d + S (length fs) - 1)
    with (Lifecycle.nextListener d + length fs) by lia.
  rewrite seq_S, List.filter_app, List.filter_app. cbn [List.filter].
  rewrite Nat.eqb_refl. cbn [negb]. rewrite app_nil_r.
  rewrite !filter_all; [reflexivity | |].
  - apply List.Forall_forall. intros l Hl'. apply in_seq in Hl'.
    apply negb_true_iff, Nat.eqb_neq. lia.
  - eapply List.Forall_impl; [|exact Hold]. cbn. intros l Hl'.
    apply negb_true_iff, Nat.eqb_neq. lia.
Qed.

Lemma resize_handlers_pile_up_witness :
  exists o' d',
    inits narrowOracle [goodBody; Lifecycle.HttpError; goodBody]
      freshObj threeNodeDoc = Some (o', d')
    /\ Lifecycle.resizeListeners d' = [] ++ seq 0 3
    /\ Lifecycle.resizeListeners (snd (Lifecycle.destroy o' d'))
       = [] ++ seq 0 2.
Proof.
  apply (resize_handlers_pile_up narrowOracle
           [goodBody; Lifecycle.HttpError; goodBody] freshObj threeNodeDoc).
  - constructor.
  - constructor.
  - discriminate.
Defined.

(** ** The page script of js/intro.js *)

(** X14. On a window at most 1280 pixels wide, when the object holds no
    content yet and the load fails (or there is no content URL), the
    promise of [initLayout] is rejected: [buildBlocks] is called on the
    [null] content. The handler of [DOMContentLoaded] stops there, so that
    the listener of [resize] is never added; the traditional container
    stays empty and the object is as it was. *)
Theorem narrow_page_failed_load_rejects orc width fetched p :
  (width <= 1280)%Z ->
  Lifecycle.contentJson (IntroPage.flowObj p) = None ->
  LoadFails (IntroPage.flowObj p) fetched
  \/ Lifecycle.hasUrl (IntroPage.flowObj p) = false ->
  exists p',
    IntroPage.onLoad orc width fetched p = Some (IntroPage.Rejected p')
    /\ IntroPage.resizeListening p' = IntroPage.resizeListening p
    /\ IntroPage.flowObj p' = IntroPage.flowObj p
    /\ IntroPage.traditional p'
       = IntroPage.traditional (IntroPage.clearTraditional p)
    /\ Lifecycle.failureNotes (IntroPage.doc p')
       = (if Lifecycle.hasUrl (IntroPage.flowObj p) then 1 else 0)
         + Lifecycle.failureNotes (IntroPage.doc p).
Proof.
  intros Hw Hjson Hfails.
  unfold IntroPage.onLoad, IntroPage.initLayout, IntroPage.shouldUseTextFlow.
  replace (1280 <? width)%Z with false by (symmetry; apply Z.ltb_ge; lia).
  cbn [IntroPage.clearTraditional IntroPage.flowObj IntroPage.doc
       IntroPage.traditional IntroPage.resizeListening].
  rewrite Hjson.
  assert (Hload : Lifecycle.loadContent fetched (IntroPage.flowObj p)
                    (IntroPage.doc p)
                  = (IntroPage.flowObj p,
                     if Lifecycle.hasUrl (IntroPage.flowObj p)
                     then Lifecycle.noteFailure (IntroPage.doc p)
                     else IntroPage.doc p)).
  { destruct Hfails as [Hf | Hno].
    - rewrite (loadContent_fails _ _ _ Hf). destruct Hf as [-> _].
      reflexivity.
    - unfold Lifecycle.loadContent. rewrite Hno. reflexivity. }
  rewrite Hload, Hjson. cbn [Lifecycle.buildBlocksOf mbind option_bind].
  eexists. split; [reflexivity|].
  cbn [IntroPage.resizeListening IntroPage.flowObj IntroPage.traditional
       IntroPage.doc].
  repeat split. destruct (Lifecycle.hasUrl _); reflexivity.
Qed.

Lemma narrow_page_failed_load_rejects_witness :
  exists p',
    IntroPage.onLoad narrowOracle 1024 Lifecycle.NetworkError freshPage
    = Some (IntroPage.Rejected p')
    /\ IntroPage.resizeListening p' = false
    /\ IntroPage.flowObj p' = freshObj
    /\ IntroPage.traditional p' = Some []
    /\ Lifecycle.failureNotes (IntroPage.doc p') = 1 + 0.
Proof.
  apply (narrow_page_failed_load_rejects narrowOracle 1024
           Lifecycle.NetworkError freshPage).
  - lia.
  - reflexivity.
  - left. split; [reflexivity | exact I].
Defined.

(** ** [scanRegions] *)

Lemma insertByOrder_perm el sorted :
  Permutation (Lifecycle.insertByOrder el sorted) (el :: sorted).
Proof.
  induction sorted as [|el' rest IH]; cbn [Lifecycle.insertByOrder];
    [reflexivity|].
  destruct (Qltb _ _); [reflexivity|].
  rewrite IH. apply perm_swap.
Qed.

Lemma insertByOrder_sorted el sorted :
  StronglySorted orderLe sorted ->
  StronglySorted orderLe (Lifecycle.insertByOrder el sorted).
Proof.
  induction 1 as [|el' rest Hs IH Hall]; cbn [Lifecycle.insertByOrder].
  - repeat constructor.
  - destruct (Qltb _ _) eqn:Hlt.
    + apply Qltb_lt in Hlt. constructor; [constructor; assumption|].
      constructor; [unfold orderLe; lra|].
      eapply List.Forall_impl; [|exact Hall]. unfold orderLe. intros a Ha. lra.
    + apply Qltb_ge in Hlt. constructor; [exact IH|].
      eapply Permutation_Forall; [symmetry; apply insertByOrder_perm|].
      constructor; [exact Hlt | exact Hall].
Qed.

(** A node goes behind the nodes of its order that are there already. *)
Lemma insertByOrder_withOrder q el sorted :
  StronglySorted orderLe sorted ->
  withOrder q (Lifecycle.insertByOrder el sorted)
  = withOrder q sorted ++ withOrder q [el].
Proof.
  unfold withOrder.
  induction 1 as [|el' rest Hs IH Hall]; cbn [Lifecycle.insertByOrder];
    [reflexivity|].
  destruct (Qltb _ _) eqn:Hlt.
  - apply Qltb_lt in Hlt.
    cbn [List.filter app].
    destruct (Qeq_bool (Lifecycle.orderOf el) q) eqn:Hq;
      [|rewrite app_nil_r; reflexivity].
    apply Qeq_bool_iff in Hq.
    assert (Hnone : forall l,
               Forall (orderLe el') l ->
               List.filter (fun e => Qeq_bool (Lifecycle.orderOf e) q) l = []).
    { induction 1 as [|a l Ha _ IHl]; [reflexivity|]. cbn [List.filter].
      rewrite IHl.
      destruct (Qeq_bool (Lifecycle.orderOf a) q) eqn:Ea; [|reflexivity].
      apply Qeq_bool_iff in Ea. unfold orderLe in Ha. lra. }
    rewrite (Hnone rest Hall).
    destruct (Qeq_bool (Lifecycle.orderOf el') q) eqn:Ea; [|reflexivity].
    apply Qeq_bool_iff in Ea. lra.
  - cbn [List.filter]. rewrite IH.
    destruct (Qeq_bool (Lifecycle.orderOf el') q); reflexivity.
Qed.

Lemma sortByOrder_spec els : forall acc seen,
  StronglySorted orderLe acc ->
  Permutation acc seen ->
  (forall q, withOrder q acc = withOrder q seen) ->
  let sorted :=
    fold_left (fun sorted el => Lifecycle.insertByOrder el sorted) els acc in
  StronglySorted orderLe sorted
  /\ Permutation sorted (seen ++ els)
  /\ forall q, withOrder q sorted = withOrder q (seen ++ els).
Proof.
  induction els as [|el els IH]; intros acc seen Hs Hp Hq; cbn [fold_left].
  - rewrite app_nil_r. auto.
  - replace (seen ++ el :: els) with ((seen ++ [el]) ++ els)
      by (rewrite <- app_assoc; reflexivity).
    apply IH.
    + apply insertByOrder_sorted, Hs.
    + rewrite insertByOrder_perm, Hp. apply Permutation_cons_append.
    + intros q. rewrite (insertByOrder_withOrder q el acc Hs), Hq.
      unfold withOrder. rewrite List.filter_app. reflexivity.
Qed.

(** X15. [scanRegions] keeps the nodes that are shown (display not none,
    visibility not hidden, opacity not 0), all of them and no other, by
    increasing [data-flow-order], a node without that attribute counting
    as order 0, and nodes of the same order in document order. Every
    region gets a wrapper, so that [flow] finds metrics for each, and is
    left empty. *)
Theorem scanRegions_visible_in_order o d :
  exists kept,
    regions (Lifecycle.inst (Lifecycle.scanRegions o d))
    = List.map Lifecycle.asRegion kept
    /\ Permutation kept
         (List.filter Lifecycle.isVisible (Lifecycle.regionNodes d))
    /\ StronglySorted orderLe kept
    /\ (forall q,
           withOrder q kept
           = withOrder q
               (List.filter Lifecycle.isVisible (Lifecycle.regionNodes d)))
    /\ Forall (fun r => exists m, TextFlow.regionMetrics r = Some m)
         (regions (Lifecycle.inst (Lifecycle.scanRegions o d)))
    /\ Forall2 (fun _ log => log = [])
         (regions (Lifecycle.inst (Lifecycle.scanRegions o d)))
         (content (Lifecycle.inst (Lifecycle.scanRegions o d))).
Proof.
  set (shown := List.filter Lifecycle.isVisible (Lifecycle.regionNodes d)).
  exists (Lifecycle.sortByOrder shown).
  destruct (sortByOrder_spec shown [] [] ltac:(constructor)
              ltac:(reflexivity) ltac:(reflexivity)) as (Hs & Hp & Hq).
  cbn [app] in Hp, Hq.
  split; [reflexivity|]. split; [exact Hp|]. split; [exact Hs|].
  split; [exact Hq|].
  cbn [Lifecycle.scanRegions Lifecycle.inst Lifecycle.setInst regions
       content]. fold shown.
  generalize (Lifecycle.sortByOrder shown). intros kept. split.
  - induction kept as [|el kept IH]; cbn [List.map]; constructor; [|exact IH].
    eexists. reflexivity.
  - induction kept as [|el kept IH]; cbn [List.map]; constructor;
      [reflexivity | exact IH].
Qed.

(** ** js/stoic-drama.js *)

Lemma onResize_listeners widths : forall w,
  StoicDrama.wheelListeners (fold_left StoicDrama.onResize widths w)
  = StoicDrama.wheelListeners w + length (desktopWidths widths)
  /\ StoicDrama.scrolledBy (fold_left StoicDrama.onResize widths w)
     = StoicDrama.scrolledBy w.
Proof.
  induction widths as [|width widths IH]; intros w; cbn [fold_left].
  - cbn. split; [lia | reflexivity].
  - destruct (IH (StoicDrama.onResize w width)) as [-> ->].
    unfold StoicDrama.onResize, StoicDrama.initHorizontalScroll, desktopWidths.
    cbn [StoicDrama.innerWidth List.filter].
    destruct (768 <? width)%Z;
      cbn [StoicDrama.wheelListeners StoicDrama.scrolledBy length];
      split; (lia || reflexivity).
Qed.

Lemma wheelListeners_run deltaX deltaY n : forall w,
  StoicDrama.scrolledBy (Nat.iter n (StoicDrama.wheelListener deltaX deltaY) w)
  = StoicDrama.scrolledBy w
    ++ (if Qltb (Qabs deltaY) (Qabs deltaX) then []
        else repeat (jsMul deltaY (15 # 10)) n).
Proof.
  induction n as [|n IH]; intros w.
  - cbn. destruct (Qltb _ _); rewrite app_nil_r; reflexivity.
  - rewrite Nat.iter_succ_r, IH. unfold StoicDrama.wheelListener.
    destruct (Qltb _ _); [reflexivity|].
    cbn [StoicDrama.scrolledBy repeat]. rewrite <- app_assoc. reflexivity.
Qed.

(** X16. The wheel listeners of js/stoic-drama.js pile up: the page adds
    one when it loads above 768 pixels and one more at every [resize]
    above 768 pixels, and takes none away when the window gets narrower.
    A [wheel] event that is not mainly horizontal then calls
    [window.scrollBy] once per listener, each time with 1.5 times its
    [deltaY], rounded; a mainly horizontal one scrolls nothing. *)
Theorem wheel_listeners_pile_up width widths deltaX deltaY :
  let w := fold_left StoicDrama.onResize widths (StoicDrama.onLoad width) in
  StoicDrama.wheelListeners w = length (desktopWidths (width :: widths))
  /\ StoicDrama.scrolledBy (StoicDrama.onWheel deltaX deltaY w)
     = if Qltb (Qabs deltaY) (Qabs deltaX) then []
       else repeat (jsMul deltaY (15 # 10))
              (length (desktopWidths (width :: widths))).
Proof.
  intros w.
  destruct (onResize_listeners widths (StoicDrama.onLoad width)) as [Hn Hs].
  fold w in Hn, Hs.
  assert (Hcount : StoicDrama.wheelListeners w
                   = length (desktopWidths (width :: widths))).
  { rewrite Hn. unfold StoicDrama.onLoad, StoicDrama.initHorizontalScroll,
      desktopWidths.
    cbn [StoicDrama.innerWidth List.filter].
    destruct (768 <? width)%Z; reflexivity. }
  split; [exact Hcount|].
  unfold StoicDrama.onWheel. rewrite wheelListeners_run, Hs, Hcount.
  unfold StoicDrama.onLoad, StoicDrama.initHorizontalScroll.
  cbn [StoicDrama.innerWidth].
  destruct (768 <? width)%Z; reflexivity.
Qed.

(** ** js/how-we-did-it.js *)

Lemma overflowClone_id e :
  ResponsiveContent.elemId (overflowClone e) = utf16 "overflow-region-content".
Proof. reflexivity. Qed.

Lemma handleResize_ok region2 windowWidth m :
  ManagerOk region2 m ->
  exists m',
    ResponsiveContent.handleResize windowWidth m
    = ResponsiveContent.Returned m'
    /\ ManagerOk region2 m'
    /\ ResponsiveContent.isContentMoved m' = (windowWidth <=? 900)%Z.
Proof.
  intros (Hr & display & kids & Hsec & Hkids & Hmoved).
  unfold ResponsiveContent.handleResize.
  destruct (windowWidth <=? 900)%Z eqn:Hw,
           (ResponsiveContent.isContentMoved m) eqn:Hm; cbn [andb negb].
  - replace (900 <? windowWidth)%Z with false
      by (symmetry; apply Z.ltb_ge; apply Z.leb_le in Hw; lia).
    cbn [andb]. exists m. split; [reflexivity|]. split; [|exact Hm].
    split; [exact Hr|]. exists display, kids. rewrite Hm. auto.
  - unfold ResponsiveContent.moveToOverflow. rewrite Hm, Hkids, Hsec.
    cbn [negb]. eexists. split; [reflexivity|]. split; [|reflexivity].
    split; [exact Hr|]. eexists. eexists.
    cbn [ResponsiveContent.overflowSection ResponsiveContent.overflowContent
         ResponsiveContent.isContentMoved ResponsiveContent.region2Content].
    split; [reflexivity|]. split; [reflexivity|]. split; [reflexivity|].
    exists kids. rewrite Hr. split; [reflexivity | exact Hmoved].
  - replace (900 <? windowWidth)%Z with true
      by (symmetry; apply Z.ltb_lt; apply Z.leb_gt in Hw; lia).
    cbn [andb]. unfold ResponsiveContent.moveToHero. rewrite Hm, Hkids, Hsec.
    eexists. split; [reflexivity|]. split; [|reflexivity].
    split; [exact Hr|]. eexists. eexists.
    cbn [ResponsiveContent.overflowSection ResponsiveContent.overflowContent
         ResponsiveContent.isContentMoved].
    split; [reflexivity|]. split; [reflexivity|]. constructor.
  - rewrite andb_false_r. exists m. split; [reflexivity|].
    split; [|exact Hm]. split; [exact Hr|]. exists display, kids.
    rewrite Hm. auto.
Qed.

Lemma resizes_ok region2 widths : forall m,
  ManagerOk region2 m ->
  ManagerOk region2 (ResponsiveContent.resizes widths m).
Proof.
  induction widths as [|width widths IH]; intros m Hok; [exact Hok|].
  unfold ResponsiveContent.resizes. cbn [fold_left].
  destruct (handleResize_ok region2 width m Hok) as (m' & -> & Hok' & _).
  apply IH, Hok'.
Qed.

Lemma handleResize_sectionless width m kids :
  ResponsiveContent.overflowSection m = None ->
  ResponsiveContent.overflowContent m = Some kids ->
  ResponsiveContent.isContentMoved m = false ->
  exists m',
    match ResponsiveContent.handleResize width m with
    | ResponsiveContent.Returned m1 | ResponsiveContent.Threw m1 => m1
    end = m'
    /\ ResponsiveContent.isContentMoved m' = false
    /\ ResponsiveContent.overflowSection m' = None
    /\ ResponsiveContent.region2Content m' = ResponsiveContent.region2Content m
    /\ ResponsiveContent.overflowContent m'
       = Some (kids
               ++ repeat (overflowClone (ResponsiveContent.region2Content m))
                    (length (narrowWidths [width]))).
Proof.
  intros Hsec Hkids Hmoved.
  unfold ResponsiveContent.handleResize, narrowWidths. rewrite Hmoved.
  rewrite andb_false_r. cbn [negb List.filter]. rewrite andb_true_r.
  destruct (width <=? 900)%Z.
  - unfold ResponsiveContent.moveToOverflow. rewrite Hmoved, Hkids, Hsec.
    cbn [negb]. eexists. split; [reflexivity|].
    cbn [ResponsiveContent.isContentMoved ResponsiveContent.overflowSection
         ResponsiveContent.region2Content ResponsiveContent.overflowContent
         length repeat].
    auto.
  - exists m. cbn [length repeat]. rewrite app_nil_r. auto.
Qed.

Lemma resizes_sectionless widths : forall m kids,
  ResponsiveContent.overflowSection m = None ->
  ResponsiveContent.overflowContent m = Some kids ->
  ResponsiveContent.isContentMoved m = false ->
  ResponsiveContent.isContentMoved (ResponsiveContent.resizes widths m)
  = false
  /\ ResponsiveContent.overflowContent (ResponsiveContent.resizes widths m)
     = Some (kids ++ repeat (overflowClone (ResponsiveContent.region2Content m))
                       (length (narrowWidths widths))).
Proof.
  induction widths as [|width widths IH]; intros m kids Hsec Hkids Hmoved.
  - cbn. rewrite app_nil_r. auto.
  - unfold ResponsiveContent.resizes. cbn [fold_left].
    destruct (handleResize_sectionless width m kids Hsec Hkids Hmoved)
      as (m' & -> & Hm' & Hsec' & Hr' & Hkids').
    destruct (IH m' _ Hsec' Hkids' Hm') as (H1 & H2).
    unfold ResponsiveContent.resizes in H1, H2. rewrite H1, H2, Hr'.
    split; [reflexivity|].
    change (width :: widths) with ([width] ++ widths).
    unfold narrowWidths. rewrite List.filter_app, length_app, repeat_app.
    rewrite app_assoc. reflexivity.
Qed.

(** X17. The overflow section of js/how-we-did-it.js, when
    [#overflow-content] exists and holds no copy of the second region at
    first, after the first check of the constructor and any [resize]
    events. Where [#overflow-section] exists, the content counts as moved
    exactly when the last width was at most 900 pixels; then the overflow
    section is shown as [flex] and the last child of [#overflow-content]
    is the one copy of the region (class [region-2] replaced by
    [overflow-region], id [overflow-region-content]); otherwise it holds
    no copy. Where [#overflow-section] is missing, every check at a width
    of at most 900 pixels appends one more copy and throws before the
    content counts as moved: the copies pile up, one for each such
    check. *)
Theorem overflow_holds_one_copy widths width m kids :
  ResponsiveContent.overflowContent m = Some kids ->
  ResponsiveContent.isContentMoved m = false ->
  NoClone kids ->
  let m' := ResponsiveContent.resizes (widths ++ [width]) m in
  match ResponsiveContent.overflowSection m with
  | Some _ =>
      ResponsiveContent.isContentMoved m' = (width <=? 900)%Z
      /\ ManagerOk (ResponsiveContent.region2Content m) m'
  | None =>
      ResponsiveContent.isContentMoved m' = false
      /\ ResponsiveContent.overflowContent m'
         = Some (kids
                 ++ repeat (overflowClone (ResponsiveContent.region2Content m))
                      (length (narrowWidths (widths ++ [width]))))
  end.
Proof.
  intros Hkids Hmoved Hnone m'.
  destruct (ResponsiveContent.overflowSection m) as [display|] eqn:Hsec.
  - assert (Hok : ManagerOk (ResponsiveContent.region2Content m) m).
    { split; [reflexivity|]. exists display, kids. rewrite Hmoved. auto. }
    pose proof (resizes_ok _ widths m Hok) as Hok1.
    subst m'. unfold ResponsiveContent.resizes in *. rewrite fold_left_app.
    cbn [fold_left].
    destruct (handleResize_ok _ width _ Hok1) as (m2 & -> & Hok2 & Hm2).
    split; assumption.
  - apply resizes_sectionless; assumption.
Qed.

Lemma overflow_holds_one_copy_witness :
  (let m' := ResponsiveContent.resizes ([1200; 800; 700; 1000] ++ [640])%Z
               servedManager in
   ResponsiveContent.isContentMoved m' = (640 <=? 900)%Z
   /\ ManagerOk (ResponsiveContent.region2Content servedManager) m')
  /\ (let m' := ResponsiveContent.resizes ([1200; 800; 700; 1000] ++ [640])%Z
                  sectionlessManager in
      ResponsiveContent.isContentMoved m' = false
      /\ ResponsiveContent.overflowContent m'
         = Some ([] ++ repeat (overflowClone region2)
                         (length (narrowWidths
                                    ([1200; 800; 700; 1000] ++ [640])%Z)))).
Proof.
  split.
  - apply (overflow_holds_one_copy [1200; 800; 700; 1000]%Z 640%Z
             servedManager []).
    + reflexivity.
    + reflexivity.
    + constructor.
  - apply (overflow_holds_one_copy [1200; 800; 700; 1000]%Z 640%Z
             sectionlessManager []).
    + reflexivity.
    + reflexivity.
    + constructor.
Defined.

(** ** The global navigation *)

Lemma stripSlash_keeps s :
  list.last s <> Some 47%N -> GlobalNavigation.stripSlash s = s.
Proof.
  induction s as [|c [|d rest] IH]; intros Hlast; [reflexivity| |].
  - cbn in *. destruct (c =? 47)%N eqn:E; [|reflexivity].
    apply N.eqb_eq in E. congruence.
  - change (GlobalNavigation.stripSlash (c :: d :: rest))
      with (c :: GlobalNavigation.stripSlash (d :: rest)).
    rewrite IH; [reflexivity | exact Hlast].
Qed.

Lemma stripSlash_snoc s : GlobalNavigation.stripSlash (s ++ [47%N]) = s.
Proof.
  induction s as [|c rest IH]; [reflexivity|].
  destruct rest as [|d rest].
  - reflexivity.
  - change (GlobalNavigation.stripSlash ((c :: d :: rest) ++ [47%N]))
      with (c :: GlobalNavigation.stripSlash ((d :: rest) ++ [47%N])).
    rewrite IH. reflexivity.
Qed.

Lemma startsWith_snoc pat : forall s,
  pat <> [] -> list.last pat <> Some 47%N ->
  GlobalNavigation.startsWith pat (s ++ [47%N])
  = GlobalNavigation.startsWith pat s.
Proof.
  induction pat as [|c pat IH]; intros s Hne Hlast; [congruence|].
  destruct s as [|d s]; cbn [app GlobalNavigation.startsWith].
  - destruct pat as [|c' pat].
    + cbn in Hlast. destruct (c =? 47)%N eqn:E; [|reflexivity].
      apply N.eqb_eq in E. congruence.
    + cbn. apply andb_false_r.
  - destruct pat as [|c' pat]; [reflexivity|].
    rewrite IH; [reflexivity | discriminate | exact Hlast].
Qed.

Lemma includes_snoc pat s :
  pat <> [] -> list.last pat <> Some 47%N ->
  GlobalNavigation.includes (s ++ [47%N]) pat = GlobalNavigation.includes s pat.
Proof.
  intros Hne Hlast. induction s as [|d s IH].
  - cbn [app GlobalNavigation.includes].
    pose proof (startsWith_snoc pat [] Hne Hlast) as H0. cbn [app] in H0.
    rewrite H0. destruct pat; [congruence | reflexivity].
  - cbn [app GlobalNavigation.includes].
    change (d :: s ++ [47%N]) with ((d :: s) ++ [47%N]).
    rewrite (startsWith_snoc pat (d :: s) Hne Hlast), IH. reflexivity.
Qed.

(** X18. Which links [setActivePage] marks as active does not depend on
    one slash at the end of the current path, and whether it marks a link
    does not depend on one slash at the end of the [href] of the link. *)
Theorem active_link_ignores_trailing_slash currentPath href links :
  list.last currentPath <> Some 47%N ->
  list.last href <> Some 47%N ->
  GlobalNavigation.setActivePage (currentPath ++ [47%N]) links
  = GlobalNavigation.setActivePage currentPath links
  /\ GlobalNavigation.isActive currentPath (href ++ [47%N])
     = GlobalNavigation.isActive currentPath href.
Proof.
  intros Hp Hh. split.
  - assert (Hsame : forall h,
               GlobalNavigation.isActive (currentPath ++ [47%N]) h
               = GlobalNavigation.isActive currentPath h).
    { intros h. unfold GlobalNavigation.isActive, GlobalNavigation.normalize.
      rewrite stripSlash_snoc, (stripSlash_keeps _ Hp). reflexivity. }
    unfold GlobalNavigation.setActivePage.
    induction links as [|link links IH]; [reflexivity|].
    cbn [mapM]. rewrite IH.
    destruct (GlobalNavigation.href link) as [h|]; [|reflexivity].
    cbn [mbind option_bind]. rewrite Hsame. reflexivity.
  - unfold GlobalNavigation.isActive, GlobalNavigation.normalize.
    rewrite stripSlash_snoc, (stripSlash_keeps _ Hh).
    rewrite !includes_snoc; (reflexivity || discriminate).
Qed.

Lemma active_link_ignores_trailing_slash_witness :
  GlobalNavigation.setActivePage (utf16 "/pages/algorithm" ++ [47%N])
    navLinks
  = GlobalNavigation.setActivePage (utf16 "/pages/algorithm") navLinks
  /\ GlobalNavigation.isActive (utf16 "/pages/algorithm")
       (utf16 "/algorithm" ++ [47%N])
     = GlobalNavigation.isActive (utf16 "/pages/algorithm")
         (utf16 "/algorithm").
Proof.
  apply (active_link_ignores_trailing_slash (utf16 "/pages/algorithm")
           (utf16 "/algorithm") navLinks).
  - vm_compute. discriminate.
  - vm_compute. discriminate.
Defined.

(** ** From the document to the regions *)







(** ** A heading too tall for every region *)

Section Oversized.

Context {Region : Type}.
Variable useKeepWithNext : bool.
Variable split : Q -> Block -> Q -> option SplitResult.
Variable orc : Oracle.
Variable regionMetrics : Region -> option Metrics.

Lemma pureRegions_blocked b bs rs :
  type b = heading ->
  useKeepWithNext && keepWithNext b && (2 <=? length (b :: bs)) = false ->
  Forall (fun region =>
            forall m, usable regionMetrics region = Some m ->
                      Representable (availableHeight m)
                      /\ (availableHeight m
                          < measureHeight orc (innerWidth m) [blockEl b])%Q)
    rs ->
  pureRegions useKeepWithNext split orc regionMetrics rs (b :: bs)
  = Some (b :: bs, List.map (fun _ => []) rs).
Proof.
  intros Hty Hpair. induction 1 as [|region rs Htall _ IH];
    cbn [pureRegions List.map]; [reflexivity|].
  destruct (usable regionMetrics region) as [m|] eqn:Hu.
  - destruct (Htall m eq_refl) as [Hrep Hlt].
    apply usable_positive in Hu as [Hpos _].
    apply jsSub_zero in Hrep.
    rewrite pureWeight_cons. unfold blockWeight at 1.
    cbn [Nat.add pureLoop pqueue]. unfold pureIteration.
    cbn [pqueue pused]. unfold chooseAction.
    assert (Hleft : Qleb (jsSub (availableHeight m) 0) 0 = false)
      by (apply Qleb_gt; rewrite Hrep; exact Hpos).
    rewrite Hleft, Hpair.
    assert (Hno : Qleb (measureHeight orc (innerWidth m) [blockEl b])
                    (jsSub (availableHeight m) 0) = false)
      by (apply Qleb_gt; rewrite Hrep; exact Hlt).
    rewrite Hno, Hty. cbn [mbind option_bind pureApply pplaced pqueue].
    rewrite IH. reflexivity.
  - rewrite IH. reflexivity.
Qed.

End Oversized.

(** X20. A heading no region can hold stops the whole pass. When the
    first block of the document is a heading that is not kept with the
    next block (or the loop has no such branch) and that measures more
    than the available height of every usable region, at the width of
    that region, these available heights being doubles (as those that
    [getRegionMetrics] of either copy computes are), the pass returns with nothing placed in any region: the
    blocks behind the heading are never tried. *)
Theorem oversized_heading_blocks_flow {Region} useKeepWithNext split orc
    (regionMetrics : Region -> option Metrics) (tf : Instance Region) b bs :
  View (heap tf) (blocks tf) (b :: bs) ->
  regions tf <> [] ->
  type b = heading ->
  useKeepWithNext && keepWithNext b && (2 <=? length (b :: bs)) = false ->
  Forall (fun region =>
            forall m, usable regionMetrics region = Some m ->
                      Representable (availableHeight m)
                      /\ (availableHeight m
                          < measureHeight orc (innerWidth m) [blockEl b])%Q)
    (regions tf) ->
  exists tf',
    flowPass useKeepWithNext split orc regionMetrics tf = Some tf'
    /\ content tf' = List.map (fun _ => []) (regions tf).
Proof.
  intros Hv Hr Hty Hpair Htall.
  destruct (flowPass_runs useKeepWithNext split orc regionMetrics tf
              (b :: bs) (List.map (fun _ => []) (regions tf)))
    as (tf' & Hpass & Hc & _).
  - split; [|split; [exact Hr | split; [exact Hv|]]].
    + intros Hnil. rewrite Hnil in Hv. inversion Hv.
    + exists (b :: bs). apply pureRegions_blocked; assumption.
  - exists tf'. split; assumption.
Qed.

Lemma oversized_heading_blocks_flow_witness :
  exists tf',
    TextFlow.flow narrowOracle
      (instanceOf headingAndParagraph [regionOfHeight 30; regionOfHeight 35])
    = Some tf'
    /\ content tf' = [[]; []].
Proof.
  apply (oversized_heading_blocks_flow true
           (TextFlow.splitParagraph narrowOracle) narrowOracle
           TextFlow.regionMetrics
           (instanceOf headingAndParagraph
              [regionOfHeight 30; regionOfHeight 35])
           (mkHeading 0 "Intro" false)
           [mkParagraph 1 "a b c d e" false 2]).
  - repeat constructor.
  - discriminate.
  - reflexivity.
  - reflexivity.
  - constructor; [|constructor; [|constructor]];
      intros m Hm; vm_compute in Hm; injection Hm as <-;
      split; vm_compute; reflexivity.
Defined.

(** ** The word-by-word loop of js/text-flow-intro.js *)

(** X21. [splitParagraph] of js/text-flow-intro.js takes words one by one
    and stops at the first word that makes the text too tall; it does not
    search. With at least one line available: when the first word alone
    stays within the lines that fit, the fragment is the run of words from
    the start all of whose prefixes stay within them, up to the end of
    the paragraph or the first prefix that does not; when the first word
    alone is counted as too many lines, the fragment is that word if its
    measured height is at most the height available, and nothing
    otherwise, whatever longer prefixes would measure. *)
Theorem intro_variant_split_is_greedy orc width block availHeight r w0 ws :
  TextFlowIntro.splitParagraph orc width block availHeight = Some r ->
  words (text block) = w0 :: ws ->
  ltOne (floorDiv availHeight (lineHeightOf orc)) = false ->
  let fits k :=
    jsLe (linesOf orc width (join (slice0 k (w0 :: ws))))
      (floorDiv availHeight (lineHeightOf orc)) in
  if fits 1 then
    1 <= fitsWords r
    /\ (forall k, 1 <= k -> k <= fitsWords r -> fits k = true)
    /\ (fitsWords r = length (w0 :: ws) \/ fits (S (fitsWords r)) = false)
  else
    fitsWords r
    = if Qleb (rectHeight orc width w0) availHeight then 1 else 0.
Proof.
  intros Hr Ew Hone fits. subst fits. cbv beta.
  unfold TextFlowIntro.splitParagraph in Hr. fold (lineHeightOf orc) in Hr.
  pose proof (words_ok (text block)) as Hok.
  rewrite Ew in Hr, Hok. cbn [length Nat.eqb] in Hr. rewrite Hone in Hr.
  change (0 <? S (length ws)) with true in Hr.
  destruct (growLoop_spec orc width (lineHeightOf orc)
              (floorDiv availHeight (lineHeightOf orc)) (w0 :: ws) Hok
              (w0 :: ws) 0 eq_refl)
    as (n & Hn & _ & Hlen & Hall & Hstop).
  change (take 0 (w0 :: ws)) with (@nil jsstring) in Hn.
  cbn [join] in Hn. rewrite Hn in Hr. clear Hn.
  unfold linesOf, slice0.
  destruct n as [|n].
  - cbn [Nat.eqb andb] in Hr.
    destruct Hstop as [Hstop | Hstop]; [cbn in Hstop; lia|].
    change (firstn 1 (w0 :: ws)) with (take 1 (w0 :: ws)).
    rewrite Hstop.
    destruct (Qleb (rectHeight orc width w0) availHeight);
      injection Hr as <-; reflexivity.
  - cbn [Nat.eqb andb] in Hr. injection Hr as <-. cbn [fitsWords].
    change (firstn 1 (w0 :: ws)) with (take 1 (w0 :: ws)).
    rewrite (Hall 1) by lia.
    split; [lia|]. split.
    + intros k Hk Hkn. apply Hall; lia.
    + destruct Hstop as [Hstop | Hstop]; [left | right; exact Hstop].
      cbn [Nat.add] in Hstop. exact Hstop.
Qed.

Lemma intro_variant_split_is_greedy_witness :
  let fits k :=
    jsLe (linesOf narrowOracle (inject_Z 100)
            (join (slice0 k [utf16 "a"; utf16 "b"; utf16 "c"])))
      (floorDiv (inject_Z 25) (lineHeightOf narrowOracle)) in
  if fits 1 then
    1 <= fitsWords oneLineFragment
    /\ (forall k, 1 <= k -> k <= fitsWords oneLineFragment -> fits k = true)
    /\ (fitsWords oneLineFragment
        = length [utf16 "a"; utf16 "b"; utf16 "c"]
        \/ fits (S (fitsWords oneLineFragment)) = false)
  else
    fitsWords oneLineFragment
    = if Qleb (rectHeight narrowOracle (inject_Z 100) (utf16 "a"))
           (inject_Z 25)
      then 1 else 0.
Proof.
  apply (intro_variant_split_is_greedy narrowOracle (inject_Z 100) threeWords
           (inject_Z 25) oneLineFragment (utf16 "a")
           [utf16 "b"; utf16 "c"]).
  - vm_compute. reflexivity.
  - vm_compute. reflexivity.
  - vm_compute. reflexivity.
Defined.

(** ** The second block of a kept pair *)

Section SecondOfPair.

Context {Region : Type}.
Variable split : Q -> Block -> Q -> option SplitResult.
Variable orc : Oracle.
Variable regionMetrics : Region -> option Metrics.
Variables b nb nb' : Block.
Hypothesis kept : keepWithNext b = true.
Hypothesis same : SameLayout nb nb'.

Local Abbreviation piter := (pureIteration true split orc).
Local Abbreviation ploop := (pureLoop true split orc).
Local Abbreviation pregions := (pureRegions true split orc regionMetrics).
Local Abbreviation Rel := (SameButSecond b nb nb').

Lemma SameButSecond_refl ps : Rel ps ps.
Proof. repeat split; auto. Qed.

Lemma SameButSecond_eq ps ps' :
  pused ps = pused ps' -> pplaced ps = pplaced ps' ->
  pqueue ps = pqueue ps' -> ps = ps'.
Proof. destruct ps, ps'; cbn; congruence. Qed.

Lemma pureIteration_second width availHeight ps ps' :
  Rel ps ps' ->
  match piter width availHeight ps, piter width availHeight ps' with
  | Some (PContinue r), Some (PContinue r') => Rel r r'
  | Some PBreak, Some PBreak => True
  | None, None => True
  | _, _ => False
  end.
Proof.
  intros (Hu & Hp & [(rest & Hq & Hq') | Hq]).
  - unfold pureIteration. rewrite Hq, Hq', <- Hu.
    cbn [head length]. unfold chooseAction.
    destruct (Qleb (jsSub availHeight (pused ps)) 0); [exact I|].
    rewrite kept. cbn [andb Nat.leb mbind option_bind].
    rewrite <- (SameLayout_blockEl _ _ same).
    destruct (Qleb _ _); cbn [mbind option_bind pureApply]; [|exact I].
    unfold SameButSecond. cbn [pqueue pused pplaced].
    rewrite Hq, Hq', <- Hu, <- Hp. cbn [drop].
    repeat split; auto.
  - rewrite (SameButSecond_eq ps ps' Hu Hp Hq).
    destruct (piter width availHeight ps') as [[r|]|]; auto.
    apply SameButSecond_refl.
Qed.

Lemma pureLoop_second width availHeight fuel : forall ps ps',
  Rel ps ps' ->
  match ploop fuel width availHeight ps, ploop fuel width availHeight ps' with
  | Some r, Some r' => Rel r r'
  | None, None => True
  | _, _ => False
  end.
Proof.
  induction fuel as [|fuel IH]; intros ps ps' Hrel; cbn [pureLoop];
    pose proof Hrel as (_ & _ & Hq);
    destruct (pqueue ps) as [|b0 bs0] eqn:Eq,
             (pqueue ps') as [|b1 bs1] eqn:Eq';
    try (destruct Hq as [(rest & ? & ?) | ?]; discriminate);
    try exact Hrel; try exact I.
  pose proof (pureIteration_second width availHeight ps ps' Hrel) as Hit.
  destruct (piter width availHeight ps) as [[r|]|],
           (piter width availHeight ps') as [[r'|]|];
    cbn [mbind option_bind]; try contradiction; try exact I.
  - apply IH. exact Hit.
  - exact Hrel.
Qed.

Lemma pureRegions_second rs : forall bs bs',
  Rel {| pqueue := bs; pused := 0; pplaced := [] |}
      {| pqueue := bs'; pused := 0; pplaced := [] |} ->
  match pregions rs bs, pregions rs bs' with
  | Some (_, out), Some (_, out') => out = out'
  | None, None => True
  | _, _ => False
  end.
Proof.
  induction rs as [|region rest IH]; intros bs bs' Hrel;
    cbn [pureRegions]; [reflexivity|].
  assert (Hweight : pureWeight bs = pureWeight bs').
  { destruct Hrel as (_ & _ & [(tl & Hq & Hq') | Hq]); cbn [pqueue] in *;
      [|congruence].
    subst bs bs'. rewrite !pureWeight_cons. unfold blockWeight.
    destruct same as (_ & _ & -> & _). reflexivity. }
  assert (Hnext : forall ps ps', Rel ps ps' ->
            Rel {| pqueue := pqueue ps; pused := 0; pplaced := [] |}
                {| pqueue := pqueue ps'; pused := 0; pplaced := [] |}).
  { intros ps ps' (_ & _ & Hq). repeat split; auto. }
  destruct (usable regionMetrics region) as [m|].
  - rewrite <- Hweight.
    pose proof (pureLoop_second (innerWidth m) (availableHeight m)
                  (pureWeight bs) _ _ Hrel) as Hl.
    destruct (ploop _ _ _ {| pqueue := bs |}) as [ps|],
             (ploop _ _ _ {| pqueue := bs' |}) as [ps'|];
      cbn [mbind option_bind]; try contradiction; [|exact I].
    specialize (IH _ _ (Hnext _ _ Hl)). destruct Hl as (_ & Hp & _).
    destruct (pregions rest (pqueue ps)) as [[r out]|],
             (pregions rest (pqueue ps')) as [[r' out']|];
      cbn [mbind option_bind]; try contradiction; [|exact I].
    rewrite Hp, IH. reflexivity.
  - specialize (IH _ _ Hrel).
    destruct (pregions rest bs) as [[r out]|],
             (pregions rest bs') as [[r' out']|];
      cbn [mbind option_bind]; try contradiction; [|exact I].
    rewrite IH. reflexivity.
Qed.

End SecondOfPair.

(** X22. A chain of blocks kept with the next is not kept together by
    js/intro.js. When the first block asks to be kept with the second, the
    pair stays at the head of the queue until it is placed as one, so the
    second block never heads the queue: [flow] reads nothing of it but its
    type, level and text. Whatever its own [keepWithNext] (and its
    [orphanProtection]) hold, the regions receive the same content. *)
Theorem second_of_kept_pair_not_read orc
    (tf1 tf2 tf1' tf2' : Instance TextFlow.Region) b nb nb' rest :
  View (heap tf1) (blocks tf1) (b :: nb :: rest) ->
  View (heap tf2) (blocks tf2) (b :: nb' :: rest) ->
  keepWithNext b = true ->
  SameLayout nb nb' ->
  regions tf1 = regions tf2 ->
  content tf1 = content tf2 ->
  TextFlow.flow orc tf1 = Some tf1' ->
  TextFlow.flow orc tf2 = Some tf2' ->
  content tf1' = content tf2'.
Proof.
  intros Hv1 Hv2 Hkept Hsame Hregions Hcontent Hp1 Hp2.
  unfold TextFlow.flow in Hp1, Hp2.
  destruct (flowPass_inv _ _ _ _ _ _
              (ValidRefs_lt _ (View_ValidRefs _ _ Hv1)) Hp1)
    as [[Hidle ->] | (bs1 & (_ & Hr1 & Hv1' & r1 & Hpure1) & _)].
  { destruct Hidle as [Hnil | Hnil].
    - rewrite Hnil in Hv1. inversion Hv1.
    - rewrite flowPass_idle in Hp2 by (right; congruence).
      injection Hp2 as <-. exact Hcontent. }
  destruct (flowPass_inv _ _ _ _ _ _
              (ValidRefs_lt _ (View_ValidRefs _ _ Hv2)) Hp2)
    as [[Hidle ->] | (bs2 & (_ & _ & Hv2' & r2 & Hpure2) & _)].
  { exfalso. destruct Hidle as [Hnil | Hnil]; [|congruence].
    rewrite Hnil in Hv2. inversion Hv2. }
  rewrite <- (View_functional _ _ _ _ Hv1 Hv1') in Hpure1.
  rewrite <- (View_functional _ _ _ _ Hv2 Hv2') in Hpure2.
  pose proof (pureRegions_second (TextFlow.splitParagraph orc) orc
                TextFlow.regionMetrics b nb nb' Hkept Hsame (regions tf1)
                (b :: nb :: rest) (b :: nb' :: rest)) as Hrel.
  rewrite Hpure1 in Hrel. rewrite <- Hregions in Hpure2.
  rewrite Hpure2 in Hrel. apply Hrel.
  repeat split; auto. left. exists rest. auto.
Qed.

Lemma second_of_kept_pair_not_read_witness :
  exists tf1' tf2',
    TextFlow.flow narrowOracle (instanceOf keptChain [regionOfHeight 100])
    = Some tf1'
    /\ TextFlow.flow narrowOracle
         (instanceOf keptChainUnflagged [regionOfHeight 100]) = Some tf2'
    /\ content tf1' = content tf2'.
Proof.
  eexists. eexists. split; [vm_compute; reflexivity|].
  split; [vm_compute; reflexivity|].
  apply (second_of_kept_pair_not_read narrowOracle
           (instanceOf keptChain [regionOfHeight 100])
           (instanceOf keptChainUnflagged [regionOfHeight 100]) _ _
           (mkHeading 0 "Part" true) (mkHeading 1 "Chapter" true)
           (mkHeading 1 "Chapter" false) [mkParagraph 2 "a b c" false 2]).
  - repeat constructor.
  - repeat constructor.
  - reflexivity.
  - repeat split.
  - reflexivity.
  - reflexivity.
  - vm_compute. reflexivity.
  - vm_compute. reflexivity.
Defined.
